(** * lsearch: the rate-limited, fail-fast crawl pipeline of [lsearch.py]

    A shallow embedding of the pipeline of [src/lsearch.py] and the
    properties its specification states about it.

    Modelling conventions.
    - A Python [str] is the [string] of its characters, each below U+0100;
      on such text the pattern class [\d] is [0-9] and [re.I] folds [A-Z]
      only.  [int] is the unbounded decimal conversion.
    - Seconds (the readings of [time.monotonic], the arguments of
      [asyncio.sleep]) are exact rationals; a [float] quotient is the
      rational it rounds.
    - asyncio runs one coroutine at a time and switches only at an [await]
      that suspends.  A coroutine is a phase (where it is suspended) and a
      step function running it from one suspension to the next; a schedule
      is the list of resumptions, each with the clock reading, the value
      [random.random] returns and the reply of the remote server that the
      resumed code consumes.  Any order of resumptions is a schedule, which
      covers the FIFO order of asyncio's lock and semaphore wake-ups.
    - [asyncio.CancelledError] derives from [BaseException] (Python 3.8
      and later), so [except Exception] does not catch it.
    - The optional tqdm progress bars gather the same coroutines as
      [asyncio.gather] and are left out. *)

From Stdlib Require Import QArith Qminmax Qround Lqa ZArith String Ascii List DecimalString.
From stdpp Require Import gmap strings list.

#[local] Set Warnings "-clear-no-such-hyp".

Local Close Scope Q_scope.
Local Open Scope Z_scope.

(** ** Python values *)

Module Py.

(** [str(n)] for an [int]. *)
Definition str (n : Z) : string := NilZero.string_of_int (Z.to_int n).

Definition is_digit (c : ascii) : bool :=
  (48 <=? Z.of_N (N_of_ascii c)) && (Z.of_N (N_of_ascii c) <=? 57).

Definition digit_value (c : ascii) : Z := Z.of_N (N_of_ascii c) - 48.

(** [int(s)] for a run of decimal digits. *)
Definition int (s : list ascii) : Z :=
  fold_left (fun acc c => 10 * acc + digit_value c) s 0.

(** The lower-case form of a character, as [re.I] compares them. *)
Definition lower (c : ascii) : ascii :=
  let n := N_of_ascii c in
  if ((65 <=? Z.of_N n) && (Z.of_N n <=? 90))%Z then ascii_of_N (n + 32) else c.

(** [range(a, b)]. *)
Definition range (a b : Z) : list Z :=
  map (fun i => a + Z.of_nat i) (seq 0 (Z.to_nat (b - a))).

(** What a call does: it returns a value or raises an exception. *)
Inductive result (E A : Type) : Type :=
| Ok (a : A)
| Raise (e : E).
Arguments Ok {E A} a.
Arguments Raise {E A} e.

End Py.

(** ** The regular expressions the pipeline itself relies on

    A backtracking matcher in continuation-passing style, with the
    priorities of Python's [re]: a greedy repetition tries the longest run
    first and gives characters back one at a time. *)

Module Re.

Section Matcher.
Context {R : Type}.

(** A literal, compared case-insensitively (the pattern is lower case). *)
Fixpoint lit (pat : list ascii) (s : list ascii)
    (k : list ascii -> option R) : option R :=
  match pat with
  | [] => k s
  | p :: pat' =>
      match s with
      | c :: s' => if Ascii.eqb (Py.lower c) p then lit pat' s' k else None
      | [] => None
      end
  end.

(** [cls*], greedy. *)
Fixpoint star (cls : ascii -> bool) (s : list ascii)
    (k : list ascii -> option R) : option R :=
  match s with
  | c :: s' =>
      if cls c then
        match star cls s' k with
        | Some r => Some r
        | None => k s
        end
      else k s
  | [] => k s
  end.

(** [(cls+)], greedy, capturing: the continuation receives the group
    (built in [acc]) and the rest of the text. *)
Fixpoint plus_group (cls : ascii -> bool) (acc : list ascii) (s : list ascii)
    (k : list ascii -> list ascii -> option R) : option R :=
  match s with
  | c :: s' =>
      if cls c then
        match plus_group cls (acc ++ [c]) s' k with
        | Some r => Some r
        | None => k (acc ++ [c]) s'
        end
      else None
  | [] => None
  end.

(** [search]: the match at the leftmost position that has one. *)
Fixpoint search (at_pos : list ascii -> option R) (s : list ascii) : option R :=
  match at_pos s with
  | Some r => Some r
  | None => match s with
            | _ :: s' => search at_pos s'
            | [] => None
            end
  end.
End Matcher.

Definition not_gt (c : ascii) : bool := negb (Ascii.eqb c ">").

(** The double quote character. *)
Definition dq : ascii := ascii_of_nat 34.

Definition chars (s : string) : list ascii := list_ascii_of_string s.

(** The three literals of [RE_DATA_MAX]: the opening of the tag, the
    class attribute with the quoted value pagination, and the name of the
    data-max attribute up to its opening quote. *)
Definition ul_open : list ascii := chars "<ul".
Definition class_pagination : list ascii :=
  chars "class=" ++ [dq] ++ chars "pagination" ++ [dq].
Definition data_max_eq : list ascii := chars "data-max=" ++ [dq].

(** [RE_DATA_MAX], compiled with [re.I]: the tag opening, [[^>]*], the
    class attribute, [[^>]*], the data-max attribute whose value is the
    group [(\d+)], and the closing quote.  The result is group 1. *)
Definition RE_DATA_MAX_at (s : list ascii) : option (list ascii) :=
  lit ul_open s (fun s1 =>
  star not_gt s1 (fun s2 =>
  lit class_pagination s2 (fun s3 =>
  star not_gt s3 (fun s4 =>
  lit data_max_eq s4 (fun s5 =>
  plus_group Py.is_digit [] s5 (fun g s6 =>
  lit [dq] s6 (fun _ => Some g))))))).

Definition RE_DATA_MAX_search (html : string) : option (list ascii) :=
  search RE_DATA_MAX_at (chars html).

End Re.

(** ** Constants *)

Definition BASE : string := "https://play.limitlesstcg.com".
Definition LIST_URL : string :=
  BASE +:+ "/tournaments/completed" +:+
  "?game=PTCG&format=STANDARD&platform=all&type=online&time=4weeks&show=100".

(** The tunables of lines 33-37. *)
Record config := {
  RPS : Z;
  CONCURRENCY_PAGES : nat;
  CONCURRENCY_DECKS : nat;
  FAIL_ON : Z;
  JITTER_MAX_S : Q
}.

Definition source_config : config :=
  {| RPS := 360; CONCURRENCY_PAGES := 12; CONCURRENCY_DECKS := 180;
     FAIL_ON := 1; JITTER_MAX_S := 5 # 1000 |}.

(** ** [urllib.parse], as [_set_q] uses it *)

Record ParseResult := {
  scheme : string; netloc : string; path : string;
  params : string; query : string; fragment : string
}.

Definition _replace_query (u : ParseResult) (q : string) : ParseResult :=
  {| scheme := scheme u; netloc := netloc u; path := path u;
     params := params u; query := q; fragment := fragment u |}.

(** A [dict] from [str] to lists of [str], in insertion order. *)
Definition qdict := list (string * list string).

(** [q[key] = v]: an existing key keeps its place, a new one goes last. *)
Fixpoint dict_set (q : qdict) (key : string) (v : list string) : qdict :=
  match q with
  | [] => [(key, v)]
  | (k, old) :: rest =>
      if String.eqb k key then (k, v) :: rest else (k, old) :: dict_set rest key v
  end.

(** The library functions, which are not part of the repository. *)
Record urllib := {
  urlparse : string -> ParseResult;
  parse_qs : string -> qdict;          (* keep_blank_values=True *)
  urlencode : qdict -> string;         (* doseq=True *)
  geturl : ParseResult -> string
}.

Definition _set_q (lib : urllib) (url key value : string) : string :=
  let u := urlparse lib url in
  let q := parse_qs lib (query u) in
  let q := dict_set q key [value] in
  geturl lib (_replace_query u (urlencode lib q)).

(** ** [_dedupe_keep_order] *)

Fixpoint dedupe_loop (urls : list string) (seen : gset string) (out : list string)
    : list string :=
  match urls with
  | [] => out
  | u :: rest =>
      if decide (u ∈ seen) then dedupe_loop rest seen out
      else dedupe_loop rest ({[u]} ∪ seen) (out ++ [u])
  end.

Definition _dedupe_keep_order (urls : list string) : list string :=
  dedupe_loop urls ∅ [].

(** ** [_max_page] and the listing pages *)

Definition _max_page (html : string) : Z :=
  match Re.RE_DATA_MAX_search html with
  | Some g => Py.int g
  | None => 1
  end.

(** Line 221. *)
Definition pages (lib : urllib) (maxp : Z) : list string :=
  LIST_URL :: map (fun p => _set_q lib LIST_URL "page" (Py.str p)) (Py.range 2 (maxp + 1)).

(** ** [FixedPacer] *)

Module Pacer.

Definition Qlt_bool (a b : Q) : bool := negb (Qle_bool b a).

(** The fields of the object; [lock] is whether the [asyncio.Lock] is
    held.  [rps] is at least one by construction. *)
Record FixedPacer := {
  rps : positive;
  starts : list Q;
  lock : bool;
  total_started : Z
}.

(** [__init__]: [self.rps = max(1, int(rps))]. *)
Definition init (rps0 : Z) : FixedPacer :=
  {| rps := Z.to_pos (Z.max 1 rps0); starts := []; lock := false; total_started := 0 |}.

Definition set_lock (b : bool) (p : FixedPacer) : FixedPacer :=
  {| rps := rps p; starts := starts p; lock := b; total_started := total_started p |}.

Definition set_starts (s : list Q) (p : FixedPacer) : FixedPacer :=
  {| rps := rps p; starts := s; lock := lock p; total_started := total_started p |}.

(** Lines 87-88. *)
Definition record_start (now : Q) (s : list Q) (p : FixedPacer) : FixedPacer :=
  {| rps := rps p; starts := s ++ [now]; lock := lock p;
     total_started := total_started p + 1 |}.

(** Lines 84-85: pop from the left while the oldest start is at least one
    second old. *)
Fixpoint evict (now : Q) (s : list Q) : list Q :=
  match s with
  | t :: rest => if Qle_bool 1 (now - t) then evict now rest else s
  | [] => []
  end.

(** Where a caller of [acquire] is suspended, or how its call ended. *)
Inductive phase :=
| Entering                 (* at [async with self.lock]: not yet run, or waiting for the lock *)
| Jittering (until : Q)    (* line 92: admitted, asleep inside the [async with] block *)
| BackingOff (until : Q)   (* line 95: rejected, asleep after the block *)
| Returned                 (* line 93 *)
| IndexError.              (* [self.starts[0]] on an empty deque *)

Section Acquire.
Variable jitter_max : Q.

(** One pass of the loop body from [async with self.lock] to the next
    suspension (lines 82-95), at clock reading [now], with [rnd] the
    value of [random.random()]. *)
Definition enter (now rnd : Q) (p : FixedPacer) : FixedPacer * phase :=
  if lock p then (p, Entering)
  else
    let s := evict now (starts p) in
    if Z.of_nat (length s) <? Z.pos (rps p) then
      let p' := record_start now s p in
      let j := ((rnd * 2 - 1) * jitter_max)%Q in
      if Qlt_bool 0 jitter_max && Qlt_bool 0 j
      then (set_lock true p', Jittering (now + j)%Q)
      else (p', Returned)
    else
      match s with
      | t :: _ =>
          let sleep_for := (1 - (now - t))%Q in
          (set_starts s p, BackingOff (now + Qmax (1 # 1000) sleep_for)%Q)
      | [] => (set_starts s p, IndexError)
      end.

(** Resuming a caller at clock reading [now]. *)
Definition step (now rnd : Q) (ph : phase) (p : FixedPacer) : FixedPacer * phase :=
  match ph with
  | Entering => enter now rnd p
  | Jittering until =>
      if Qle_bool until now then (set_lock false p, Returned) else (p, ph)
  | BackingOff until =>
      if Qle_bool until now then enter now rnd p else (p, ph)
  | Returned | IndexError => (p, ph)
  end.

(** Any number of coroutines calling [acquire] on one pacer.
    [admissions] lists the clock readings appended to [starts] so far:
    it grows when [total_started] does. *)
Record system := {
  pacer : FixedPacer;
  callers : list phase;
  clock : Q;
  admissions : list Q
}.

(** A resumption: of which caller, when, and with which random draw. *)
Record event := { who : nat; at_time : Q; rnd : Q }.

Definition start (rps0 : Z) (ncallers : nat) : system :=
  {| pacer := init rps0; callers := replicate ncallers Entering;
     clock := 0; admissions := [] |}.

(** The clock is monotonic: a reading is never below the previous one. *)
Definition sys_step (e : event) (s : system) : system :=
  match callers s !! who e with
  | None => s
  | Some ph =>
      let now := Qmax (clock s) (at_time e) in
      let '(p', ph') := step now (rnd e) ph (pacer s) in
      {| pacer := p';
         callers := <[who e := ph']> (callers s);
         clock := now;
         admissions :=
           if total_started p' =? total_started (pacer s) then admissions s
           else admissions s ++ [now] |}
  end.

Fixpoint run (es : list event) (s : system) : system :=
  match es with
  | [] => s
  | e :: es' => run es' (sys_step e s)
  end.
End Acquire.

(** The admissions in the one-second window that trails the instant [T]:
    those made at or before [T] and less than 1.0 second old, which is
    when line 84 still keeps an entry. *)
Definition in_window (T t : Q) : bool := Qle_bool t T && negb (Qle_bool 1 (T - t)).

Definition admitted_in_window (T : Q) (log : list Q) : nat :=
  length (filter (fun t => in_window T t = true) log).

Definition jittering (ph : phase) : bool :=
  match ph with Jittering _ => true | _ => false end.

End Pacer.

(** ** What the pipeline raises, reads and produces *)

(** The instances of [Exception] that reach the handlers: what
    [raise_for_status] raises, and any other (a connection error, a timeout,
    a failure of a parser), by the name of its class and its text. *)
Inductive exception :=
| ClientResponseError (status : Z) (message : string)
| OtherException (type_name : string) (text : string).

(** [asyncio.CancelledError] is not an [Exception]. *)
Inductive raised :=
| CancelledError
| Exc (e : exception).

(** What the remote server does to one request: the body of a successful
    response, or the failure of [session.get], [raise_for_status] or
    [r.text()]. *)
Inductive response :=
| Body (text : string)
| Fails (e : exception).

(** The dictionary appended to [matches] (lines 282-293). *)
Record deck_record := {
  url : string; player : string; archetype : string;
  points : Z; wins : Z; losses : Z; ties : Z; dropped : bool;
  win_rate : Q; played : Z
}.

(** The scrapers of lines 119-199 and the [str] methods of line 269, taken
    as given functions of the page text.  They may raise, which covers
    whatever they do. *)
Record parsers := {
  _extract_standings : string -> Py.result exception (list string);
  _extract_decks : string -> Py.result exception (list string);
  _deck_has_card : string -> string -> Py.result exception bool;
  _extract_details : string -> Py.result exception (Z * Z * Z * Z * bool);
  _extract_archetype : string -> Py.result exception string;
  _player_from_url : string -> Py.result exception string;
  strip_lower : string -> string
}.

Definition ZeroDivisionError : exception :=
  OtherException "ZeroDivisionError" "division by zero".

(** [a / b] on [int]s. *)
Definition truediv (a b : Z) : Py.result exception Q :=
  if b =? 0 then Py.Raise ZeroDivisionError
  else Py.Ok (inject_Z a / inject_Z b)%Q.

(** Lines 280-281. *)
Definition win_rate_of (wins losses : Z) : Py.result exception Q :=
  let denom := wins + losses in
  if 0 <? denom then truediv wins denom else Py.Ok 0%Q.

(** Lines 279-293: the record of a matching deck page. *)
Definition make_record (prs : parsers) (url html : string)
    : Py.result exception deck_record :=
  match _extract_details prs html with
  | Py.Raise e => Py.Raise e
  | Py.Ok (points, wins, losses, ties, dropped) =>
      match win_rate_of wins losses with
      | Py.Raise e => Py.Raise e
      | Py.Ok win_rate =>
          match _player_from_url prs url with
          | Py.Raise e => Py.Raise e
          | Py.Ok player =>
              match _extract_archetype prs html with
              | Py.Raise e => Py.Raise e
              | Py.Ok archetype =>
                  Py.Ok {| url := url; player := player; archetype := archetype;
                           points := points; wins := wins; losses := losses;
                           ties := ties; dropped := dropped; win_rate := win_rate;
                           played := wins + losses + ties |}
              end
          end
      end
  end.

(** The objects shared by the coroutines of one [run], and what the run
    does to the outside: the lines it prints and the requests it starts. *)
Record world := {
  pacer : Pacer.FixedPacer;
  stop_evt : bool;
  error_count : Z;
  tourneys : list string;
  deck_urls : list string;
  matches : list deck_record;
  stdout : list string;
  requests : list string;
  clock : Q
}.

Definition set_pacer (p : Pacer.FixedPacer) (w : world) : world :=
  {| pacer := p; stop_evt := stop_evt w; error_count := error_count w;
     tourneys := tourneys w; deck_urls := deck_urls w; matches := matches w;
     stdout := stdout w; requests := requests w; clock := clock w |}.

Definition set_stop (w : world) : world :=
  {| pacer := pacer w; stop_evt := true; error_count := error_count w;
     tourneys := tourneys w; deck_urls := deck_urls w; matches := matches w;
     stdout := stdout w; requests := requests w; clock := clock w |}.

Definition set_error_count (n : Z) (w : world) : world :=
  {| pacer := pacer w; stop_evt := stop_evt w; error_count := n;
     tourneys := tourneys w; deck_urls := deck_urls w; matches := matches w;
     stdout := stdout w; requests := requests w; clock := clock w |}.

Definition set_tourneys (l : list string) (w : world) : world :=
  {| pacer := pacer w; stop_evt := stop_evt w; error_count := error_count w;
     tourneys := l; deck_urls := deck_urls w; matches := matches w;
     stdout := stdout w; requests := requests w; clock := clock w |}.

Definition set_deck_urls (l : list string) (w : world) : world :=
  {| pacer := pacer w; stop_evt := stop_evt w; error_count := error_count w;
     tourneys := tourneys w; deck_urls := l; matches := matches w;
     stdout := stdout w; requests := requests w; clock := clock w |}.

Definition set_matches (l : list deck_record) (w : world) : world :=
  {| pacer := pacer w; stop_evt := stop_evt w; error_count := error_count w;
     tourneys := tourneys w; deck_urls := deck_urls w; matches := l;
     stdout := stdout w; requests := requests w; clock := clock w |}.

Definition print (lines : list string) (w : world) : world :=
  {| pacer := pacer w; stop_evt := stop_evt w; error_count := error_count w;
     tourneys := tourneys w; deck_urls := deck_urls w; matches := matches w;
     stdout := stdout w ++ lines; requests := requests w; clock := clock w |}.

Definition add_request (u : string) (w : world) : world :=
  {| pacer := pacer w; stop_evt := stop_evt w; error_count := error_count w;
     tourneys := tourneys w; deck_urls := deck_urls w; matches := matches w;
     stdout := stdout w; requests := requests w ++ [u]; clock := clock w |}.

Definition set_clock (t : Q) (w : world) : world :=
  {| pacer := pacer w; stop_evt := stop_evt w; error_count := error_count w;
     tourneys := tourneys w; deck_urls := deck_urls w; matches := matches w;
     stdout := stdout w; requests := requests w; clock := t |}.

(** ** [_get] *)

(** Where a call of [_get] is suspended. *)
Inductive get_phase :=
| Acquiring (a : Pacer.phase)    (* line 100 *)
| Reading.                       (* lines 102-104 *)

(** What running [_get] up to its next suspension gives. *)
Inductive get_result :=
| Suspended (g : get_phase)
| Returns (text : string)
| Raises (r : raised).

(** The two lines the handler of [_get] prints (lines 107-111). *)
Definition fail_fast_lines (url : string) (e : exception) : list string :=
  [ "[fail-fast] error on " +:+ url;
    match e with
    | ClientResponseError status message =>
        "[fail-fast] HTTP " +:+ Py.str status +:+ ": " +:+ message
    | OtherException type_name text =>
        "[fail-fast] " +:+ type_name +:+ ": " +:+ text
    end ].

(** The three task coroutines of [run] differ in what they do with the page
    and in their handler. *)
Inductive stage := Listing | Expanding | Collecting.

(** How a task coroutine ended. *)
Inductive ending :=
| Skipped                  (* the [return] of its first line *)
| Succeeded
| Caught (e : exception)   (* its [except Exception] ran *)
| Escaped.                 (* [CancelledError] left the coroutine *)

Inductive task_phase :=
| Created                  (* gathered, not yet run *)
| SemWait                  (* suspended at [async with sem] *)
| InGet (g : get_phase)    (* suspended inside [_get], holding the semaphore *)
| Finished (o : ending).

Definition task := (string * task_phase)%type.

(** Where the coroutine [run] is. *)
Inductive control :=
| Start
| FirstGet (g : get_phase)                 (* line 219 *)
| Gathering (st : stage)                   (* lines 237-240, 260-263, 299-302 *)
| Return (tournaments decks : nat) (records : list deck_record)
| Raised (r : raised).

Record run_state := {
  shared : world;
  ctl : control;
  sem : nat;                     (* the value of the semaphore of the stage *)
  tasks : list task;             (* the coroutines gathered by the stage *)
  uniq_tourneys : list string;
  uniq_decks : list string;
  earlier : list task            (* the coroutines of the stages before *)
}.

Inductive actor := Main | Task (i : nat).

(** A resumption of a coroutine of the run. *)
Record resumption := {
  who : actor;
  at_time : Q;
  rnd : Q;
  reply : response
}.

Definition escaped (t : task) : bool :=
  match t.2 with Finished Escaped => true | _ => false end.

Definition finished (t : task) : bool :=
  match t.2 with Finished _ => true | _ => false end.

Definition caught (t : task) : bool :=
  match t.2 with Finished (Caught _) => true | _ => false end.

Definition spawn (urls : list string) : list task := map (fun u => (u, Created)) urls.

Section Pipeline.
Variable cfg : config.
Variable lib : urllib.
Variable prs : parsers.
Variable card : string.

(** Line 100 and, once [acquire] has returned, the start of the request. *)
Definition get_acquire (url : string) (rnd : Q) (a : Pacer.phase) (w : world)
    : world * get_result :=
  let '(p', a') := Pacer.step (JITTER_MAX_S cfg) (clock w) rnd a (pacer w) in
  let w' := set_pacer p' w in
  match a' with
  | Pacer.Returned => (add_request url w', Suspended Reading)
  | Pacer.IndexError =>
      (w', Raises (Exc (OtherException "IndexError" "deque index out of range")))
  | _ => (w', Suspended (Acquiring a'))
  end.

(** Lines 98-100: the call of [_get]. *)
Definition get_call (url : string) (rnd : Q) (w : world) : world * get_result :=
  if stop_evt w then (w, Raises CancelledError)
  else get_acquire url rnd Pacer.Entering w.

(** Lines 102-113: the end of the request. *)
Definition get_reply (url : string) (r : response) (w : world) : world * get_result :=
  match r with
  | Body text => (w, Returns text)
  | Fails e =>
      (if stop_evt w then w else set_stop (print (fail_fast_lines url e) w),
       Raises (Exc e))
  end.

Definition get_resume (url : string) (rnd : Q) (r : response) (g : get_phase)
    (w : world) : world * get_result :=
  match g with
  | Acquiring a => get_acquire url rnd a w
  | Reading => get_reply url r w
  end.

(** The handlers of lines 233-235, 256-258 and 294-297. *)
Definition on_error (st : stage) (w : world) : world :=
  let w' := set_error_count (error_count w + 1) w in
  match st with
  | Listing | Expanding => set_stop w'
  | Collecting => if error_count w' >=? FAIL_ON cfg then set_stop w' else w'
  end.

(** Lines 232, 255 and 278-293: what a task does with the page. *)
Definition on_html (st : stage) (url html : string) (w : world)
    : Py.result exception world :=
  match st with
  | Listing =>
      match _extract_standings prs html with
      | Py.Ok l => Py.Ok (set_tourneys (tourneys w ++ l) w)
      | Py.Raise e => Py.Raise e
      end
  | Expanding =>
      match _extract_decks prs html with
      | Py.Ok l => Py.Ok (set_deck_urls (deck_urls w ++ l) w)
      | Py.Raise e => Py.Raise e
      end
  | Collecting =>
      match _deck_has_card prs html (strip_lower prs card) with
      | Py.Raise e => Py.Raise e
      | Py.Ok false => Py.Ok w
      | Py.Ok true =>
          match make_record prs url html with
          | Py.Ok r => Py.Ok (set_matches (matches w ++ [r]) w)
          | Py.Raise e => Py.Raise e
          end
      end
  end.

(** The rest of a task once [_get] has run to its next suspension; the
    task holds one unit of the semaphore, whose value is [sem], and gives
    it back when it leaves the [async with] block. *)
Definition settle (st : stage) (url : string) (sem : nat) (r : world * get_result)
    : world * nat * task_phase :=
  match r with
  | (w, Suspended g) => (w, sem, InGet g)
  | (w, Returns html) =>
      match on_html st url html w with
      | Py.Ok w' => (w', S sem, Finished Succeeded)
      | Py.Raise e => (on_error st w, S sem, Finished (Caught e))
      end
  | (w, Raises CancelledError) => (w, S sem, Finished Escaped)
  | (w, Raises (Exc e)) => (on_error st w, S sem, Finished (Caught e))
  end.

(** [fetch_page], [fetch_tourney] and [check_deck], resumed. *)
Definition task_step (st : stage) (url : string) (rnd : Q) (r : response)
    (ph : task_phase) (w : world) (sem : nat) : world * nat * task_phase :=
  match ph with
  | Created =>
      if stop_evt w then (w, sem, Finished Skipped)
      else match sem with
           | O => (w, sem, SemWait)
           | S sem' => settle st url sem' (get_call url rnd w)
           end
  | SemWait =>
      match sem with
      | O => (w, sem, SemWait)
      | S sem' => settle st url sem' (get_call url rnd w)
      end
  | InGet g => settle st url sem (get_resume url rnd r g w)
  | Finished _ => (w, sem, ph)
  end.

Definition set_ctl (c : control) (s : run_state) : run_state :=
  {| shared := shared s; ctl := c; sem := sem s; tasks := tasks s;
     uniq_tourneys := uniq_tourneys s; uniq_decks := uniq_decks s;
     earlier := earlier s |}.

Definition set_shared (w : world) (s : run_state) : run_state :=
  {| shared := w; ctl := ctl s; sem := sem s; tasks := tasks s;
     uniq_tourneys := uniq_tourneys s; uniq_decks := uniq_decks s;
     earlier := earlier s |}.

(** Lines 213-216, before the first line of the [async with] block. *)
Definition init : run_state :=
  {| shared := {| pacer := Pacer.init (RPS cfg); stop_evt := false; error_count := 0;
                  tourneys := []; deck_urls := []; matches := [];
                  stdout := []; requests := []; clock := 0 |};
     ctl := Start; sem := 0; tasks := [];
     uniq_tourneys := []; uniq_decks := []; earlier := [] |}.

(** Lines 219-240: the first [_get] and, when it returns, the launch of
    the listing stage. *)
Definition after_first (s : run_state) (r : world * get_result) : run_state :=
  match r with
  | (w, Suspended g) => set_ctl (FirstGet g) (set_shared w s)
  | (w, Returns first) =>
      let maxp := _max_page first in
      {| shared := w; ctl := Gathering Listing; sem := CONCURRENCY_PAGES cfg;
         tasks := spawn (pages lib maxp);
         uniq_tourneys := uniq_tourneys s; uniq_decks := uniq_decks s;
         earlier := earlier s |}
  | (w, Raises x) => set_ctl (Raised x) (set_shared w s)
  end.

(** The code after a [gather]: it raises what escaped a task, and goes on
    once every task has ended (lines 242-247, 265-270 and 304). *)
Definition join (st : stage) (s : run_state) : run_state :=
  if existsb escaped (tasks s) then set_ctl (Raised CancelledError) s
  else if forallb finished (tasks s) then
    let w := shared s in
    match st with
    | Listing =>
        let uniq := _dedupe_keep_order (tourneys w) in
        if stop_evt w then
          {| shared := w; ctl := Return 0 0 (matches w); sem := sem s; tasks := tasks s;
             uniq_tourneys := uniq; uniq_decks := uniq_decks s; earlier := earlier s |}
        else
          {| shared := w; ctl := Gathering Expanding; sem := CONCURRENCY_PAGES cfg;
             tasks := spawn uniq;
             uniq_tourneys := uniq; uniq_decks := uniq_decks s;
             earlier := earlier s ++ tasks s |}
    | Expanding =>
        let uniq := _dedupe_keep_order (deck_urls w) in
        if stop_evt w then
          {| shared := w;
             ctl := Return (length (uniq_tourneys s)) (length uniq) (matches w);
             sem := sem s; tasks := tasks s;
             uniq_tourneys := uniq_tourneys s; uniq_decks := uniq; earlier := earlier s |}
        else
          {| shared := w; ctl := Gathering Collecting; sem := CONCURRENCY_DECKS cfg;
             tasks := spawn uniq;
             uniq_tourneys := uniq_tourneys s; uniq_decks := uniq;
             earlier := earlier s ++ tasks s |}
    | Collecting =>
        set_ctl (Return (length (uniq_tourneys s)) (length (uniq_decks s)) (matches w)) s
    end
  else s.

(** One resumption.  The clock is monotonic. *)
Definition step (e : resumption) (s : run_state) : run_state :=
  let w := set_clock (Qmax (clock (shared s)) (at_time e)) (shared s) in
  match ctl s, who e with
  | Start, Main => after_first s (get_call LIST_URL (rnd e) w)
  | FirstGet g, Main => after_first s (get_resume LIST_URL (rnd e) (reply e) g w)
  | Gathering st, Main => join st (set_shared w s)
  | Gathering st, Task i =>
      match tasks s !! i with
      | Some (u, ph) =>
          let '(w', sem', ph') := task_step st u (rnd e) (reply e) ph w (sem s) in
          {| shared := w'; ctl := ctl s; sem := sem';
             tasks := <[i := (u, ph')]> (tasks s);
             uniq_tourneys := uniq_tourneys s; uniq_decks := uniq_decks s;
             earlier := earlier s |}
      | None => s
      end
  | _, _ => s
  end.

Fixpoint exec (es : list resumption) (s : run_state) : run_state :=
  match es with
  | [] => s
  | e :: es' => exec es' (step e s)
  end.

End Pipeline.

(** ** Collaborators for the runs evaluated below

    A plain reading of URLs and pages, enough to run the pipeline on small
    inputs: the library functions on URLs whose query needs no quoting, and
    parsers of pages that are words separated by spaces. *)

Module Example.

(** [s.split(c)]. *)
Fixpoint split_on (c : ascii) (s : string) : list string :=
  match s with
  | EmptyString => [EmptyString]
  | String x s' =>
      if Ascii.eqb x c then EmptyString :: split_on c s'
      else match split_on c s' with
           | h :: t => String x h :: t
           | [] => [String x EmptyString]
           end
  end.

(** [s.partition(c)], without the separator. *)
Fixpoint partition (c : ascii) (s : string) : string * string :=
  match s with
  | EmptyString => (EmptyString, EmptyString)
  | String x s' =>
      if Ascii.eqb x c then (EmptyString, s')
      else let '(a, b) := partition c s' in (String x a, b)
  end.

Fixpoint dict_add (q : qdict) (key value : string) : qdict :=
  match q with
  | [] => [(key, [value])]
  | (k, vs) :: rest =>
      if String.eqb k key then (k, vs ++ [value]) :: rest
      else (k, vs) :: dict_add rest key value
  end.

Definition plain_parse_qs (q : string) : qdict :=
  fold_left (fun d pair =>
               if String.eqb pair "" then d
               else let '(k, v) := partition "=" pair in dict_add d k v)
            (split_on "&" q) [].

Definition plain_urlencode (q : qdict) : string :=
  String.concat "&"
    (flat_map (fun kv => map (fun v => kv.1 +:+ "=" +:+ v) kv.2) q).

(** The scheme and the authority stay in front of the path. *)
Definition plain_urlparse (u : string) : ParseResult :=
  let '(before, frag) := partition "#" u in
  let '(p, q) := partition "?" before in
  {| scheme := ""; netloc := ""; path := p; params := ""; query := q; fragment := frag |}.

Definition plain_geturl (u : ParseResult) : string :=
  path u
  +:+ (if String.eqb (query u) "" then "" else "?" +:+ query u)
  +:+ (if String.eqb (fragment u) "" then "" else "#" +:+ fragment u).

Definition lib : urllib :=
  {| urlparse := plain_urlparse; parse_qs := plain_parse_qs;
     urlencode := plain_urlencode; geturl := plain_geturl |}.

(** The words of a page. *)
Definition words (html : string) : list string :=
  filter (fun w => w ≠ "") (split_on " " html).

(** A page of links lists them; a deck page lists the cards of the deck
    and then its points, wins, losses and ties. *)
Definition details_of (html : string) : Z * Z * Z * Z * bool :=
  match reverse (words html) with
  | t :: l :: w :: p :: _ =>
      (Py.int (Re.chars p), Py.int (Re.chars w), Py.int (Re.chars l),
       Py.int (Re.chars t), false)
  | _ => (0, 0, 0, 0, false)
  end.

Definition prs : parsers :=
  {| _extract_standings := fun html => Py.Ok (words html);
     _extract_decks := fun html => Py.Ok (words html);
     _deck_has_card := fun html needle => Py.Ok (bool_decide (needle ∈ words html));
     _extract_details := fun html => Py.Ok (details_of html);
     _extract_archetype := fun _ => Py.Ok "Other";
     _player_from_url := fun _ => Py.Ok "";
     strip_lower := fun card => card |}.

(** Resumptions with the draw 0, which gives no jitter sleep. *)
Definition main (t : Q) (r : response) : resumption :=
  {| who := Main; at_time := t; rnd := 0; reply := r |}.

Definition task (i : nat) (t : Q) (r : response) : resumption :=
  {| who := Task i; at_time := t; rnd := 0; reply := r |}.

(** A page with the pagination data [n]. *)
Definition page_with_max (n : string) : string :=
  "<ul class=" +:+ String Re.dq "pagination" +:+ String Re.dq " data-max="
  +:+ String Re.dq n +:+ String Re.dq ">".

Definition timeout : exception := OtherException "TimeoutError" "".

(** A run to the end: one listing page with one tournament, which has two
    decks; the first deck holds the card and has the record 3-1-0, the
    second does not hold it. *)
Definition full_run : list resumption :=
  [ main 0 (Body ""); main 1 (Body "");
    task 0 2 (Body ""); task 0 3 (Body "t1");
    main 4 (Body "");
    task 0 5 (Body ""); task 0 6 (Body "d1 d2");
    main 7 (Body "");
    task 0 8 (Body ""); task 1 8 (Body "");
    task 0 9 (Body "pikachu eevee 9 3 1 0");
    task 1 9 (Body "eevee 0 0 2 0");
    main 10 (Body "") ].

(** The first request fails. *)
Definition first_fails : list resumption :=
  [ main 0 (Body ""); main 1 (Fails (ClientResponseError 503 "Service Unavailable")) ].

(** One listing page, whose request times out. *)
Definition listing_fails : list resumption :=
  [ main 0 (Body ""); main 1 (Body "");
    task 0 2 (Body ""); task 0 3 (Fails timeout) ].

(** Thirteen listing pages.  Twelve tasks take the semaphore and start
    their requests, the thirteenth waits for it; the request of the first
    times out; the thirteenth is resumed, then [run]. *)
Definition late_task : list resumption :=
  [ main 0 (Body ""); main 1 (Body (page_with_max "13")) ]
  ++ map (fun i => task i 2 (Body "")) (seq 0 13)
  ++ [ task 0 3 (Fails timeout); task 12 3 (Body ""); main 3 (Body "") ].

(** A tournament page with [n] decks, [d0] to [d(n-1)]. *)
Definition decks_page (n : nat) : string :=
  String.concat " " (map (fun i => "d" +:+ Py.str (Z.of_nat i)) (seq 0 n)).

(** The run up to the launch of the collecting stage over 181 decks. *)
Definition to_collecting : list resumption :=
  [ main 0 (Body ""); main 1 (Body "");
    task 0 2 (Body ""); task 0 3 (Body "t1");
    main 4 (Body "");
    task 0 5 (Body ""); task 0 6 (Body (decks_page 181));
    main 7 (Body "") ].

(** 180 tasks take the semaphore and start their requests, the last one
    waits for it.  The first deck holds the card; the request of the
    second times out; the last task is resumed, then [run]. *)
Definition late_leaf : list resumption :=
  to_collecting
  ++ map (fun i => task i 8 (Body "")) (seq 0 181)
  ++ [ task 0 9 (Body "pikachu 9 3 1 0"); task 1 9 (Fails timeout);
       task 180 9 (Body ""); main 9 (Body "") ].

(** One deck, whose request times out. *)
Definition leaf_fails : list resumption :=
  [ main 0 (Body ""); main 1 (Body "");
    task 0 2 (Body ""); task 0 3 (Body "t1");
    main 4 (Body "");
    task 0 5 (Body ""); task 0 6 (Body "d1");
    main 7 (Body "");
    task 0 8 (Body ""); task 0 9 (Fails timeout) ].

(** The same configuration with the threshold 2. *)
Definition threshold_two : config :=
  {| RPS := 360; CONCURRENCY_PAGES := 12; CONCURRENCY_DECKS := 180;
     FAIL_ON := 2; JITTER_MAX_S := 5 # 1000 |}.

End Example.

(** * The vocabulary of the properties *)

(** ** De-duplication *)

(** The position of the first occurrence of [x] in [l]. *)
Definition first_index (x : string) (l : list string) : option nat :=
  fst <$> list_find (fun y => y = x) l.

(** ** The pacer *)

Module PacerInv.
Import Pacer.

(** What one pass of the loop body does to the pacer. *)
Inductive pass (now : Q) (p p' : FixedPacer) : phase → Prop :=
| pass_blocked :
    lock p = true → p' = p → pass now p p' Entering
| pass_admitted ph :
    lock p = false →
    Z.of_nat (length (evict now (starts p))) < Z.pos (rps p) →
    rps p' = rps p →
    starts p' = evict now (starts p) ++ [now] →
    total_started p' = total_started p + 1 →
    (ph = Returned ∧ lock p' = false ∨ (∃ u, ph = Jittering u) ∧ lock p' = true) →
    pass now p p' ph
| pass_rejected ph :
    lock p = false →
    Z.pos (rps p) <= Z.of_nat (length (evict now (starts p))) →
    rps p' = rps p →
    starts p' = evict now (starts p) →
    total_started p' = total_started p →
    lock p' = false →
    ((∃ u, ph = BackingOff u) ∨ ph = IndexError) →
    pass now p p' ph.

(** What a resumption of a caller does to the pacer. *)
Inductive moved (now : Q) (p p' : FixedPacer) : phase → phase → Prop :=
| moved_pass ph ph' :
    (ph = Entering ∨ ∃ u, ph = BackingOff u) → pass now p p' ph' → moved now p p' ph ph'
| moved_woken u :
    p' = set_lock false p → moved now p p' (Jittering u) Returned
| moved_not ph :
    p' = p → ph ≠ Entering → moved now p p' ph ph.

(** The window [starts] holds every admission that is less than one
    second old, and never more than [rps] of them. *)
Record rate_inv (s : system) : Prop := {
  ri_split : ∃ old, admissions s = old ++ starts (pacer s)
                    ∧ Forall (fun t => (t + 1 <= clock s)%Q) old;
  ri_len : Z.of_nat (length (starts (pacer s))) <= Z.pos (rps (pacer s));
  ri_count : Z.of_nat (length (admissions s)) = total_started (pacer s);
  ri_bound : ∀ T, Z.of_nat (admitted_in_window T (admissions s))
                  <= Z.pos (rps (pacer s))
}.

(** The lock is held exactly while one caller sleeps its jitter. *)
Definition lock_inv (s : system) : Prop :=
  if lock (pacer s)
  then ∃ i u, callers s !! i = Some (Jittering u)
              ∧ ∀ j ph, callers s !! j = Some ph → j ≠ i → jittering ph = false
  else ∀ j ph, callers s !! j = Some ph → jittering ph = false.

End PacerInv.

(** The jitter sleep is performed without the lock: a caller asleep in its
    jitter does not hold it. *)
Definition jitter_sleep_outside_lock : Prop :=
  ∀ (jm : Q) (rps0 : Z) (n : nat) (es : list Pacer.event) (i : nat) (u : Q),
    let s := Pacer.run jm es (Pacer.start rps0 n) in
    Pacer.callers s !! i = Some (Pacer.Jittering u) →
    Pacer.lock (Pacer.pacer s) = false.

(** Two callers under the constants of the source.  The first is resumed at
    time 0 with the draw 3/4: it is admitted and sleeps a jitter of 2.5 ms.
    The second is resumed 1 ms later. *)
Definition jitter_schedule : list Pacer.event :=
  [ {| Pacer.who := 0; Pacer.at_time := 0; Pacer.rnd := 3 # 4 |} ].

Definition second_caller : Pacer.event :=
  {| Pacer.who := 1; Pacer.at_time := 1 # 1000; Pacer.rnd := 0 |}.

(** ** The page count *)

(** What [RE_DATA_MAX] describes: the text [s] starts with the opening of a
    [ul] tag, has the class attribute pagination and then the attribute
    data-max with the digits [g] as its quoted value, with no [>] in
    between, letters in either case. *)
Definition data_max_at (s g : list ascii) : Prop :=
  ∃ l1 a1 l2 a2 l3 q rest,
    s = l1 ++ a1 ++ l2 ++ a2 ++ l3 ++ g ++ q ++ rest ∧
    map Py.lower l1 = Re.ul_open ∧
    forallb Re.not_gt a1 = true ∧
    map Py.lower l2 = Re.class_pagination ∧
    forallb Re.not_gt a2 = true ∧
    map Py.lower l3 = Re.data_max_eq ∧
    g ≠ [] ∧ forallb Py.is_digit g = true ∧
    map Py.lower q = [Re.dq].

(** The page has pagination data with the digits [g]. *)
Definition has_data_max (html : string) (g : list ascii) : Prop :=
  ∃ pre s, Re.chars html = pre ++ s ∧ data_max_at s g.

(** A page that reports [N] pages gives the listing stage exactly [N]
    URLs. *)
Definition listing_input_has_N_urls : Prop :=
  ∀ (lib : urllib) (html : string),
    Z.of_nat (length (pages lib (_max_page html))) = _max_page html.

(** ** The pipeline *)

Section PipelineInv.
Variable cfg : config.
Variable lib : urllib.
Variable prs : parsers.
Variable card : string.

(** What resuming a call of [_get] can do to the shared objects. *)
Record get_effect (u : string) (w w' : world) : Prop := {
  ge_error_count : error_count w' = error_count w;
  ge_matches : matches w' = matches w;
  ge_tourneys : tourneys w' = tourneys w;
  ge_deck_urls : deck_urls w' = deck_urls w;
  ge_clock : clock w' = clock w;
  ge_stop : stop_evt w = true → stop_evt w' = true;
  ge_stdout : stdout w' = stdout w ∧ (stop_evt w' = stop_evt w)
              ∨ stop_evt w = false ∧ stop_evt w' = true
                ∧ ∃ e, stdout w' = stdout w ++ fail_fast_lines u e;
  ge_requests : requests w' = requests w ∨ requests w' = requests w ++ [u]
}.

Definition caught_phase (ph : task_phase) : bool :=
  match ph with Finished (Caught _) => true | _ => false end.

(** What resuming a task can do to the shared objects. *)
Record task_effect (st : stage) (u : string) (ph ph' : task_phase) (w w' : world)
    : Prop := {
  te_clock : clock w' = clock w;
  te_stop : stop_evt w = true → stop_evt w' = true;
  te_stdout : stdout w' = stdout w
              ∨ stop_evt w = false ∧ stop_evt w' = true
                ∧ ∃ e, stdout w' = stdout w ++ fail_fast_lines u e;
  te_requests : requests w' = requests w ∨ requests w' = requests w ++ [u];
  te_count : error_count w' = error_count w
             + (if caught_phase ph' && negb (caught_phase ph) then 1 else 0);
  te_threshold : error_count w' = error_count w
                 ∨ ((st ≠ Collecting ∨ FAIL_ON cfg <= error_count w') →
                    stop_evt w' = true);
  te_matches : matches w' = matches w
               ∨ st = Collecting
                 ∧ ∃ html rcd, make_record prs u html = Py.Ok rcd
                               ∧ matches w' = matches w ++ [rcd];
  te_finished : ∀ o, ph = Finished o → w' = w ∧ ph' = ph
}.

(** The four things a resumption can be. *)
Inductive stepped (e : resumption) (s : run_state) : run_state → Prop :=
| stepped_idle : stepped e s s
| stepped_first w res :
    who e = Main → (ctl s = Start ∨ ∃ g, ctl s = FirstGet g) →
    get_effect LIST_URL (set_clock (Qmax (clock (shared s)) (at_time e)) (shared s)) w →
    stepped e s (after_first cfg lib s (w, res))
| stepped_join st :
    who e = Main → ctl s = Gathering st →
    stepped e s
      (join cfg st (set_shared (set_clock (Qmax (clock (shared s)) (at_time e)) (shared s)) s))
| stepped_task st i u ph w' sem' ph' :
    who e = Task i → ctl s = Gathering st → tasks s !! i = Some (u, ph) →
    task_step cfg prs card st u (rnd e) (reply e) ph
      (set_clock (Qmax (clock (shared s)) (at_time e)) (shared s)) (sem s)
    = (w', sem', ph') →
    task_effect st u ph ph'
      (set_clock (Qmax (clock (shared s)) (at_time e)) (shared s)) w' →
    stepped e s
      {| shared := w'; ctl := ctl s; sem := sem';
         tasks := <[i := (u, ph')]> (tasks s);
         uniq_tourneys := uniq_tourneys s; uniq_decks := uniq_decks s;
         earlier := earlier s |}.

(** A run that has returned or raised does nothing more. *)
Definition over (s : run_state) : Prop :=
  match ctl s with Return _ _ _ | Raised _ => True | _ => False end.

(** No record is appended before the collecting stage. *)
Definition no_match_yet (s : run_state) : Prop :=
  match ctl s with
  | Start | FirstGet _ | Gathering Listing | Gathering Expanding =>
      matches (shared s) = []
  | _ => True
  end.

(** The fail-fast lines are printed at most once, by the failure that
    sets the signal. *)
Definition announced_once (s : run_state) : Prop :=
  (stop_evt (shared s) = false → stdout (shared s) = []) ∧
  (stdout (shared s) = [] ∨ ∃ u e, stdout (shared s) = fail_fast_lines u e).

(** The number of tasks whose handler ran. *)
Definition ncaught (l : list task) : Z :=
  Z.of_nat (length (filter (fun t => caught t = true) l)).

(** Each caught failure is counted once, and nothing else is counted. *)
Definition counted (s : run_state) : Prop :=
  error_count (shared s) = ncaught (earlier s ++ tasks s) ∧
  ((ctl s = Start ∨ ∃ g, ctl s = FirstGet g) → tasks s = [] ∧ earlier s = []).

(** The signal is set once the count has reached the threshold, and by
    any counted failure of the first two stages. *)
Definition threshold_kept (s : run_state) : Prop :=
  (1 <= error_count (shared s) → FAIL_ON cfg <= error_count (shared s) →
   stop_evt (shared s) = true) ∧
  (ctl s = Gathering Listing ∨ ctl s = Gathering Expanding →
   1 <= error_count (shared s) → stop_evt (shared s) = true).

(** What lines 280-292 guarantee of a record. *)
Definition guarded_record (r : deck_record) : Prop :=
  win_rate_of (wins r) (losses r) = Py.Ok (win_rate r) ∧
  played r = wins r + losses r + ties r.

Definition records_guarded (s : run_state) : Prop :=
  Forall guarded_record (matches (shared s)).

(** All of the above, in every state a run reaches. *)
Record reachable_inv (s : run_state) : Prop := {
  reach_no_match : no_match_yet s;
  reach_announced : announced_once s;
  reach_counted : counted s;
  reach_threshold : threshold_kept s;
  reach_records : records_guarded s
}.

(** The listing stage has finished: every listing task has ended and the
    [gather] of lines 237-240 has nothing to raise. *)
Definition listing_finished (s : run_state) : Prop :=
  ctl s = Gathering Listing ∧
  forallb finished (tasks s) = true ∧
  existsb escaped (tasks s) = false.

End PipelineInv.

(** The signal is set exactly when the count has reached the threshold. *)
Definition signal_iff_threshold : Prop :=
  ∀ (cfg : config) (lib : urllib) (prs : parsers) (card : string) (es : list resumption),
    stop_evt (shared (exec cfg lib prs card es (init cfg))) = true
    ↔ FAIL_ON cfg <= error_count (shared (exec cfg lib prs card es (init cfg))).

(** What a run has come to: where [run] is, the signal, and the sizes of
    [matches] and of the list of distinct decks. *)
Definition outcome (s : run_state) : control * bool * nat * nat :=
  (ctl s, stop_evt (shared s), length (matches (shared s)), length (uniq_decks s)).

(** ** More vocabulary for the pacer *)

Definition b2n (b : bool) : nat := if b then 1%nat else 0%nat.

Module PacerMore.
Import Pacer.

(** A caller that has passed line 87. *)
Definition admitted (ph : phase) : bool :=
  match ph with Jittering _ | Returned => true | _ => false end.

(** A list of clock readings in the order they were taken. *)
Fixpoint ascending (l : list Q) : Prop :=
  match l with
  | [] => True
  | t :: rest => Forall (fun t' => (t <= t')%Q) rest ∧ ascending rest
  end.

(** An entry that line 84 keeps at the reading [now]. *)
Definition fresh (now t : Q) : Prop := Qle_bool 1 (now - t) = false.

#[global] Instance fresh_dec (now t : Q) : Decision (fresh now t).
Proof. unfold fresh. apply _. Defined.

(** The window is in clock order and holds no reading of the future;
    the callers that have been admitted are those counted; no caller has
    indexed an empty window. *)
Record window_inv (s : system) : Prop := {
  wi_ascending : ascending (starts (pacer s));
  wi_past : Forall (fun t => (t <= clock s)%Q) (starts (pacer s));
  wi_admitted : Z.of_nat (length (filter (fun ph => admitted ph = true) (callers s)))
                = total_started (pacer s);
  wi_no_index_error : Forall (fun ph => ph ≠ IndexError) (callers s)
}.

End PacerMore.

(** ** More vocabulary for the pipeline *)

(** The tasks with a given kind of phase. *)
Definition count_phase (f : task_phase → bool) (l : list task) : nat :=
  length (filter (fun t => f t.2 = true) l).

(** A task inside its [async with sem] block holds one unit of the
    semaphore. *)
Definition holding (ph : task_phase) : bool :=
  match ph with InGet _ => true | _ => false end.

(** A task whose request has been started. *)
Definition requested (ph : task_phase) : bool :=
  match ph with
  | InGet Reading | Finished Succeeded | Finished (Caught _) => true
  | _ => false
  end.

(** The value the semaphore of a stage is created with (lines 224, 247
    and 270). *)
Definition cap (cfg : config) (st : stage) : nat :=
  match st with
  | Collecting => CONCURRENCY_DECKS cfg
  | _ => CONCURRENCY_PAGES cfg
  end.

(** Whether [run] has started its own request (line 219). *)
Definition main_requested (c : control) : bool :=
  match c with
  | Start | FirstGet (Acquiring _) => false
  | _ => true
  end.

(** What resuming a task does to the semaphore, the requests, the lists of
    links and the signal. *)
Record task_more (st : stage) (ph ph' : task_phase) (sem sem' : nat) (w w' : world)
    : Prop := {
  tm_sem : (sem' + b2n (holding ph') = sem + b2n (holding ph))%nat;
  tm_requests : (length (requests w') + b2n (requested ph)
                 = length (requests w) + b2n (requested ph'))%nat
                ∨ (requests w' = requests w ∧ requested ph = false);
  tm_tourneys : st ≠ Listing → tourneys w' = tourneys w;
  tm_deck_urls : st ≠ Expanding → deck_urls w' = deck_urls w;
  tm_signal : stop_evt w' = stop_evt w ∨ error_count w' = error_count w + 1
}.

(** The semaphore of the running stage is conserved. *)
Definition sem_conserved (cfg : config) (s : run_state) : Prop :=
  ∀ st, ctl s = Gathering st →
        (sem s + count_phase holding (tasks s) = cap cfg st)%nat.

(** A task that has reached the end of its [try] block. *)
Definition succeeded (ph : task_phase) : bool :=
  match ph with Finished Succeeded => true | _ => false end.

(** The URLs of the tasks with a given kind of phase. *)
Definition urls_of (f : task_phase → bool) (l : list task) : list string :=
  (filter (fun t => f t.2 = true) l).*1.

(** The URLs of the tasks that have made their request. *)
Definition owner_urls (l : list task) : list string := urls_of requested l.

(** Each request is the first one or that of a task, for the URL of the
    task, and no task makes two. *)
Definition requests_owned (s : run_state) : Prop :=
  requests (shared s)
  ⊆+ (if main_requested (ctl s) then [LIST_URL] else []) ++ owner_urls (earlier s ++ tasks s).

(** The stages run over the de-duplicated lists, and [run] returns their
    sizes with the records, or (0, 0, []) after a failed listing. *)
Definition lists_kept (s : run_state) : Prop :=
  match ctl s with
  | Gathering Listing => True
  | Gathering Expanding =>
      uniq_tourneys s = _dedupe_keep_order (tourneys (shared s)) ∧
      (tasks s).*1 = uniq_tourneys s
  | Gathering Collecting =>
      uniq_tourneys s = _dedupe_keep_order (tourneys (shared s)) ∧
      uniq_decks s = _dedupe_keep_order (deck_urls (shared s)) ∧
      (tasks s).*1 = uniq_decks s
  | Return t d r =>
      r = matches (shared s) ∧
      (t = 0%nat ∧ d = 0%nat ∧ r = [] ∧ stop_evt (shared s) = true
       ∨ t = length (_dedupe_keep_order (tourneys (shared s))) ∧
         d = length (_dedupe_keep_order (deck_urls (shared s))))
  | _ => True
  end.

(** The signal is set by a failure only: by the first request, which
    [run] raises, or by a request or a page that a handler has counted. *)
Definition signal_is_count (s : run_state) : Prop :=
  match ctl s with
  | Raised (Exc _) => True
  | _ => stop_evt (shared s) = true → 1 <= error_count (shared s)
  end.

(** Each record is that of a task of the collecting stage which has ended
    without a failure, for the URL of the task, and no task appends two;
    the tasks of that stage are the distinct decks. *)
Definition records_owned (s : run_state) : Prop :=
  url <$> matches (shared s) ⊆+ urls_of succeeded (tasks s) ∧
  (matches (shared s) = []
   ∨ (tasks s).*1 = uniq_decks s
     ∧ uniq_decks s = _dedupe_keep_order (deck_urls (shared s))).

(** A caller of [acquire] that is still inside the call. *)
Definition waiting (a : Pacer.phase) : bool :=
  match a with
  | Pacer.Entering | Pacer.Jittering _ | Pacer.BackingOff _ => true
  | _ => false
  end.

(** A call of [_get] whose caller sleeps the jitter of line 92: it has
    been admitted and has not started its request. *)
Definition asleep_get (g : get_phase) : bool :=
  match g with Acquiring (Pacer.Jittering _) => true | _ => false end.

Definition valid_get (g : get_phase) : bool :=
  match g with Acquiring a => waiting a | Reading => true end.

Definition asleep (ph : task_phase) : bool :=
  match ph with InGet g => asleep_get g | _ => false end.

Definition valid_phase (ph : task_phase) : bool :=
  match ph with InGet g => valid_get g | _ => true end.

Definition main_asleep (c : control) : bool :=
  match c with FirstGet g => asleep_get g | _ => false end.

Definition main_valid (c : control) : bool :=
  match c with FirstGet g => valid_get g | _ => true end.

Definition result_asleep (r : get_result) : bool :=
  match r with Suspended g => asleep_get g | _ => false end.

Definition result_valid (r : get_result) : bool :=
  match r with Suspended g => valid_get g | _ => true end.

(** Each admission by the pacer is that of a request made or of a caller
    asleep in its jitter. *)
Definition admissions_accounted (s : run_state) : Prop :=
  Pacer.total_started (pacer (shared s))
  = Z.of_nat (length (requests (shared s)) + b2n (main_asleep (ctl s))
              + count_phase asleep (earlier s ++ tasks s)) ∧
  main_valid (ctl s) = true ∧
  Forall (fun t => valid_phase t.2 = true) (tasks s).
(** ** Text: [str] methods, file names and the link scrapers *)

Module PyStr.

Definition code (c : ascii) : Z := Z.of_N (N_of_ascii c).

(** [str.isspace] on a character below U+0100. *)
Definition isspace (c : ascii) : bool :=
  ((9 <=? code c) && (code c <=? 13)) || ((28 <=? code c) && (code c <=? 32))
  || (code c =? 133) || (code c =? 160).

(** [str.lower] on a character below U+0100: the letters A-Z and the
    capital letters of U+00C0-U+00DE, the sign U+00D7 apart. *)
Definition lower_char (c : ascii) : ascii :=
  if ((65 <=? code c) && (code c <=? 90))
     || ((192 <=? code c) && (code c <=? 222) && negb (code c =? 215))
  then ascii_of_N (N_of_ascii c + 32) else c.

Definition lower (s : list ascii) : list ascii := map lower_char s.

Fixpoint lstrip (s : list ascii) : list ascii :=
  match s with
  | c :: s' => if isspace c then lstrip s' else s
  | [] => []
  end.

Definition rstrip (s : list ascii) : list ascii := reverse (lstrip (reverse s)).

(** [str.strip()]. *)
Definition strip (s : list ascii) : list ascii := rstrip (lstrip s).

End PyStr.

(** The class [[a-z0-9._-]] of line 63. *)
Definition safe_char (c : ascii) : bool :=
  ((97 <=? PyStr.code c) && (PyStr.code c <=? 122))
  || ((48 <=? PyStr.code c) && (PyStr.code c <=? 57))
  || (PyStr.code c =? 46) || (PyStr.code c =? 95) || (PyStr.code c =? 45).

(** [re.sub(r"[^a-z0-9._-]+", "_", s)]: each maximal run of characters
    outside the class becomes one underscore; [in_run] tells that the
    previous character was outside the class. *)
Fixpoint sub_unsafe (in_run : bool) (s : list ascii) : list ascii :=
  match s with
  | [] => []
  | c :: s' =>
      if safe_char c then c :: sub_unsafe false s'
      else if in_run then sub_unsafe true s'
      else "_"%char :: sub_unsafe true s'
  end.

(** Lines 61-64, on the characters of the name. *)
Definition safe_filename_chars (name : list ascii) : list ascii :=
  let s := PyStr.lower (PyStr.strip name) in
  let s := sub_unsafe false s in
  match s with
  | [] => Re.chars "results"
  | _ => s
  end.

Definition _safe_filename (name : string) : string :=
  string_of_list_ascii (safe_filename_chars (Re.chars name)).

(** The link scrapers of lines 119-133.  The two patterns are compiled with
    [re.I]; [finditer] yields the matches from left to right, each search
    starting where the previous match ended.  Neither pattern matches the
    empty string. *)
Module Scraper.
Import Re.

Definition not_quote_slash (c : ascii) : bool :=
  negb (Ascii.eqb c dq) && negb (Ascii.eqb c "/").

Definition href_eq : list ascii := chars "href=" ++ [dq].
Definition tournament_ : list ascii := chars "/tournament/".
Definition standings_ : list ascii := chars "/standings".
Definition player_ : list ascii := chars "/player/".
Definition decklist_ : list ascii := chars "/decklist".

(** The text of the subject between two of its positions, each given by
    what follows it. *)
Definition consumed (from to : list ascii) : list ascii :=
  take (length from - length to) from.

(** [RE_TOURNEY_STANDINGS] at one position: group 1 and the rest of the
    text after the match. *)
Definition RE_TOURNEY_STANDINGS_at (s : list ascii)
    : option (list ascii * list ascii) :=
  lit href_eq s (fun s1 =>
  lit tournament_ s1 (fun s2 =>
  plus_group not_quote_slash [] s2 (fun _ s3 =>
  lit standings_ s3 (fun s4 =>
  lit [dq] s4 (fun s5 => Some (consumed s1 s4, s5)))))).

(** [RE_DECKLIST] at one position. *)
Definition RE_DECKLIST_at (s : list ascii) : option (list ascii * list ascii) :=
  lit href_eq s (fun s1 =>
  lit tournament_ s1 (fun s2 =>
  plus_group not_quote_slash [] s2 (fun _ s3 =>
  lit player_ s3 (fun s4 =>
  plus_group not_quote_slash [] s4 (fun _ s5 =>
  lit decklist_ s5 (fun s6 =>
  lit [dq] s6 (fun s7 => Some (consumed s1 s6, s7)))))))).

(** [finditer]: group 1 of each match; [skip] counts the characters of
    the last match that are still ahead. *)
Fixpoint finditer_from (at_pos : list ascii → option (list ascii * list ascii))
    (skip : nat) (s : list ascii) : list (list ascii) :=
  match s with
  | [] => []
  | _ :: s' =>
      match skip with
      | S k => finditer_from at_pos k s'
      | O =>
          match at_pos s with
          | Some (g, rest) =>
              g :: finditer_from at_pos (length s - length rest - 1) s'
          | None => finditer_from at_pos 0 s'
          end
      end
  end.

Definition finditer (at_pos : list ascii → option (list ascii * list ascii))
    (html : string) : list (list ascii) :=
  finditer_from at_pos 0 (chars html).

Definition absolute (g : list ascii) : string := BASE +:+ string_of_list_ascii g.

(** Lines 119-125. *)
Definition _extract_standings (html : string) : list string :=
  dedupe_loop (map absolute (finditer RE_TOURNEY_STANDINGS_at html)) ∅ [].

(** Lines 127-133. *)
Definition _extract_decks (html : string) : list string :=
  dedupe_loop (map absolute (finditer RE_DECKLIST_at html)) ∅ [].

(** A path of the form the first pattern captures, letters in either
    case. *)
Definition standings_path (p : list ascii) : Prop :=
  ∃ l1 g l2,
    p = l1 ++ g ++ l2 ∧ map Py.lower l1 = tournament_ ∧
    g ≠ [] ∧ forallb not_quote_slash g = true ∧ map Py.lower l2 = standings_.

Definition decklist_path (p : list ascii) : Prop :=
  ∃ l1 g1 l2 g2 l3,
    p = l1 ++ g1 ++ l2 ++ g2 ++ l3 ∧ map Py.lower l1 = tournament_ ∧
    g1 ≠ [] ∧ forallb not_quote_slash g1 = true ∧ map Py.lower l2 = player_ ∧
    g2 ≠ [] ∧ forallb not_quote_slash g2 = true ∧ map Py.lower l3 = decklist_.

(** What the two forms have in common: the path holds no quote and its
    last character is not the equals sign. *)
Definition link_path (p : list ascii) : Prop :=
  (dq ∉ p) ∧ ∃ p0 c, p = p0 ++ [c] ∧ Py.lower c ≠ "="%char.

(** The page links to the path [p]: it holds [href=], in either case, the
    path between double quotes. *)
Definition linked (html : string) (p : list ascii) : Prop :=
  ∃ pre h post,
    chars html = pre ++ h ++ p ++ [dq] ++ post ∧ map Py.lower h = href_eq.

End Scraper.

(** The parsers of a run with the two link scrapers of the source in
    place. *)
Definition with_scrapers (prs : parsers) : parsers :=
  {| _extract_standings := fun html => Py.Ok (Scraper._extract_standings html);
     _extract_decks := fun html => Py.Ok (Scraper._extract_decks html);
     _deck_has_card := _deck_has_card prs;
     _extract_details := _extract_details prs;
     _extract_archetype := _extract_archetype prs;
     _player_from_url := _player_from_url prs;
     strip_lower := strip_lower prs |}.

(** The absolute URLs of the two forms. *)
Definition standings_url (u : string) : Prop :=
  ∃ p, u = Scraper.absolute p ∧ Scraper.standings_path p.

Definition decklist_url (u : string) : Prop :=
  ∃ p, u = Scraper.absolute p ∧ Scraper.decklist_path p.

(** The lists of links hold links of their form only. *)
Definition links_scraped (s : run_state) : Prop :=
  Forall standings_url (tourneys (shared s)) ∧ Forall decklist_url (deck_urls (shared s)).

(** ** The report: the elapsed time and the grouping of the records *)

(** [round(x)] of a float: the nearest integer, a tie going to the even
    one. *)
Definition py_round (q : Q) : Z :=
  let f := Qfloor q in
  match (q - inject_Z f ?= 1 # 2)%Q with
  | Lt => f
  | Gt => f + 1
  | Eq => if Z.even f then f else f + 1
  end.

(** [f"{n:02d}"]. *)
Definition pad2 (n : Z) : string :=
  let s := Py.str n in
  if (String.length s <? 2)%nat then "0" +:+ s else s.

(** [f"{x:.2f}"]: the sign, then the magnitude rounded to hundredths, a tie
    going to the even digit. *)
Definition fixed2 (x : Q) : string :=
  let neg := Pacer.Qlt_bool x 0 in
  let d := py_round ((if neg then - x else x) * 100)%Q in
  (if neg then "-" else "") +:+ Py.str (d / 100) +:+ "." +:+ pad2 (d mod 100).

(** Lines 309-310: the minutes and the seconds of the second form. *)
Definition elapsed_parts (seconds : Q) : Z * Z :=
  let mins := Qfloor (seconds / 60)%Q in
  let secs := py_round (seconds - inject_Z (mins * 60))%Q in
  (mins, secs).

(** Lines 306-311, on the exact value of the float: for a time below 2^53
    seconds the floor division and the subtraction of lines 309-310 are
    exact. *)
Definition _format_elapsed (seconds : Q) : string :=
  if Pacer.Qlt_bool seconds 60 then fixed2 seconds +:+ "s"
  else Py.str (elapsed_parts seconds).1 +:+ ":" +:+ pad2 (elapsed_parts seconds).2.

(** Line 314: the records the report shows, and those line 439 counts.
    The win rates are the exact quotients, which the floats order alike
    against 0.40 for fewer than 2^50 decided games. *)
Definition shown (matches : list deck_record) : list deck_record :=
  filter (fun m => Qle_bool (2 # 5) (win_rate m) = true) matches.

(** The dictionary [groups], its keys in insertion order. *)
Definition groups_t : Type := list (string * list deck_record).

(** [groups.setdefault(k, []).append(m)]. *)
Fixpoint setdefault_append (k : string) (m : deck_record) (groups : groups_t)
    : groups_t :=
  match groups with
  | [] => [(k, [m])]
  | (k', l) :: rest =>
      if decide (k' = k) then (k', l ++ [m]) :: rest
      else (k', l) :: setdefault_append k m rest
  end.

(** Lines 316-317. *)
Fixpoint group_loop (ms : list deck_record) (groups : groups_t) : groups_t :=
  match ms with
  | [] => groups
  | m :: rest => group_loop rest (setdefault_append (archetype m) m groups)
  end.

(** The order of the tuples [(win_rate, points, played)]. *)
Definition key_compare (a b : deck_record) : comparison :=
  match (win_rate a ?= win_rate b)%Q with
  | Eq => match points a ?= points b with
          | Eq => played a ?= played b
          | c => c
          end
  | c => c
  end.

Definition key_ge (a b : deck_record) : bool :=
  match key_compare a b with Lt => false | _ => true end.

(** [list.sort(key=..., reverse=True)]: the sort is stable, so a record
    goes behind those of an equal key that came before it. *)
Fixpoint insert_desc (x : deck_record) (l : list deck_record) : list deck_record :=
  match l with
  | [] => [x]
  | y :: l' => if key_ge y x then y :: insert_desc x l' else x :: l
  end.

Fixpoint sort_loop (l acc : list deck_record) : list deck_record :=
  match l with
  | [] => acc
  | x :: l' => sort_loop l' (insert_desc x acc)
  end.

Definition sort_reverse (l : list deck_record) : list deck_record := sort_loop l [].

(** Lines 314-319: [groups] after the loop that sorts each list. *)
Definition groups_of (matches : list deck_record) : groups_t :=
  map (fun g => (g.1, sort_reverse g.2)) (group_loop (shown matches) []).

(** Line 322. *)
Definition total (matches : list deck_record) : nat :=
  sum_list (map (fun g => length g.2) (groups_of matches)).

(** [sorted(groups.keys())]: strings compare by code points. *)
Fixpoint insert_key (k : string) (l : list string) : list string :=
  match l with
  | [] => [k]
  | k' :: l' => if String.leb k k' then k :: l else k' :: insert_key k l'
  end.

Definition sorted_keys (l : list string) : list string := foldr insert_key [] l.

(** [groups[arch]], for a key of the dictionary. *)
Fixpoint getitem (k : string) (groups : groups_t) : list deck_record :=
  match groups with
  | [] => []
  | (k', l) :: rest => if decide (k' = k) then l else getitem k rest
  end.

(** Lines 378-386: the groups in the order the report lists them, each
    with its rows. *)
Definition report (matches : list deck_record) : groups_t :=
  map (fun arch => (arch, getitem arch (groups_of matches)))
      (sorted_keys (map fst (groups_of matches))).

(** Each element stands in the relation to the next one. *)
Fixpoint chain {A : Type} (R : A → A → Prop) (l : list A) : Prop :=
  match l with
  | x :: (y :: _) as l' => R x y ∧ chain R l'
  | _ => True
  end.

(** A group of the dictionary: it is not empty and holds records of its
    archetype. *)
Definition group_ok (g : string * list deck_record) : Prop :=
  g.2 ≠ [] ∧ Forall (fun m => archetype m = g.1) g.2.

(** The order of the sort keys, and the records of the key of [x]. *)
Definition key_le (a b : deck_record) : Prop :=
  (win_rate a < win_rate b)%Q
  ∨ (win_rate a == win_rate b)%Q
    ∧ (points a < points b ∨ points a = points b ∧ played a <= played b).

Definition same_key (x m : deck_record) : Prop := key_compare m x = Eq.

#[global] Instance same_key_dec (x m : deck_record) : Decision (same_key x m).
Proof. unfold same_key. apply _. Defined.

(** ** The card test of lines 135-167 *)

Module Card.
Import Re.

(** [needle in text]. *)
Fixpoint startswith (p s : list ascii) : bool :=
  match p, s with
  | [], _ => true
  | a :: p', b :: s' => Ascii.eqb a b && startswith p' s'
  | _ :: _, [] => false
  end.

Fixpoint contains (needle hay : list ascii) : bool :=
  startswith needle hay
  || match hay with
     | [] => false
     | _ :: hay' => contains needle hay'
     end.

Section Matcher.
Context {R : Type}.

(** A literal, compared as it stands. *)
Fixpoint lit_exact (pat : list ascii) (s : list ascii)
    (k : list ascii → option R) : option R :=
  match pat with
  | [] => k s
  | p :: pat' =>
      match s with
      | c :: s' => if Ascii.eqb c p then lit_exact pat' s' k else None
      | [] => None
      end
  end.
End Matcher.

(** A lazy group that runs to the next occurrence of [stop], with [re.S]:
    the group, and the text after [stop]. *)
Fixpoint lazy_until (stop : ascii) (acc s : list ascii)
    : option (list ascii * list ascii) :=
  match s with
  | [] => None
  | c :: s' =>
      if Ascii.eqb c stop then Some (acc, s') else lazy_until stop (acc ++ [c]) s'
  end.

Definition backtick : ascii := ascii_of_nat 96.

(** [RE_JS_DECKBLOCK] at one position: group 1. *)
Definition RE_JS_DECKBLOCK_at (s : list ascii) : option (list ascii) :=
  lit_exact (chars "const") s (fun s1 =>
  plus_group PyStr.isspace [] s1 (fun _ s2 =>
  lit_exact (chars "decklist") s2 (fun s3 =>
  star PyStr.isspace s3 (fun s4 =>
  lit_exact (chars "=") s4 (fun s5 =>
  star PyStr.isspace s5 (fun s6 =>
  lit_exact [backtick] s6 (fun s7 =>
  option_map fst (lazy_until backtick [] s7)))))))).

(** Lines 145-149. *)
Definition _has_card_from_js_block (html needle : list ascii) : bool :=
  match search RE_JS_DECKBLOCK_at html with
  | None => false
  | Some g => contains needle (PyStr.lower g)
  end.

(** The longest run without [>] and what follows it. *)
Fixpoint span_not_gt (s : list ascii) : list ascii * list ascii :=
  match s with
  | c :: s' =>
      if not_gt c then let '(a, rest) := span_not_gt s' in (c :: a, rest)
      else ([], s)
  | [] => ([], [])
  end.

(** [re.sub(r"<[^>]+>", " ", s)]; [skip] counts the characters of the
    last tag that are still ahead. *)
Fixpoint sub_tags_from (skip : nat) (s : list ascii) : list ascii :=
  match s with
  | [] => []
  | c :: s' =>
      match skip with
      | S k => sub_tags_from k s'
      | O =>
          if Ascii.eqb c "<" then
            match span_not_gt s' with
            | ((_ :: _) as body, _ :: _) =>
                " "%char :: sub_tags_from (length body + 1) s'
            | _ => c :: sub_tags_from 0 s'
            end
          else c :: sub_tags_from 0 s'
      end
  end.

Definition sub_tags (s : list ascii) : list ascii := sub_tags_from 0 s.

(** What the other two tests take from the libraries: [html.unescape],
    and the results of the searches with the patterns of lines 41-45. *)
Record html_lib := {
  unescape : list ascii → list ascii;
  RE_INPUT_VALUE_search : list ascii → option (list ascii);
  NAME_FIELD_RE_findall : list ascii → list (list ascii);
  RE_DECKLIST_BLOCK_search : list ascii → option (list ascii);
  RE_ANCHOR_TEXT_findall : list ascii → list (list ascii)
}.

Section Tests.
Variable lib : html_lib.

(** Lines 135-143. *)
Definition _has_card_from_hidden_json (html needle : list ascii) : bool :=
  match RE_INPUT_VALUE_search lib html with
  | None => false
  | Some g =>
      let raw := unescape lib g in
      existsb (fun name => contains needle (PyStr.lower name))
              (NAME_FIELD_RE_findall lib raw)
  end.

(** Lines 151-158. *)
Definition _has_card_from_anchor_texts (html needle : list ascii) : bool :=
  let block := match RE_DECKLIST_BLOCK_search lib html with
               | Some g => g
               | None => html
               end in
  if existsb (fun txt => contains needle (PyStr.lower (unescape lib txt)))
             (RE_ANCHOR_TEXT_findall lib block)
  then true
  else contains needle (PyStr.lower (unescape lib (sub_tags block))).

(** Lines 160-167. *)
Definition _deck_has_card (html card_lower : list ascii) : bool :=
  if _has_card_from_hidden_json html card_lower then true
  else if _has_card_from_js_block html card_lower then true
  else if _has_card_from_anchor_texts html card_lower then true
  else false.

End Tests.

End Card.

(** ** The record of a deck page: lines 173-191 *)

Module Details.
Import Re Card.

Section Matcher.
Context {R : Type}.

(** One character of a class. *)
Definition one (cls : ascii → bool) (s : list ascii)
    (k : list ascii → option R) : option R :=
  match s with
  | c :: s' => if cls c then k s' else None
  | [] => None
  end.

(** [(?:p)?], greedy: with [p] first, then without. *)
Definition opt (p : list ascii → (list ascii → option R) → option R)
    (s : list ascii) (k : list ascii → option R) : option R :=
  match p s k with
  | Some r => Some r
  | None => k s
  end.

(** [(.*?)] with [re.S], capturing: the shortest run first. *)
Fixpoint lazy_group (acc s : list ascii)
    (k : list ascii → list ascii → option R) : option R :=
  match k acc s with
  | Some r => Some r
  | None =>
      match s with
      | c :: s' => lazy_group (acc ++ [c]) s' k
      | [] => None
      end
  end.
End Matcher.

Definition is_quote (c : ascii) : bool := Ascii.eqb c dq || Ascii.eqb c "'".

(** The opening tag both patterns start with:
    [<div[^>]*class=["\']details["\'][^>]*>]. *)
Definition details_open {R : Type} (s : list ascii) (k : list ascii → option R)
    : option R :=
  lit (chars "<div") s (fun s1 =>
  star not_gt s1 (fun s2 =>
  lit (chars "class=") s2 (fun s3 =>
  one is_quote s3 (fun s4 =>
  lit (chars "details") s4 (fun s5 =>
  one is_quote s5 (fun s6 =>
  star not_gt s6 (fun s7 =>
  lit (chars ">") s7 k))))))).

(** [(?:<i>\s*drop\s*</i>)]. *)
Definition drop_mark {R : Type} (s : list ascii) (k : list ascii → option R)
    : option R :=
  lit (chars "<i>") s (fun s1 =>
  star PyStr.isspace s1 (fun s2 =>
  lit (chars "drop") s2 (fun s3 =>
  star PyStr.isspace s3 (fun s4 =>
  lit (chars "</i>") s4 k)))).

(** [\((\d+)-(\d+)-(\d+)\)], with literals compared by [lt]. *)
Definition record_groups {R : Type}
    (lt : list ascii → list ascii → (list ascii → option R) → option R)
    (s : list ascii)
    (k : list ascii → list ascii → list ascii → list ascii → option R) : option R :=
  lt (chars "(") s (fun s1 =>
  plus_group Py.is_digit [] s1 (fun g2 s2 =>
  lt (chars "-") s2 (fun s3 =>
  plus_group Py.is_digit [] s3 (fun g3 s4 =>
  lt (chars "-") s4 (fun s5 =>
  plus_group Py.is_digit [] s5 (fun g4 s6 =>
  lt (chars ")") s6 (fun s7 => k g2 g3 g4 s7))))))).

(** [RE_DETAILS] at one position: the groups 1 to 4 and group 0. *)
Definition RE_DETAILS_at (s : list ascii)
    : option (list ascii * list ascii * list ascii * list ascii * list ascii) :=
  details_open s (fun s1 =>
  star PyStr.isspace s1 (fun s2 =>
  plus_group Py.is_digit [] s2 (fun g1 s3 =>
  plus_group PyStr.isspace [] s3 (fun _ s4 =>
  lit (chars "points") s4 (fun s5 =>
  star PyStr.isspace s5 (fun s6 =>
  record_groups lit s6 (fun g2 g3 g4 s7 =>
  star PyStr.isspace s7 (fun s8 =>
  opt drop_mark s8 (fun s9 =>
  star PyStr.isspace s9 (fun s10 =>
  lit (chars "</div>") s10 (fun s11 =>
  Some (g1, g2, g3, g4, Scraper.consumed s s11)))))))))))).

(** The pattern of line 179 at one position, with [re.I | re.S]:
    group 1. *)
Definition details_div_at (s : list ascii) : option (list ascii) :=
  details_open s (fun s1 =>
  lazy_group [] s1 (fun g s2 =>
  lit (chars "</div>") s2 (fun _ => Some g))).

(** [(\d+)\s*points] at one position, compared as it stands. *)
Definition points_at (s : list ascii) : option (list ascii) :=
  plus_group Py.is_digit [] s (fun g s1 =>
  star PyStr.isspace s1 (fun s2 =>
  lit_exact (chars "points") s2 (fun _ => Some g))).

(** [\((\d+)-(\d+)-(\d+)\)] at one position. *)
Definition record_at (s : list ascii)
    : option (list ascii * list ascii * list ascii) :=
  record_groups lit_exact s (fun g2 g3 g4 _ => Some (g2, g3, g4)).

(** A run of decimal digits. *)
Definition digits (g : list ascii) : Prop := forallb Py.is_digit g = true.

(** [int(g)] for a run of digits.  An interpreter with a limit on the
    digits of such a conversion raises [ValueError] beyond it. *)
Definition ValueError (limit len : nat) : exception :=
  OtherException "ValueError"
    ("Exceeds the limit (" +:+ Py.str (Z.of_nat limit)
     +:+ " digits) for integer string conversion: value has "
     +:+ Py.str (Z.of_nat len)
     +:+ " digits; use sys.set_int_max_str_digits() to increase the limit").

Definition int_of (limit : option nat) (g : list ascii) : Py.result exception Z :=
  match limit with
  | Some n =>
      if (n <? length g)%nat then Py.Raise (ValueError n (length g))
      else Py.Ok (Py.int g)
  | None => Py.Ok (Py.int g)
  end.

Definition bind {A B : Type} (r : Py.result exception A)
    (f : A → Py.result exception B) : Py.result exception B :=
  match r with
  | Py.Ok a => f a
  | Py.Raise e => Py.Raise e
  end.

Section Extract.
Variable limit : option nat.
Variable unescape : list ascii → list ascii.

(** Lines 173-191. *)
Definition _extract_details (html : list ascii)
    : Py.result exception (Z * Z * Z * Z * bool) :=
  match search RE_DETAILS_at html with
  | Some (g1, g2, g3, g4, g0) =>
      bind (int_of limit g1) (fun points =>
      bind (int_of limit g2) (fun wins =>
      bind (int_of limit g3) (fun losses =>
      bind (int_of limit g4) (fun ties =>
      let dropped := contains (chars "drop") (PyStr.lower g0) in
      Py.Ok (points, wins, losses, ties, dropped)))))
  | None =>
      match search details_div_at html with
      | Some inner =>
          let text := PyStr.lower (unescape (sub_tags inner)) in
          let pts := search points_at text in
          let rec := search record_at text in
          let dropped := contains (chars "drop") text in
          bind (match pts with
                | Some g => int_of limit g
                | None => Py.Ok 0
                end) (fun points =>
          match rec with
          | Some (g2, g3, g4) =>
              bind (int_of limit g2) (fun wins =>
              bind (int_of limit g3) (fun losses =>
              bind (int_of limit g4) (fun ties =>
              Py.Ok (points, wins, losses, ties, dropped))))
          | None => Py.Ok (points, 0, 0, 0, dropped)
          end)
      | None => Py.Ok (0, 0, 0, 0, false)
      end
  end.

End Extract.

End Details.

(** The parsers of a run with [_extract_details] of the source in place;
    the page is its characters. *)
Definition with_details (limit : option nat) (unescape : list ascii → list ascii)
    (prs : parsers) : parsers :=
  {| _extract_standings := _extract_standings prs;
     _extract_decks := _extract_decks prs;
     _deck_has_card := _deck_has_card prs;
     _extract_details :=
       fun html => Details._extract_details limit unescape (Re.chars html);
     _extract_archetype := _extract_archetype prs;
     _player_from_url := _player_from_url prs;
     strip_lower := strip_lower prs |}.

(** A record of counts: none is negative, the win rate is a share, and
    it is zero for no win only. *)
Definition sane_record (r : deck_record) : Prop :=
  0 <= points r ∧ 0 <= wins r ∧ 0 <= losses r ∧ 0 <= ties r ∧
  (0 <= win_rate r)%Q ∧ (win_rate r <= 1)%Q ∧
  ((win_rate r == 0)%Q ↔ wins r = 0).

(** A run to the end of the collecting stage over one deck, whose page
    holds the card and the details element of a 3-1-0 record. *)
Module DetailsExample.

Definition deck_page : string :=
  "pikachu <div class=" +:+ String Re.dq "details" +:+ String Re.dq
  ">9 points (3-1-0)</div>".

Definition prs : parsers := with_details (Some 4300%nat) (fun x => x) Example.prs.

Definition one_deck : list resumption :=
  [ Example.main 0 (Body ""); Example.main 1 (Body "");
    Example.task 0 2 (Body ""); Example.task 0 3 (Body "t1");
    Example.main 4 (Body "");
    Example.task 0 5 (Body ""); Example.task 0 6 (Body "d1");
    Example.main 7 (Body "");
    Example.task 0 8 (Body ""); Example.task 0 9 (Body deck_page) ].

Definition the_record : deck_record :=
  {| url := "d1"; player := ""; archetype := "Other"; points := 9; wins := 3;
     losses := 1; ties := 0; dropped := false; win_rate := 3 # 4; played := 4 |}.

End DetailsExample.

(** ** The archetype of a deck page: lines 169-171 *)

Module Archetype.
Import Re Card Details.

(** [\w] on a character below U+0100. *)
Definition is_word (c : ascii) : bool :=
  let n := PyStr.code c in
  ((48 <=? n) && (n <=? 57)) || ((65 <=? n) && (n <=? 90)) || (n =? 95)
  || ((97 <=? n) && (n <=? 122))
  || (n =? 170) || (n =? 178) || (n =? 179) || (n =? 181) || (n =? 185) || (n =? 186)
  || ((188 <=? n) && (n <=? 190))
  || ((192 <=? n) && (n <=? 214)) || ((216 <=? n) && (n <=? 246))
  || ((248 <=? n) && (n <=? 255)).

(** [cls*], greedy, telling the continuation the character before the
    position it starts at. *)
Fixpoint star_prev {R : Type} (cls : ascii → bool) (prev : ascii) (s : list ascii)
    (k : ascii → list ascii → option R) : option R :=
  match s with
  | c :: s' =>
      if cls c then
        match star_prev cls c s' k with
        | Some r => Some r
        | None => k prev s
        end
      else k prev s
  | [] => k prev s
  end.

(** One character of a class, kept. *)
Definition one_kept {R : Type} (cls : ascii → bool) (s : list ascii)
    (k : ascii → list ascii → option R) : option R :=
  match s with
  | c :: s' => if cls c then k c s' else None
  | [] => None
  end.

Definition not_quote (c : ascii) : bool := negb (is_quote c).

(** [RE_ARCHETYPE] at one position: group 1.  The word boundary stands
    before a letter, so it asks for a character before it that is not of
    a word. *)
Definition RE_ARCHETYPE_at (s : list ascii) : option (list ascii) :=
  lit (chars "<div") s (fun s1 =>
  star not_gt s1 (fun s2 =>
  lit (chars "class=") s2 (fun s3 =>
  one is_quote s3 (fun s4 =>
  lit (chars "deck") s4 (fun s5 =>
  one_kept is_quote s5 (fun q s6 =>
  star_prev not_gt q s6 (fun prev s7 =>
  if is_word prev then None else
  lit (chars "data-tooltip=") s7 (fun s8 =>
  one is_quote s8 (fun s9 =>
  plus_group not_quote [] s9 (fun g s10 =>
  one is_quote s10 (fun _ => Some g))))))))))).

(** Lines 169-171. *)
Definition _extract_archetype (html : list ascii) : list ascii :=
  match search RE_ARCHETYPE_at html with
  | Some g => PyStr.strip g
  | None => chars "Other"
  end.

End Archetype.

(** * Properties *)

(** ** De-duplication *)

Lemma dedupe_loop_app (l1 l2 : list string) (seen : gset string) (out : list string) :
  dedupe_loop (l1 ++ l2) seen out
  = dedupe_loop l2 (list_to_set l1 ∪ seen) (dedupe_loop l1 seen out).
Proof.
  revert seen out. induction l1 as [|u l1 IH]; intros seen out; simpl.
  - f_equal. set_solver.
  - case_decide.
    + rewrite IH. f_equal. set_solver.
    + rewrite IH. f_equal. set_solver.
Qed.

Lemma dedupe_snoc (l : list string) (x : string) :
  _dedupe_keep_order (l ++ [x])
  = if decide (x ∈ l) then _dedupe_keep_order l else _dedupe_keep_order l ++ [x].
Proof.
  unfold _dedupe_keep_order. rewrite dedupe_loop_app. simpl.
  repeat case_decide; try reflexivity; set_solver.
Qed.

Lemma dedupe_elem_of (l : list string) (x : string) :
  x ∈ _dedupe_keep_order l ↔ x ∈ l.
Proof.
  induction l as [|y l IH] using rev_ind; [done|].
  rewrite dedupe_snoc. case_decide; set_solver.
Qed.

Lemma dedupe_NoDup (l : list string) : NoDup (_dedupe_keep_order l).
Proof.
  induction l as [|y l IH] using rev_ind; [constructor|].
  rewrite dedupe_snoc. case_decide; [done|].
  apply NoDup_app. split; [done|]. split; [|apply NoDup_singleton].
  intros x Hx Hy. apply list_elem_of_singleton in Hy. subst.
  rewrite dedupe_elem_of in Hx. done.
Qed.

Lemma dedupe_sublist (l : list string) : _dedupe_keep_order l `sublist_of` l.
Proof.
  induction l as [|y l IH] using rev_ind; [constructor|].
  rewrite dedupe_snoc. case_decide.
  - by apply sublist_inserts_r.
  - by apply sublist_app.
Qed.

Lemma dedupe_idempotent (l : list string) :
  _dedupe_keep_order (_dedupe_keep_order l) = _dedupe_keep_order l.
Proof.
  induction l as [|y l IH] using rev_ind; [done|].
  rewrite dedupe_snoc. case_decide; [done|].
  rewrite dedupe_snoc. rewrite IH.
  case_decide as Hin; [|done]. by rewrite dedupe_elem_of in Hin.
Qed.

Lemma first_index_app_l (x : string) (l k : list string) (i : nat) :
  first_index x l = Some i → first_index x (l ++ k) = Some i.
Proof.
  unfold first_index. destruct (list_find _ l) as [[j y]|] eqn:E; [|done].
  intros [= <-]. by rewrite (list_find_app_l _ _ _ _ _ E).
Qed.

Lemma first_index_lt (x : string) (l : list string) (i : nat) :
  first_index x l = Some i → (i < length l)%nat.
Proof.
  unfold first_index. destruct (list_find _ l) as [[j y]|] eqn:E; [|done].
  intros [= <-]. apply list_find_Some in E as (E & _). by apply lookup_lt_Some in E.
Qed.

Lemma first_index_elem_of (x : string) (l : list string) :
  x ∈ l → is_Some (first_index x l).
Proof.
  intros Hx. unfold first_index.
  destruct (list_find_elem_of (fun y => y = x) l x Hx eq_refl) as [[i y] E].
  rewrite E. by eexists.
Qed.

Lemma first_index_fresh (x : string) (l : list string) :
  x ∉ l → first_index x (l ++ [x]) = Some (length l).
Proof.
  intros Hx. unfold first_index.
  assert (list_find (fun y => y = x) l = None) as E.
  { apply list_find_None. apply Forall_forall. intros y Hy ->. done. }
  rewrite list_find_app_r by done. simpl. case_decide; [|done]. simpl.
  f_equal.
Qed.

Lemma dedupe_first_occurrence_order (l : list string) (i j : nat) (x y : string) :
  _dedupe_keep_order l !! i = Some x →
  _dedupe_keep_order l !! j = Some y →
  (i < j)%nat →
  ∃ a b, first_index x l = Some a ∧ first_index y l = Some b ∧ (a < b)%nat.
Proof.
  revert i j x y. induction l as [|z l IH] using rev_ind; intros i j x y Hi Hj Hij.
  { done. }
  rewrite dedupe_snoc in Hi, Hj. case_decide as Hz.
  - destruct (IH _ _ _ _ Hi Hj Hij) as (a & b & Ha & Hb & Hab).
    exists a, b. eauto using first_index_app_l.
  - apply lookup_app_Some in Hj as [Hj|[Hlen Hj]].
    + rewrite lookup_app_l in Hi by (apply lookup_lt_Some in Hj; lia).
      destruct (IH _ _ _ _ Hi Hj Hij) as (a & b & Ha & Hb & Hab).
      exists a, b. eauto using first_index_app_l.
    + apply list_lookup_singleton_Some in Hj as [Hj ->].
      rewrite lookup_app_l in Hi by lia.
      assert (x ∈ l) as Hx.
      { apply dedupe_elem_of. by eapply list_elem_of_lookup_2. }
      destruct (first_index_elem_of _ _ Hx) as [a Ha].
      exists a, (length l). split; [by apply first_index_app_l|].
      split; [by apply first_index_fresh|]. by eapply first_index_lt.
Qed.

(** C7. [_dedupe_keep_order] is a stable first-occurrence filter: on
    [a, b, a, c, b] with [a], [b], [c] distinct it gives [a, b, c]; for every
    list its result is a subsequence of the list, has no repeated element
    and holds exactly the elements of the list; reading the list left to
    right, an element is kept exactly when it has not occurred before and
    goes after those kept so far, so two kept elements stand in the order
    of their first occurrences; and filtering twice is filtering once. *)
Theorem dedupe_keep_order_stable (a b c : string) (l : list string) :
  a ≠ b → a ≠ c → b ≠ c →
  _dedupe_keep_order [a; b; a; c; b] = [a; b; c] ∧
  _dedupe_keep_order l `sublist_of` l ∧
  NoDup (_dedupe_keep_order l) ∧
  (∀ x, x ∈ _dedupe_keep_order l ↔ x ∈ l) ∧
  (∀ x, _dedupe_keep_order (l ++ [x])
        = if decide (x ∈ l) then _dedupe_keep_order l else _dedupe_keep_order l ++ [x]) ∧
  (∀ i j x y,
      _dedupe_keep_order l !! i = Some x →
      _dedupe_keep_order l !! j = Some y →
      (i < j)%nat →
      ∃ p q, first_index x l = Some p ∧ first_index y l = Some q ∧ (p < q)%nat) ∧
  _dedupe_keep_order (_dedupe_keep_order l) = _dedupe_keep_order l.
Proof.
  intros Hab Hac Hbc. split.
  { unfold _dedupe_keep_order. simpl.
    repeat (case_decide; simpl); try reflexivity; set_solver. }
  split; [apply dedupe_sublist|].
  split; [apply dedupe_NoDup|].
  split; [apply dedupe_elem_of|].
  split; [apply dedupe_snoc|].
  split; [apply dedupe_first_occurrence_order|].
  apply dedupe_idempotent.
Qed.

Lemma dedupe_keep_order_stable_witness :
  _dedupe_keep_order ["a"; "b"; "a"; "c"; "b"] = ["a"; "b"; "c"] ∧
  _dedupe_keep_order (_dedupe_keep_order ["x"; "y"; "x"]) = _dedupe_keep_order ["x"; "y"; "x"].
Proof.
  pose proof (dedupe_keep_order_stable "a" "b" "c" ["x"; "y"; "x"]) as H.
  destruct H as (H1 & _ & _ & _ & _ & _ & H2); [discriminate..|].
  exact (conj H1 H2).
Defined.

(** ** The record of a matching deck *)

Lemma win_rate_of_total (w l : Z) : ∃ q, win_rate_of w l = Py.Ok q.
Proof.
  unfold win_rate_of, truediv. destruct (0 <? w + l) eqn:E; [|by eexists].
  apply Z.ltb_lt in E. destruct (w + l =? 0) eqn:E0; [|by eexists].
  apply Z.eqb_eq in E0. lia.
Qed.

Lemma win_rate_of_value (w l : Z) (q : Q) :
  win_rate_of w l = Py.Ok q →
  (0 < w + l → (q == inject_Z w / inject_Z (w + l))%Q) ∧
  (w + l = 0 → (q == 0)%Q).
Proof.
  unfold win_rate_of, truediv. intros H. split; intros Hd.
  - apply Z.ltb_lt in Hd as Hd'. rewrite Hd' in H.
    destruct (w + l =? 0) eqn:E0; [apply Z.eqb_eq in E0; lia|].
    injection H as <-. reflexivity.
  - rewrite Hd in H. simpl in H. injection H as <-. reflexivity.
Qed.

Lemma make_record_fields (prs : parsers) (u html : string) (r : deck_record) :
  make_record prs u html = Py.Ok r →
  win_rate_of (wins r) (losses r) = Py.Ok (win_rate r) ∧
  played r = wins r + losses r + ties r ∧
  url r = u.
Proof.
  unfold make_record. intros H.
  destruct (_extract_details prs html) as [[[[[pts w] l] t] d]|]; [|done].
  destruct (win_rate_of w l) as [q|] eqn:Eq; [|done].
  destruct (_player_from_url prs u); [|done].
  destruct (_extract_archetype prs html); [|done].
  injection H as <-. simpl. done.
Qed.

(** ** The pacer *)

Module PacerFacts.
Import Pacer PacerInv.

Lemma Qle_bool_false (x y : Q) : Qle_bool x y = false → (y < x)%Q.
Proof.
  intros H. apply Qnot_le_lt. intros Hle. apply Qle_bool_iff in Hle. congruence.
Qed.

Lemma in_window_spec (T t : Q) :
  in_window T t = true ↔ (t <= T)%Q ∧ (T - t < 1)%Q.
Proof.
  unfold in_window. rewrite andb_true_iff, negb_true_iff, Qle_bool_iff.
  split; intros [H1 H2]; split; try done.
  - by apply Qle_bool_false.
  - destruct (Qle_bool 1 (T - t)) eqn:E; [|done].
    apply Qle_bool_iff in E. lra.
Qed.

Lemma evict_split (now : Q) (s : list Q) :
  ∃ old, s = old ++ evict now s ∧ Forall (fun t => (t + 1 <= now)%Q) old.
Proof.
  induction s as [|t s IH]; simpl.
  - exists []. by split.
  - destruct (Qle_bool 1 (now - t)) eqn:E.
    + destruct IH as (old & Hs & Hold). exists (t :: old). split.
      * simpl. by f_equal.
      * constructor; [|done]. apply Qle_bool_iff in E. lra.
    + exists []. by split.
Qed.

Lemma window_app (T : Q) (l k : list Q) :
  admitted_in_window T (l ++ k)
  = (admitted_in_window T l + admitted_in_window T k)%nat.
Proof. unfold admitted_in_window. by rewrite filter_app, length_app. Qed.

Lemma window_le_length (T : Q) (l : list Q) :
  (admitted_in_window T l ≤ length l)%nat.
Proof. apply length_filter. Qed.

Lemma window_old (T now : Q) (old : list Q) :
  (now <= T)%Q → Forall (fun t => (t + 1 <= now)%Q) old →
  admitted_in_window T old = 0%nat.
Proof.
  intros HT. unfold admitted_in_window. induction 1 as [|t old Ht _ IH]; [done|].
  rewrite filter_cons. case_decide as Hw; [|done].
  apply in_window_spec in Hw. lra.
Qed.

Lemma window_later (T now : Q) : (T < now)%Q → admitted_in_window T [now] = 0%nat.
Proof.
  intros HT. unfold admitted_in_window. rewrite filter_cons. case_decide as Hw; [|done].
  apply in_window_spec in Hw. lra.
Qed.

Lemma enter_pass (jm now rnd : Q) (p p' : FixedPacer) (ph : phase) :
  enter jm now rnd p = (p', ph) → pass now p p' ph.
Proof.
  unfold enter. destruct (lock p) eqn:Hl.
  { intros [= <- <-]. by constructor. }
  destruct (Z.of_nat (length (evict now (starts p))) <? Z.pos (rps p)) eqn:Hlt.
  - apply Z.ltb_lt in Hlt.
    destruct (Qlt_bool 0 jm && Qlt_bool 0 ((rnd * 2 - 1) * jm)); intros [= <- <-];
      eapply pass_admitted; simpl; eauto.
  - apply Z.ltb_ge in Hlt.
    destruct (evict now (starts p)) as [|t rest] eqn:Hev; intros [= <- <-];
      eapply pass_rejected; simpl; eauto; by rewrite ?Hev.
Qed.

Lemma step_moved (jm now rnd : Q) (ph ph' : phase) (p p' : FixedPacer) :
  step jm now rnd ph p = (p', ph') → moved now p p' ph ph'.
Proof.
  destruct ph as [|u|u| |]; simpl.
  - intros H. apply moved_pass; [by left|]. by eapply enter_pass.
  - destruct (Qle_bool u now); intros [= <- <-]; [by apply moved_woken|by apply moved_not].
  - destruct (Qle_bool u now).
    + intros H. apply moved_pass; [right; by eexists|]. by eapply enter_pass.
    + intros [= <- <-]. by apply moved_not.
  - intros [= <- <-]. by apply moved_not.
  - intros [= <- <-]. by apply moved_not.
Qed.

Section Invariants.
Variable jm : Q.

Lemma Forall_older (old : list Q) (c c' : Q) :
  (c <= c')%Q → Forall (fun t => (t + 1 <= c)%Q) old →
  Forall (fun t => (t + 1 <= c')%Q) old.
Proof.
  intros Hc H. eapply Forall_impl; [exact H|]. simpl. intros t Ht. lra.
Qed.

Lemma rate_inv_pass (s : system) (now : Q) (p' : FixedPacer) (ph : phase)
    (cs : list phase) :
  rate_inv s → (clock s <= now)%Q → pass now (pacer s) p' ph →
  rate_inv {| pacer := p'; callers := cs; clock := now;
              admissions := if total_started p' =? total_started (pacer s)
                            then admissions s else admissions s ++ [now] |}.
Proof.
  intros [(old & Hlog & Hold) Hlen Hcount Hbound] Hnow Hpass.
  destruct (evict_split now (starts (pacer s))) as (ev & Hev & Hevold).
  inversion Hpass as [Hl ->|ph0 Hl Hlt Hrps Hst Htot Hph|ph0 Hl Hge Hrps Hst Htot Hl' Hph];
    subst.
  - rewrite Z.eqb_refl. split; simpl; try done.
    exists old. split; [done|]. by eapply Forall_older.
  - rewrite Htot. replace (total_started (pacer s) + 1 =? total_started (pacer s))
      with false by (symmetry; apply Z.eqb_neq; lia).
    assert (admissions s ++ [now] = (old ++ ev) ++ starts p') as Hnew.
    { rewrite Hst, Hlog. rewrite Hev at 1. by rewrite <- !app_assoc. }
    assert (Forall (fun t => (t + 1 <= now)%Q) (old ++ ev)) as Hold'.
    { apply Forall_app. split; [by eapply Forall_older|done]. }
    assert (Z.of_nat (length (starts p')) <= Z.pos (rps (pacer s))) as Hlen'.
    { rewrite Hst, length_app. simpl. lia. }
    split; simpl.
    + by exists (old ++ ev).
    + by rewrite Hrps.
    + rewrite length_app. simpl. lia.
    + intros T. rewrite Hrps. destruct (Qlt_le_dec T now) as [HT|HT].
      * rewrite window_app, (window_later _ _ HT). specialize (Hbound T). lia.
      * rewrite Hnew, window_app, (window_old _ _ _ HT Hold').
        pose proof (window_le_length T (starts p')). lia.
  - rewrite Htot, Z.eqb_refl. split; simpl.
    + exists (old ++ ev). split.
      * rewrite Hst, Hlog. rewrite Hev at 1. by rewrite <- !app_assoc.
      * apply Forall_app. split; [by eapply Forall_older|done].
    + rewrite Hrps, Hst. rewrite Hev, length_app in Hlen. lia.
    + lia.
    + by rewrite Hrps.
Qed.

Lemma rate_inv_step (e : event) (s : system) :
  rate_inv s → rate_inv (sys_step jm e s).
Proof.
  intros Hinv. unfold sys_step. destruct (callers s !! who e) as [ph|]; [|done].
  destruct (step jm _ _ ph (pacer s)) as [p' ph'] eqn:Hstep.
  pose proof (Q.le_max_l (clock s) (at_time e)) as Hnow.
  apply step_moved in Hstep.
  inversion Hstep as [? ? _ Hpass|u ->|? -> _]; subst.
  - eapply rate_inv_pass; eauto.
  - rewrite Z.eqb_refl. destruct Hinv as [(old & Hlog & Hold) Hlen Hcount Hbound].
    split; simpl; try done. exists old. split; [done|]. by eapply Forall_older.
  - rewrite Z.eqb_refl. destruct Hinv as [(old & Hlog & Hold) Hlen Hcount Hbound].
    split; simpl; try done. exists old. split; [done|]. by eapply Forall_older.
Qed.

Lemma rate_inv_start (rps0 : Z) (n : nat) : rate_inv (start rps0 n).
Proof.
  split; simpl;
    [by exists [] | done | done | intros T; unfold admitted_in_window; simpl; lia].
Qed.

Lemma rate_inv_run (es : list event) (s : system) :
  rate_inv s → rate_inv (run jm es s).
Proof.
  revert s. induction es as [|e es IH]; intros s Hs; simpl; [done|].
  apply IH. by apply rate_inv_step.
Qed.

Lemma rps_step (e : event) (s : system) :
  rps (pacer (sys_step jm e s)) = rps (pacer s).
Proof.
  unfold sys_step. destruct (callers s !! who e) as [ph|]; [|done].
  destruct (step jm _ _ ph (pacer s)) as [p' ph'] eqn:Hstep. simpl.
  apply step_moved in Hstep.
  inversion Hstep as [? ? _ Hpass|u ->|? -> _]; subst; try done.
  by inversion Hpass; subst.
Qed.

Lemma rps_run (es : list event) (s : system) :
  rps (pacer (run jm es s)) = rps (pacer s).
Proof.
  revert s. induction es as [|e es IH]; intros s; simpl; [done|].
  by rewrite IH, rps_step.
Qed.

Lemma lock_inv_step (e : event) (s : system) :
  lock_inv s → lock_inv (sys_step jm e s).
Proof.
  unfold sys_step. destruct (callers s !! who e) as [ph|] eqn:Hi; [|done].
  destruct (step jm _ _ ph (pacer s)) as [p' ph'] eqn:Hstep.
  apply step_moved in Hstep. unfold lock_inv. simpl. intros Hinv.
  pose proof (lookup_lt_Some _ _ _ Hi) as Hlt.
  inversion Hstep as [? ? Hph Hpass|u ->|? -> _]; subst.
  - assert (jittering ph = false) as Hnj by (by destruct Hph as [->|[u ->]]).
    inversion Hpass as [Hl ->|ph0 Hl _ _ _ _ Hph'|ph0 Hl _ _ _ _ Hl' Hph']; subst.
    + rewrite Hl in *. destruct Hinv as (i0 & u & Hi0 & Hothers).
      assert (who e ≠ i0) as Hne by (intros Heq; rewrite Heq in Hi; by simplify_eq).
      exists i0, u. split; [by rewrite list_lookup_insert_ne|].
      intros j ph0 Hj Hji. apply list_lookup_insert_Some in Hj as [(_ & <- & _)|[_ Hj]];
        [done|by eapply Hothers].
    + rewrite Hl in Hinv. destruct Hph' as [[-> ->]|[[u ->] ->]].
      * intros j ph0 Hj. apply list_lookup_insert_Some in Hj as [(_ & <- & _)|[_ Hj]];
          [done|by eapply Hinv].
      * exists (who e), u. split; [by apply list_lookup_insert_eq|].
        intros j ph0 Hj Hji. rewrite list_lookup_insert_ne in Hj by done.
        by eapply Hinv.
    + rewrite Hl in Hinv. rewrite Hl'.
      intros j ph0 Hj. apply list_lookup_insert_Some in Hj as [(_ & <- & _)|[_ Hj]];
        [by destruct Hph' as [[u ->]| ->]|by eapply Hinv].
  - destruct (lock (pacer s)).
    + destruct Hinv as (i0 & u0 & Hi0 & Hothers).
      intros j ph0 Hj. apply list_lookup_insert_Some in Hj as [(_ & <- & _)|[Hne Hj]];
        [done|].
      destruct (decide (j = i0)) as [->|Hji]; [|by eapply Hothers].
      by specialize (Hothers _ _ Hi Hne).
    + by specialize (Hinv _ _ Hi).
  - by rewrite list_insert_id.
Qed.

Lemma lock_inv_start (rps0 : Z) (n : nat) : lock_inv (start rps0 n).
Proof.
  unfold lock_inv. simpl. intros j ph Hj.
  apply lookup_replicate in Hj as [-> _]. done.
Qed.

Lemma lock_inv_run (es : list event) (s : system) :
  lock_inv s → lock_inv (run jm es s).
Proof.
  revert s. induction es as [|e es IH]; intros s Hs; simpl; [done|].
  apply IH. by apply lock_inv_step.
Qed.

(** A caller that finds the lock held is not admitted. *)
Lemma blocked_step (e : event) (s : system) (ph : phase) :
  lock (pacer s) = true → callers s !! who e = Some ph → jittering ph = false →
  pacer (sys_step jm e s) = pacer s ∧ admissions (sys_step jm e s) = admissions s.
Proof.
  intros Hl Hi Hnj. unfold sys_step. rewrite Hi.
  destruct (step jm _ _ ph (pacer s)) as [p' ph'] eqn:Hstep. simpl.
  apply step_moved in Hstep.
  inversion Hstep as [? ? Hph Hpass|u ->|? -> _]; subst.
  - inversion Hpass; subst; try congruence. by rewrite Z.eqb_refl.
  - done.
  - by rewrite Z.eqb_refl.
Qed.
End Invariants.

End PacerFacts.

(** With capacity 1 and two callers resumed at time 0, the second backs
    off until time 1 and is admitted then: an admission that is exactly
    one second old has left the window. *)
Example one_admission_per_second :
  Pacer.admissions
    (Pacer.run (5 # 1000)
       [ {| Pacer.who := 0; Pacer.at_time := 0; Pacer.rnd := 0 |};
         {| Pacer.who := 1; Pacer.at_time := 0; Pacer.rnd := 0 |};
         {| Pacer.who := 1; Pacer.at_time := 1 # 2; Pacer.rnd := 0 |};
         {| Pacer.who := 1; Pacer.at_time := 1; Pacer.rnd := 0 |} ]
       (Pacer.start 1 2))
  = [0%Q; 1%Q] ∧
  Pacer.admitted_in_window 1 [0%Q; 1%Q] = 1%nat ∧
  Pacer.admitted_in_window (999 # 1000) [0%Q; 1%Q] = 1%nat.
Proof. split; [vm_compute; reflexivity|]. split; vm_compute; reflexivity. Qed.

(** C1. Whatever the configured rate, the number of callers and the order
    in which they are resumed, the capacity of the pacer is
    [max(1, rps)], each admission is counted once, and at every instant
    [T] the admissions made in the second that trails [T] are at most the
    capacity. *)
Theorem acquire_rate_bound (jm : Q) (rps0 : Z) (ncallers : nat)
    (es : list Pacer.event) (T : Q) :
  let s := Pacer.run jm es (Pacer.start rps0 ncallers) in
  Z.pos (Pacer.rps (Pacer.pacer s)) = Z.max 1 rps0 ∧
  Z.of_nat (length (Pacer.admissions s)) = Pacer.total_started (Pacer.pacer s) ∧
  Z.of_nat (Pacer.admitted_in_window T (Pacer.admissions s)) <= Z.max 1 rps0.
Proof.
  intros s.
  assert (Z.pos (Pacer.rps (Pacer.pacer s)) = Z.max 1 rps0) as Hrps.
  { unfold s. rewrite PacerFacts.rps_run. simpl. lia. }
  destruct (PacerFacts.rate_inv_run jm es _ (PacerFacts.rate_inv_start rps0 ncallers))
    as [_ _ Hcount Hbound].
  split; [done|]. split; [done|]. rewrite <- Hrps. apply Hbound.
Qed.

(** C8, counterexample.  The admitted caller sleeps its jitter with the
    lock held, and the second caller, resumed meanwhile, is not admitted
    although the window holds one start out of 360. *)
Lemma jitter_sleep_holds_lock :
  let s := Pacer.run (5 # 1000) jitter_schedule (Pacer.start 360 2) in
  let s' := Pacer.sys_step (5 # 1000) second_caller s in
  Pacer.jittering <$> Pacer.callers s !! 0%nat = Some true ∧
  Pacer.lock (Pacer.pacer s) = true ∧
  Pacer.callers s' !! 1%nat = Some Pacer.Entering ∧
  Pacer.admissions s' = Pacer.admissions s ∧
  length (Pacer.starts (Pacer.pacer s')) = 1%nat ∧
  ¬ jitter_sleep_outside_lock.
Proof.
  do 5 (split; [vm_compute; reflexivity|]).
  intros H.
  specialize (H (5 # 1000)%Q 360 2%nat jitter_schedule 0%nat
                (Qmax 0 0 + (((3 # 4) * 2 - 1) * (5 # 1000)))%Q eq_refl).
  vm_compute in H. discriminate.
Qed.

(** C8, amended.  In every state the callers can reach, the lock is held
    exactly when some caller sleeps its jitter, at most one caller does,
    and while it does the resumption of any other caller leaves the window
    and the admissions as they are: the check-and-append of a caller
    excludes the others until the jitter sleep is over.  A caller that backs
    off never holds the lock. *)
Theorem acquire_lock_discipline (jm : Q) (rps0 : Z) (n : nat) (es : list Pacer.event) :
  let s := Pacer.run jm es (Pacer.start rps0 n) in
  (Pacer.lock (Pacer.pacer s) = true
   ↔ ∃ i u, Pacer.callers s !! i = Some (Pacer.Jittering u)) ∧
  (∀ i j u v, Pacer.callers s !! i = Some (Pacer.Jittering u) →
              Pacer.callers s !! j = Some (Pacer.Jittering v) → i = j) ∧
  (∀ i u e, Pacer.callers s !! i = Some (Pacer.Jittering u) →
            Pacer.who e ≠ i →
            Pacer.pacer (Pacer.sys_step jm e s) = Pacer.pacer s ∧
            Pacer.admissions (Pacer.sys_step jm e s) = Pacer.admissions s).
Proof.
  intros s.
  pose proof (PacerFacts.lock_inv_run jm es _ (PacerFacts.lock_inv_start rps0 n)) as Hinv.
  fold s in Hinv. unfold PacerInv.lock_inv in Hinv.
  assert (∀ i u, Pacer.callers s !! i = Some (Pacer.Jittering u) →
                 Pacer.lock (Pacer.pacer s) = true
                 ∧ ∀ j ph, Pacer.callers s !! j = Some ph → j ≠ i →
                           Pacer.jittering ph = false) as Hheld.
  { intros i u Hi. destruct (Pacer.lock (Pacer.pacer s)).
    - split; [done|]. destruct Hinv as (i0 & u0 & Hi0 & Hothers).
      destruct (decide (i = i0)) as [->|Hne]; [done|].
      by specialize (Hothers _ _ Hi Hne).
    - by specialize (Hinv _ _ Hi). }
  split; [|split].
  - split.
    + intros Hl. rewrite Hl in Hinv. destruct Hinv as (i & u & Hi & _). eauto.
    + intros (i & u & Hi). by apply Hheld in Hi as [? _].
  - intros i j u v Hi Hj. destruct (decide (i = j)) as [|Hne]; [done|].
    apply Hheld in Hi as [_ Hothers]. by specialize (Hothers _ _ Hj ltac:(done)).
  - intros i u e Hi Hne. apply Hheld in Hi as [Hl Hothers].
    destruct (Pacer.callers s !! Pacer.who e) as [ph|] eqn:He.
    + eapply PacerFacts.blocked_step; eauto.
    + unfold Pacer.sys_step. by rewrite He.
Qed.

Lemma acquire_lock_discipline_witness :
  Pacer.lock (Pacer.pacer (Pacer.run (5 # 1000) jitter_schedule (Pacer.start 360 2))) = true.
Proof.
  apply (proj1 (acquire_lock_discipline (5 # 1000) 360 2 jitter_schedule)).
  eexists 0%nat, _. vm_compute. reflexivity.
Defined.

(** ** The page count *)

Module ReFacts.
Import Re.

Section Matcher.
Context {R : Type}.
Implicit Types (s a g pat : list ascii) (r : R).

Lemma lit_sound pat s (k : list ascii → option R) r :
  lit pat s k = Some r →
  ∃ a rest, s = a ++ rest ∧ map Py.lower a = pat ∧ k rest = Some r.
Proof.
  revert s. induction pat as [|p pat IH]; intros s; simpl.
  - intros Hk. by exists [], s.
  - destruct s as [|c s]; [done|].
    destruct (Ascii.eqb (Py.lower c) p) eqn:E; [|done].
    apply Ascii.eqb_eq in E. intros H.
    destruct (IH _ H) as (a & rest & -> & <- & Hk).
    exists (c :: a), rest. by rewrite <- E.
Qed.

Lemma lit_complete a rest (k : list ascii → option R) :
  lit (map Py.lower a) (a ++ rest) k = k rest.
Proof.
  induction a as [|c a IH]; simpl; [done|]. by rewrite Ascii.eqb_refl.
Qed.

Lemma star_sound cls s (k : list ascii → option R) r :
  star cls s k = Some r →
  ∃ a rest, s = a ++ rest ∧ forallb cls a = true ∧ k rest = Some r.
Proof.
  induction s as [|c s IH]; simpl.
  - intros Hk. by exists [], [].
  - destruct (cls c) eqn:Ec; [|intros Hk; by exists [], (c :: s)].
    destruct (star cls s k) as [r'|] eqn:Es.
    + intros [= ->]. destruct (IH eq_refl) as (a & rest & -> & Ha & Hk).
      exists (c :: a), rest. simpl. by rewrite Ec, Ha.
    + intros Hk. by exists [], (c :: s).
Qed.

Lemma star_complete cls a rest (k : list ascii → option R) :
  forallb cls a = true → is_Some (k rest) → is_Some (star cls (a ++ rest) k).
Proof.
  induction a as [|c a IH]; simpl.
  - intros _ Hk. destruct rest as [|c rest]; simpl; [done|].
    destruct (cls c); [|done]. by destruct (star cls rest k).
  - intros [Hc Ha]%andb_true_iff Hk. rewrite Hc.
    destruct (IH Ha Hk) as [r ->]. by eexists.
Qed.

Lemma plus_sound cls acc s (k : list ascii → list ascii → option R) r :
  plus_group cls acc s k = Some r →
  ∃ g rest, s = g ++ rest ∧ g ≠ [] ∧ forallb cls g = true
            ∧ k (acc ++ g) rest = Some r.
Proof.
  revert acc. induction s as [|c s IH]; intros acc; simpl; [done|].
  destruct (cls c) eqn:Ec; [|done].
  destruct (plus_group cls (acc ++ [c]) s k) as [r'|] eqn:Es.
  - intros [= ->]. destruct (IH _ Es) as (g & rest & -> & _ & Hg & Hk).
    exists (c :: g), rest. simpl. rewrite Ec, Hg.
    rewrite <- app_assoc in Hk. done.
  - intros Hk. exists [c], s. simpl. by rewrite Ec.
Qed.

Lemma plus_complete cls acc g rest (k : list ascii → list ascii → option R) :
  g ≠ [] → forallb cls g = true → is_Some (k (acc ++ g) rest) →
  is_Some (plus_group cls acc (g ++ rest) k).
Proof.
  revert acc. induction g as [|c g IH]; intros acc Hne; [done|]. simpl.
  intros [Hc Hg]%andb_true_iff Hk. rewrite Hc.
  destruct (plus_group cls (acc ++ [c]) (g ++ rest) k) as [r'|] eqn:Es; [by eexists|].
  destruct g as [|c' g]; [done|].
  assert (is_Some (plus_group cls (acc ++ [c]) ((c' :: g) ++ rest) k)) as [r Hr].
  { apply IH; [done|done|]. by rewrite <- app_assoc. }
  congruence.
Qed.

Lemma search_sound (f : list ascii → option R) s r :
  search f s = Some r → ∃ pre s', s = pre ++ s' ∧ f s' = Some r.
Proof.
  induction s as [|c s IH]; simpl.
  - destruct (f []) eqn:E; [|done]. intros [= ->]. by exists [], [].
  - destruct (f (c :: s)) eqn:E.
    + intros [= ->]. by exists [], (c :: s).
    + intros H. destruct (IH H) as (pre & s' & -> & Hf). by exists (c :: pre), s'.
Qed.

Lemma search_complete (f : list ascii → option R) pre s' :
  is_Some (f s') → is_Some (search f (pre ++ s')).
Proof.
  intros [r Hr]. induction pre as [|c pre IH]; simpl.
  - destruct s'; simpl; rewrite Hr; by eexists.
  - by destruct (f (c :: pre ++ s')).
Qed.
End Matcher.

End ReFacts.

Lemma RE_DATA_MAX_at_sound (s g : list ascii) :
  Re.RE_DATA_MAX_at s = Some g → data_max_at s g.
Proof.
  unfold Re.RE_DATA_MAX_at. intros H.
  apply ReFacts.lit_sound in H as (l1 & s1 & -> & H1 & H).
  apply ReFacts.star_sound in H as (a1 & s2 & -> & Ha1 & H).
  apply ReFacts.lit_sound in H as (l2 & s3 & -> & H2 & H).
  apply ReFacts.star_sound in H as (a2 & s4 & -> & Ha2 & H).
  apply ReFacts.lit_sound in H as (l3 & s5 & -> & H3 & H).
  apply ReFacts.plus_sound in H as (g' & s6 & -> & Hne & Hg & H).
  apply ReFacts.lit_sound in H as (q & rest & -> & Hq & H).
  injection H as <-. simpl.
  exists l1, a1, l2, a2, l3, q, rest. done.
Qed.

Lemma RE_DATA_MAX_at_complete (s g : list ascii) :
  data_max_at s g → is_Some (Re.RE_DATA_MAX_at s).
Proof.
  intros (l1 & a1 & l2 & a2 & l3 & q & rest & -> & H1 & Ha1 & H2 & Ha2 & H3 & Hne & Hg & Hq).
  unfold Re.RE_DATA_MAX_at.
  rewrite <- H1, ReFacts.lit_complete.
  apply ReFacts.star_complete; [done|].
  rewrite <- H2, ReFacts.lit_complete.
  apply ReFacts.star_complete; [done|].
  rewrite <- H3, ReFacts.lit_complete.
  apply ReFacts.plus_complete; [done|done|].
  rewrite <- Hq, ReFacts.lit_complete. by eexists.
Qed.

Lemma max_page_cases (html : string) :
  (∃ g, has_data_max html g ∧ _max_page html = Py.int g)
  ∨ ((∀ g, ¬ has_data_max html g) ∧ _max_page html = 1).
Proof.
  unfold _max_page, Re.RE_DATA_MAX_search.
  destruct (Re.search Re.RE_DATA_MAX_at (Re.chars html)) as [g|] eqn:E.
  - left. exists g. split; [|done].
    apply ReFacts.search_sound in E as (pre & s & Hs & Hat).
    exists pre, s. split; [done|]. by apply RE_DATA_MAX_at_sound.
  - right. split; [|done]. intros g (pre & s & Hs & Hat).
    apply RE_DATA_MAX_at_complete in Hat.
    pose proof (ReFacts.search_complete Re.RE_DATA_MAX_at pre s Hat) as [r Hr].
    rewrite <- Hs in Hr. congruence.
Qed.

Lemma range_length (a b : Z) : length (Py.range a b) = Z.to_nat (b - a).
Proof. unfold Py.range. by rewrite length_map, length_seq. Qed.

Lemma range_lookup (a b : Z) (i : nat) :
  (i < Z.to_nat (b - a))%nat → Py.range a b !! i = Some (a + Z.of_nat i).
Proof.
  intros Hi. unfold Py.range. rewrite list_lookup_fmap.
  rewrite lookup_seq_lt by done. done.
Qed.

Lemma pages_length (lib : urllib) (maxp : Z) :
  length (pages lib maxp) = Z.to_nat (Z.max 1 maxp).
Proof. unfold pages. simpl. rewrite length_map, range_length. lia. Qed.

Lemma pages_lookup (lib : urllib) (maxp p : Z) :
  2 <= p <= maxp →
  pages lib maxp !! Z.to_nat (p - 1) = Some (_set_q lib LIST_URL "page" (Py.str p)).
Proof.
  intros Hp. unfold pages.
  replace (Z.to_nat (p - 1)) with (S (Z.to_nat (p - 2))) by lia. simpl.
  rewrite list_lookup_fmap, range_lookup by lia. simpl. do 3 f_equal. lia.
Qed.

(** ** The pipeline *)

Section PipelineFacts.
Variable cfg : config.
Variable lib : urllib.
Variable prs : parsers.
Variable card : string.

Local Abbreviation step := (step cfg lib prs card).
Local Abbreviation exec := (exec cfg lib prs card).
Local Abbreviation init := (init cfg).
Local Abbreviation task_effect := (task_effect cfg prs).
Local Abbreviation stepped := (stepped cfg lib prs card).
Local Abbreviation threshold_kept := (threshold_kept cfg).
Local Abbreviation reachable_inv := (reachable_inv cfg).

Lemma exec_invariant (I : run_state → Prop) :
  (∀ e s, I s → I (step e s)) → ∀ es s, I s → I (exec es s).
Proof.
  intros Hstep es. induction es as [|e es IH]; intros s Hs; simpl; [done|].
  apply IH. by apply Hstep.
Qed.

Lemma exec_app (es1 es2 : list resumption) (s : run_state) :
  exec (es1 ++ es2) s = exec es2 (exec es1 s).
Proof. revert s. induction es1 as [|e es1 IH]; intros s; simpl; [done|]. apply IH. Qed.

Lemma get_acquire_effect u rnd a w w' res :
  get_acquire cfg u rnd a w = (w', res) → get_effect u w w'.
Proof.
  unfold get_acquire. destruct (Pacer.step _ _ _ _ _) as [p' a'].
  destruct a'; intros [= <- <-]; split; simpl; auto.
Qed.

Lemma get_reply_effect u r w w' res :
  get_reply u r w = (w', res) → get_effect u w w'.
Proof.
  unfold get_reply. destruct r as [text|e]; intros [= <- <-].
  - split; auto.
  - destruct (stop_evt w) eqn:Hs; split; simpl; auto.
    right. split; [done|]. split; [done|]. by exists e.
Qed.

Lemma get_call_effect u rnd w w' res :
  get_call cfg u rnd w = (w', res) → get_effect u w w'.
Proof.
  unfold get_call. destruct (stop_evt w).
  - intros [= <- <-]. split; auto.
  - apply get_acquire_effect.
Qed.

Lemma get_resume_effect u rnd r g w w' res :
  get_resume cfg u rnd r g w = (w', res) → get_effect u w w'.
Proof.
  destruct g; simpl; [apply get_acquire_effect|apply get_reply_effect].
Qed.

Lemma on_error_effect st w :
  error_count (on_error cfg st w) = error_count w + 1 ∧
  stop_evt (on_error cfg st w)
  = match st with
    | Collecting => stop_evt w || (FAIL_ON cfg <=? error_count w + 1)
    | _ => true
    end ∧
  matches (on_error cfg st w) = matches w ∧
  stdout (on_error cfg st w) = stdout w ∧
  requests (on_error cfg st w) = requests w ∧
  clock (on_error cfg st w) = clock w.
Proof.
  unfold on_error. destruct st; simpl; try done.
  rewrite Z.geb_leb. destruct (FAIL_ON cfg <=? error_count w + 1); simpl; try done.
  by rewrite orb_true_r. by rewrite orb_false_r.
Qed.

Lemma on_html_effect st u html w w' :
  on_html prs card st u html w = Py.Ok w' →
  error_count w' = error_count w ∧ stop_evt w' = stop_evt w ∧
  stdout w' = stdout w ∧ requests w' = requests w ∧ clock w' = clock w ∧
  (matches w' = matches w
   ∨ st = Collecting ∧ ∃ rcd, make_record prs u html = Py.Ok rcd
                              ∧ matches w' = matches w ++ [rcd]).
Proof.
  unfold on_html. destruct st.
  - destruct (_extract_standings prs html); intros [= <-]; simpl; auto 10.
  - destruct (_extract_decks prs html); intros [= <-]; simpl; auto 10.
  - destruct (_deck_has_card prs html _) as [[|]|]; try done.
    + destruct (make_record prs u html) as [rcd|] eqn:E; intros [= <-]; simpl.
      repeat split; try done. right. split; [done|]. by exists rcd.
    + intros [= <-]. auto 10.
Qed.

Lemma settle_effect st u ph sem w0 w res w' sem' ph' :
  get_effect u w0 w → (∀ o, ph ≠ Finished o) →
  settle cfg prs card st u sem (w, res) = (w', sem', ph') →
  task_effect st u ph ph' w0 w'.
Proof.
  intros [Hec Hm Ht Hd Hc Hs Hout Hreq] Hph.
  assert (caught_phase ph = false) as Hnc by (destruct ph as [| | |[]]; try done; by destruct (Hph (Caught e))).
  assert (stdout w = stdout w0
          ∨ stop_evt w0 = false ∧ stop_evt w = true
            ∧ ∃ e, stdout w = stdout w0 ++ fail_fast_lines u e) as Hout'.
  { destruct Hout as [[? ?]|?]; auto. }
  pose proof (on_error_effect st w) as (Hoe & Hos & Hom & Hoo & Hor & Hoc).
  assert (stop_evt w = true → stop_evt (on_error cfg st w) = true) as Hmono.
  { intros Hw. rewrite Hos, Hw. by destruct st. }
  assert (∀ o, ph = Finished o → w' = w0 ∧ ph' = ph) as Hfin.
  { intros o ->. by destruct (Hph o). }
  assert (∀ w1, error_count w1 = error_count w + 1 →
                stop_evt w1 = match st with
                              | Collecting => stop_evt w || (FAIL_ON cfg <=? error_count w + 1)
                              | _ => true
                              end →
                (st ≠ Collecting ∨ FAIL_ON cfg <= error_count w1) →
                stop_evt w1 = true) as Hth.
  { intros w1 H1 -> H. destruct st; try done. destruct H as [?|H]; [done|].
    rewrite H1 in H. apply Z.leb_le in H. rewrite H. by rewrite orb_true_r. }
  assert (error_count w = error_count w0 + 0) as Hec0 by lia.
  unfold settle. destruct res as [g|html|[|e]].
  - intros [= <- <- <-]. split; simpl; rewrite ?Hnc, ?andb_false_r; auto.
  - destruct (on_html prs card st u html w) as [w1|e] eqn:E; intros [= <- <- <-].
    + apply on_html_effect in E as (E1 & E2 & E3 & E4 & E5 & E6).
      split; simpl; rewrite ?Hnc, ?andb_false_r, ?E1, ?E2, ?E3, ?E4, ?E5; auto.
      rewrite Hm in E6. destruct E6 as [?|(? & rcd & ? & ?)]; [auto|].
      right. split; [done|]. by exists html, rcd.
    + split; simpl; rewrite ?Hnc, ?Hoo, ?Hor, ?Hoc, ?Hom; auto;
        try (destruct Hout' as [?|(? & ? & ?)]; by auto);
        try (simpl; lia); try (right; by apply Hth).
  - intros [= <- <- <-]. split; simpl; rewrite ?Hnc, ?andb_false_r; auto.
  - intros [= <- <- <-]. split; simpl; rewrite ?Hnc, ?Hoo, ?Hor, ?Hoc, ?Hom; auto;
      try (destruct Hout' as [?|(? & ? & ?)]; by auto);
      try (simpl; lia); try (right; by apply Hth).
Qed.
Lemma task_effect_idle st u ph ph' w :
  caught_phase ph' = false ∨ ph' = ph → (∀ o, ph = Finished o → ph' = ph) →
  task_effect st u ph ph' w w.
Proof.
  intros Hc Hf. split; auto.
  - destruct Hc as [->| ->]; [simpl; lia|].
    destruct (caught_phase ph); simpl; lia.
  - intros o Ho. split; [done|]. by eapply Hf.
Qed.

Lemma task_step_effect st u rnd r ph w sem w' sem' ph' :
  task_step cfg prs card st u rnd r ph w sem = (w', sem', ph') →
  task_effect st u ph ph' w w'.
Proof.
  destruct ph as [| |g|o]; simpl.
  - destruct (stop_evt w).
    { intros [= <- <- <-]. apply task_effect_idle; [by left|done]. }
    destruct sem as [|sem0].
    { intros [= <- <- <-]. apply task_effect_idle; [by left|done]. }
    destruct (get_call cfg u rnd w) as [w1 res] eqn:E.
    apply get_call_effect in E. by apply settle_effect.
  - destruct sem as [|sem0].
    { intros [= <- <- <-]. apply task_effect_idle; [by left|done]. }
    destruct (get_call cfg u rnd w) as [w1 res] eqn:E.
    apply get_call_effect in E. by apply settle_effect.
  - destruct (get_resume cfg u rnd r g w) as [w1 res] eqn:E.
    apply get_resume_effect in E. by apply settle_effect.
  - intros [= <- <- <-]. apply task_effect_idle; [by right|done].
Qed.

Lemma step_stepped (e : resumption) (s : run_state) : stepped e s (step e s).
Proof.
  unfold step. destruct (ctl s) as [|g|st| |] eqn:Hc; destruct (who e) as [|i] eqn:Hw;
    try apply stepped_idle.
  - destruct (get_call _ _ _ _) as [w res] eqn:E. apply get_call_effect in E.
    apply stepped_first; auto.
  - destruct (get_resume _ _ _ _ _ _) as [w res] eqn:E. apply get_resume_effect in E.
    apply stepped_first; eauto.
  - by apply stepped_join.
  - destruct (tasks s !! i) as [[u ph]|] eqn:Hi; [|apply stepped_idle].
    destruct (task_step _ _ _ _ _ _ _ _ _ _) as [[w' sem'] ph'] eqn:E.
    rewrite <- Hc. eapply stepped_task; eauto. by eapply task_step_effect.
Qed.

Lemma exec_stepped_invariant (I : run_state → Prop) :
  (∀ e s s', I s → stepped e s s' → I s') → ∀ es s, I s → I (exec es s).
Proof.
  intros Hstep. apply exec_invariant. intros e s Hs.
  eapply Hstep; [done|]. apply step_stepped.
Qed.

Lemma over_step (e : resumption) (s : run_state) : over s → step e s = s.
Proof. unfold over, step. by destruct (ctl s), (who e). Qed.

Lemma over_exec (es : list resumption) (s : run_state) : over s → exec es s = s.
Proof.
  induction es as [|e es IH]; intros Hs; simpl; [done|]. by rewrite over_step, IH.
Qed.

Lemma join_shared (st : stage) (s : run_state) : shared (join cfg st s) = shared s.
Proof. unfold join. by repeat case_match. Qed.

Lemma after_first_shared (s : run_state) (w : world) (res : get_result) :
  shared (after_first cfg lib s (w, res)) = w.
Proof. by destruct res. Qed.

Lemma join_ctl (st : stage) (s : run_state) :
  ctl s = Gathering st →
  ctl (join cfg st s) = ctl s
  ∨ ctl (join cfg st s) = Raised CancelledError
  ∨ (∃ t d r, ctl (join cfg st s) = Return t d r)
  ∨ stop_evt (shared s) = false
    ∧ (st = Listing ∧ ctl (join cfg st s) = Gathering Expanding
       ∨ st = Expanding ∧ ctl (join cfg st s) = Gathering Collecting).
Proof.
  intros Hc. unfold join.
  destruct (existsb escaped (tasks s)); [by right; left|].
  destruct (forallb finished (tasks s)); [|by left].
  destruct st; simpl.
  - destruct (stop_evt (shared s)); simpl; [right; right; left; eauto|].
    right; right; right. auto.
  - destruct (stop_evt (shared s)); simpl; [right; right; left; eauto|].
    right; right; right. auto.
  - right; right; left; eauto.
Qed.

Lemma no_match_yet_stepped e s s' : no_match_yet s → stepped e s s' → no_match_yet s'.
Proof.
  unfold no_match_yet. intros H Hst.
  inversion Hst as [|w res Hw Hc Hg|st Hw Hc|st i u ph w' sem' ph' Hw Hc Hi _ Hte]; subst.
  - done.
  - destruct Hg as [_ Hm _ _ _ _ _ _]. simpl in Hm.
    assert (matches w = []) as Hw0.
    { rewrite Hm. by destruct Hc as [Hc|[g Hc]]; rewrite Hc in H. }
    unfold after_first. by destruct res.
  - rewrite Hc in H. unfold join. simpl.
    repeat case_match; simpl in *; try done; congruence.
  - simpl. rewrite Hc in *. destruct Hte as [_ _ _ _ _ _ Hm _]. simpl in Hm.
    destruct st; try done; by destruct Hm as [->|[? _]].
Qed.

Lemma announced_once_world (u : string) (w w' : world) :
  (stop_evt w = false → stdout w = []) ∧
  (stdout w = [] ∨ ∃ u e, stdout w = fail_fast_lines u e) →
  (stop_evt w = true → stop_evt w' = true) →
  (stdout w' = stdout w
   ∨ stop_evt w = false ∧ stop_evt w' = true
     ∧ ∃ e, stdout w' = stdout w ++ fail_fast_lines u e) →
  (stop_evt w' = false → stdout w' = []) ∧
  (stdout w' = [] ∨ ∃ u e, stdout w' = fail_fast_lines u e).
Proof.
  intros [H1 H2] Hs [Ho|(Hf & Ht & e & Ho)].
  - rewrite Ho. split; [|done]. intros Hf. apply H1.
    destruct (stop_evt w); [|done]. by rewrite Hs in Hf.
  - rewrite Ho, (H1 Hf). simpl. split; [congruence|]. right. by exists u, e.
Qed.

Lemma announced_once_stepped e s s' : announced_once s → stepped e s s' → announced_once s'.
Proof.
  unfold announced_once. intros H Hst.
  inversion Hst as [|w res Hw Hc Hg|st Hw Hc|st i u ph w' sem' ph' Hw Hc Hi _ Hte]; subst.
  - done.
  - destruct Hg as [_ _ _ _ _ Hs Ho _]. simpl in Hs, Ho. rewrite after_first_shared.
    assert ((stop_evt w = false → stdout w = []) ∧
            (stdout w = [] ∨ ∃ u e, stdout w = fail_fast_lines u e)) as Hw0.
    { eapply (announced_once_world LIST_URL); [exact H|exact Hs|].
      destruct Ho as [[? ?]|?]; auto. }
    done.
  - by rewrite join_shared.
  - simpl. destruct Hte as [_ Hs Ho _ _ _ _ _]. simpl in *.
    by eapply announced_once_world.
Qed.

Lemma ncaught_app (l k : list task) : ncaught (l ++ k) = ncaught l + ncaught k.
Proof. unfold ncaught. rewrite filter_app, length_app. lia. Qed.

Lemma ncaught_spawn (urls : list string) : ncaught (spawn urls) = 0.
Proof.
  unfold ncaught, spawn. induction urls as [|u urls IH]; [done|]. simpl.
  rewrite filter_cons. by case_decide.
Qed.

Lemma ncaught_cons (u : string) (ph : task_phase) (l : list task) :
  ncaught ((u, ph) :: l) = (if caught_phase ph then 1 else 0) + ncaught l.
Proof.
  unfold ncaught. rewrite filter_cons. change (caught (u, ph)) with (caught_phase ph).
  destruct (caught_phase ph); case_decide; simpl; try done; lia.
Qed.

Lemma ncaught_insert (l : list task) (i : nat) (u : string) (ph ph' : task_phase) :
  l !! i = Some (u, ph) →
  ncaught (<[i := (u, ph')]> l)
  = ncaught l + (if caught_phase ph' then 1 else 0) - (if caught_phase ph then 1 else 0).
Proof.
  revert i. induction l as [|[u0 ph0] l IH]; intros i Hi; [done|].
  destruct i as [|i].
  - injection Hi as -> ->.
    change (<[0%nat := (u, ph')]> ((u, ph) :: l)) with ((u, ph') :: l).
    rewrite !ncaught_cons.
    destruct (caught_phase ph), (caught_phase ph'); lia.
  - change (<[S i := (u, ph')]> ((u0, ph0) :: l)) with ((u0, ph0) :: <[i := (u, ph')]> l).
    rewrite !ncaught_cons, (IH _ Hi).
    destruct (caught_phase ph), (caught_phase ph'), (caught_phase ph0); lia.
Qed.

Lemma counted_stepped e s s' : counted s → stepped e s s' → counted s'.
Proof.
  unfold counted. intros [H H0] Hst.
  inversion Hst as [|w res Hw Hc Hg|st Hw Hc|st i u ph w' sem' ph' Hw Hc Hi _ Hte]; subst.
  - done.
  - destruct Hg as [Hec _ _ _ _ _ _ _]. simpl in Hec.
    pose proof (H0 Hc) as [Ht0 He0]. rewrite Ht0 in H.
    rewrite after_first_shared, Hec, H. unfold after_first.
    destruct res; cbn -[pages].
    + split; [by rewrite Ht0|done].
    + split; [|by intros [?|[? ?]]]. by rewrite !ncaught_app, ncaught_spawn.
    + split; [by rewrite Ht0|done].
  - rewrite join_shared. simpl. rewrite H. unfold join. simpl.
    repeat case_match; simpl; (split; [|intros [?|[? ?]]; congruence]); try done;
      rewrite <- ?app_assoc, !ncaught_app, ncaught_spawn; lia.
  - simpl. split; [|intros [?|[? ?]]; congruence].
    destruct Hte as [_ _ _ _ Hec _ _ Hfin]. simpl in Hec.
    rewrite Hec, H, !ncaught_app, (ncaught_insert _ _ _ _ _ Hi).
    destruct (caught_phase ph) eqn:Hph.
    + destruct ph as [| | |[| |x|]]; try done.
      destruct (Hfin _ eq_refl) as [_ ->]. simpl. lia.
    + rewrite andb_true_r. destruct (caught_phase ph'); lia.
Qed.

Lemma threshold_kept_stepped e s s' :
  counted s → threshold_kept s → stepped e s s' → threshold_kept s'.
Proof.
  unfold threshold_kept. intros [Hcnt Hnone] [H1 H2] Hst.
  inversion Hst as [|w res Hw Hc Hg|st Hw Hc|st i u ph w' sem' ph' Hw Hc Hi _ Hte]; subst.
  - done.
  - destruct Hg as [Hec _ _ _ _ Hs _ _]. simpl in Hec, Hs.
    rewrite after_first_shared, Hec.
    assert (error_count (shared s) = 0) as Hz.
    { rewrite Hcnt. by destruct (Hnone Hc) as [-> ->]. }
    split; intros; lia.
  - rewrite join_shared. simpl. split; [done|].
    destruct (join_ctl st (set_shared
      (set_clock (Qmax (clock (shared s)) (at_time e)) (shared s)) s) Hc)
      as [->|[->|[(t & d & r & ->)|(Hf & Hadv)]]]; simpl.
    + done.
    + by intros [?|?].
    + by intros [?|?].
    + simpl in Hf. intros _ Hec. rewrite H2 in Hf; [done| |done].
      rewrite Hc. destruct Hadv as [[-> _]|[-> _]]; auto.
  - simpl. destruct Hte as [_ Hs _ _ _ Hth _ _]. simpl in Hs, Hth.
    rewrite Hc in H2.
    destruct Hth as [Heq|Hth].
    + rewrite Heq. split.
      * intros ? ?. apply Hs. auto.
      * intros Hst' ?. apply Hs. apply H2; [|done]. by rewrite <- Hc.
    + split.
      * intros ? ?. apply Hth. by right.
      * rewrite Hc. intros [[= ->]|[= ->]] _; apply Hth; by left.
Qed.

Lemma records_guarded_stepped e s s' :
  records_guarded s → stepped e s s' → records_guarded s'.
Proof.
  unfold records_guarded. intros H Hst.
  inversion Hst as [|w res Hw Hc Hg|st Hw Hc|st i u ph w' sem' ph' Hw Hc Hi _ Hte]; subst.
  - done.
  - destruct Hg as [_ Hm _ _ _ _ _ _]. simpl in Hm. by rewrite after_first_shared, Hm.
  - by rewrite join_shared.
  - simpl. destruct Hte as [_ _ _ _ _ _ Hm _]. simpl in Hm.
    destruct Hm as [->|(_ & html & rcd & Hr & ->)]; [done|].
    apply Forall_app. split; [done|]. apply Forall_singleton.
    apply make_record_fields in Hr as (? & ? & _). by split.
Qed.

Lemma reachable_inv_init : reachable_inv init.
Proof.
  split.
  - done.
  - split; [done|by left].
  - split; [done|]. done.
  - split; simpl; [lia|]. by intros [?|?].
  - constructor.
Qed.

Lemma reachable_inv_exec (es : list resumption) : reachable_inv (exec es init).
Proof.
  apply exec_stepped_invariant; [|apply reachable_inv_init].
  intros e s s' [H1 H2 H3 H4 H5] Hst. split.
  - by eapply no_match_yet_stepped.
  - by eapply announced_once_stepped.
  - by eapply counted_stepped.
  - by eapply threshold_kept_stepped.
  - by eapply records_guarded_stepped.
Qed.

End PipelineFacts.

(** ** The page count and the listing pages *)

Lemma map_fst_spawn (urls : list string) : map fst (spawn urls) = urls.
Proof. unfold spawn. induction urls as [|u urls IH]; simpl; [done|]. by rewrite IH. Qed.




(** ** The stages *)



(** C5. A call of [_get] with the signal set raises [CancelledError] at
    once and leaves every shared object as it was: the pacer is not
    entered (its window, its lock and its count of starts are those of
    before) and no request is started.  A task that reaches the call that
    way gives its unit of the semaphore back and ends with the error. *)
Theorem get_declines_when_cancelled
    (cfg : config) (prs : parsers) (card : string) (u : string) (rnd : Q) (w : world) :
  stop_evt w = true →
  get_call cfg u rnd w = (w, Raises CancelledError) ∧
  pacer (get_call cfg u rnd w).1 = pacer w ∧
  requests (get_call cfg u rnd w).1 = requests w ∧
  ∀ st r n, task_step cfg prs card st u rnd r SemWait w (S n)
            = (w, S n, Finished Escaped).
Proof.
  intros Hs. unfold task_step, get_call. rewrite Hs. simpl. done.
Qed.

Lemma get_declines_when_cancelled_witness :
  get_call source_config LIST_URL 0
    (shared (exec source_config Example.lib Example.prs "pikachu"
               Example.listing_fails (init source_config))) =
  (shared (exec source_config Example.lib Example.prs "pikachu"
             Example.listing_fails (init source_config)), Raises CancelledError).
Proof.
  apply (get_declines_when_cancelled source_config Example.prs "pikachu").
  vm_compute; reflexivity.
Defined.



(** C2, counterexample.  With the threshold 2, the one failure of a run (the
    request of the only deck, or of the only listing page, times out) sets
    the signal with the count at 1. *)
Lemma single_failure_sets_signal :
  stop_evt (shared (exec Example.threshold_two Example.lib Example.prs "pikachu"
                      Example.leaf_fails (init Example.threshold_two))) = true ∧
  error_count (shared (exec Example.threshold_two Example.lib Example.prs "pikachu"
                         Example.leaf_fails (init Example.threshold_two))) = 1 ∧
  stop_evt (shared (exec Example.threshold_two Example.lib Example.prs "pikachu"
                      Example.listing_fails (init Example.threshold_two))) = true ∧
  error_count (shared (exec Example.threshold_two Example.lib Example.prs "pikachu"
                         Example.listing_fails (init Example.threshold_two))) = 1 ∧
  ¬ signal_iff_threshold.
Proof.
  do 4 (split; [vm_compute; reflexivity|]).
  intros H.
  specialize (H Example.threshold_two Example.lib Example.prs "pikachu" Example.leaf_fails).
  destruct H as [H _]. specialize (H ltac:(vm_compute; reflexivity)).
  vm_compute in H. by apply H.
Qed.

(** C2, amended.  The error counter is the number of tasks whose handler
    ran: each caught failure adds exactly one.  A failing request sets the
    signal whatever the threshold, and so does every handler of the
    listing and expanding stages; the handler of the collecting stage sets
    it when the count has reached the threshold.  Hence, in every state of
    a run, the signal is set once the count is at least one and at least
    the threshold. *)
Theorem failures_counted_and_signalled
    (cfg : config) (lib : urllib) (prs : parsers) (card : string)
    (es : list resumption) :
  error_count (shared (exec cfg lib prs card es (init cfg)))
  = ncaught (earlier (exec cfg lib prs card es (init cfg))
             ++ tasks (exec cfg lib prs card es (init cfg))) ∧
  (1 <= error_count (shared (exec cfg lib prs card es (init cfg))) →
   FAIL_ON cfg <= error_count (shared (exec cfg lib prs card es (init cfg))) →
   stop_evt (shared (exec cfg lib prs card es (init cfg))) = true) ∧
  (∀ u e w, stop_evt (get_reply u (Fails e) w).1 = true) ∧
  (∀ st w,
     error_count (on_error cfg st w) = error_count w + 1 ∧
     stop_evt (on_error cfg st w)
     = match st with
       | Collecting => stop_evt w || (FAIL_ON cfg <=? error_count w + 1)
       | _ => true
       end).
Proof.
  destruct (reachable_inv_exec cfg lib prs card es) as [_ _ [Hc _] [Ht _] _].
  split; [done|]. split; [done|]. split.
  - intros u e w. unfold get_reply. simpl. by destruct (stop_evt w) eqn:E.
  - intros st w. by destruct (on_error_effect cfg st w) as (? & ? & _).
Qed.

Lemma failures_counted_and_signalled_witness :
  stop_evt (shared (exec source_config Example.lib Example.prs "pikachu"
                      Example.listing_fails (init source_config))) = true.
Proof.
  apply (proj1 (proj2 (failures_counted_and_signalled source_config Example.lib
                         Example.prs "pikachu" Example.listing_fails)));
    vm_compute; discriminate.
Defined.

(** C3, on the code.  A collecting stage of 181 decks under the constants
    of the source: one deck has matched and its record is in [matches], the
    request of another times out and sets the signal, and the task that
    waited for the semaphore then calls [_get], whose [CancelledError] no
    handler catches: [run] does not return the record, it raises.  So does
    a run of thirteen listing pages, and a run whose first request fails
    raises the failure. *)
Theorem run_raises_after_cancellation :
  outcome (exec source_config Example.lib Example.prs "pikachu"
             Example.late_leaf (init source_config))
  = (Raised CancelledError, true, 1%nat, 181%nat) ∧
  outcome (exec source_config Example.lib Example.prs "pikachu"
             Example.late_task (init source_config))
  = (Raised CancelledError, true, 0%nat, 0%nat) ∧
  outcome (exec source_config Example.lib Example.prs "pikachu"
             Example.first_fails (init source_config))
  = (Raised (Exc (ClientResponseError 503 "Service Unavailable")), true, 0%nat, 0%nat).
Proof.
  split; [vm_compute; reflexivity|]. split; vm_compute; reflexivity.
Qed.

(** ** The records *)

(** C10.  The quotient of lines 280-281 never raises, and every record a
    run has appended has the win rate [wins / (wins + losses)] when
    [wins + losses] is positive and 0 when it is 0, ties left out, and has
    played [wins + losses + ties]. *)
Theorem record_win_rate_guarded
    (cfg : config) (lib : urllib) (prs : parsers) (card : string)
    (es : list resumption) (r : deck_record) :
  r ∈ matches (shared (exec cfg lib prs card es (init cfg))) →
  (∀ w l, ∃ q, win_rate_of w l = Py.Ok q) ∧
  (0 < wins r + losses r →
   (win_rate r == inject_Z (wins r) / inject_Z (wins r + losses r))%Q) ∧
  (wins r + losses r = 0 → (win_rate r == 0)%Q) ∧
  played r = wins r + losses r + ties r.
Proof.
  intros Hr. destruct (reachable_inv_exec cfg lib prs card es) as [_ _ _ _ Hall].
  unfold records_guarded in Hall. rewrite Forall_forall in Hall.
  destruct (Hall _ Hr) as [Hq Hp].
  apply win_rate_of_value in Hq as [H1 H2].
  split; [apply win_rate_of_total|]. done.
Qed.

Lemma record_win_rate_guarded_witness :
  played {| url := "d1"; player := ""; archetype := "Other"; points := 9; wins := 3;
            losses := 1; ties := 0; dropped := false; win_rate := 3 # 4; played := 4 |}
  = 4.
Proof.
  refine (proj2 (proj2 (proj2 (record_win_rate_guarded source_config Example.lib
                                 Example.prs "pikachu" Example.full_run _ _)))).
  replace (matches _) with
    [ {| url := "d1"; player := ""; archetype := "Other"; points := 9; wins := 3;
         losses := 1; ties := 0; dropped := false; win_rate := 3 # 4; played := 4 |} ]
    by (vm_compute; reflexivity).
  apply list_elem_of_here.
Defined.

(** * Further properties *)

(** ** De-duplication, again *)

Lemma dedupe_NoDup_id (l : list string) : NoDup l → _dedupe_keep_order l = l.
Proof.
  induction l as [|x l IH] using rev_ind; [done|]. intros H.
  apply NoDup_app in H as (Hl & Hx & _). rewrite dedupe_snoc.
  case_decide as Hin.
  - exfalso. apply (Hx x Hin). apply list_elem_of_here.
  - by rewrite IH.
Qed.

Lemma sublist_same_length {A : Type} (l k : list A) :
  l `sublist_of` k → length l = length k → l = k.
Proof.
  induction 1 as [|x l k _ IH|x l k Hs _]; simpl; intros Hlen.
  - done.
  - f_equal. apply IH. lia.
  - apply sublist_length in Hs. lia.
Qed.

(** X1. The lists [_dedupe_keep_order] leaves as they are are those
    without a repeated element, and they are those whose length it keeps;
    it never makes a list longer. *)
Theorem dedupe_fixed_points (l : list string) :
  (_dedupe_keep_order l = l ↔ NoDup l) ∧
  (length (_dedupe_keep_order l) ≤ length l)%nat ∧
  (length (_dedupe_keep_order l) = length l ↔ NoDup l).
Proof.
  split; [|split].
  - split; [intros <-; apply dedupe_NoDup|apply dedupe_NoDup_id].
  - apply sublist_length, dedupe_sublist.
  - split.
    + intros H. rewrite <- (sublist_same_length _ _ (dedupe_sublist l) H).
      apply dedupe_NoDup.
    + intros H. by rewrite dedupe_NoDup_id.
Qed.


(** ** The pacer *)

Lemma filter_insert_length {A : Type} (f : A → bool) (l : list A) (i : nat) (x y : A) :
  l !! i = Some x →
  (length (filter (fun a => f a = true) (<[i := y]> l)) + b2n (f x)
   = length (filter (fun a => f a = true) l) + b2n (f y))%nat.
Proof.
  revert i. induction l as [|a l IH]; intros [|i] Hi; simplify_eq/=.
  - rewrite !filter_cons. destruct (f x), (f y); repeat case_decide; simpl; try done; lia.
  - specialize (IH i Hi). rewrite !filter_cons.
    destruct (f a); repeat case_decide; simpl; try done; lia.
Qed.

Lemma filter_all {A : Type} (P : A → Prop) `{∀ x, Decision (P x)} (l : list A) :
  Forall P l → filter P l = l.
Proof.
  induction 1 as [|x l Hx _ IH]; [done|]. rewrite filter_cons.
  case_decide; [by f_equal|done].
Qed.

Module PacerMoreFacts.
Import Pacer PacerInv PacerMore PacerFacts.

Lemma enter_not_index_error (jm now rnd : Q) (p : FixedPacer) :
  (enter jm now rnd p).2 ≠ IndexError.
Proof.
  unfold enter. destruct (lock p); [done|].
  destruct (Z.of_nat (length (evict now (starts p))) <? Z.pos (rps p)) eqn:Hlt.
  - by destruct (Qlt_bool 0 jm && Qlt_bool 0 ((rnd * 2 - 1) * jm)).
  - apply Z.ltb_ge in Hlt. destruct (evict now (starts p)); [simpl in Hlt; lia|done].
Qed.

Lemma step_not_index_error (jm now rnd : Q) (ph : phase) (p : FixedPacer) :
  ph ≠ IndexError → (step jm now rnd ph p).2 ≠ IndexError.
Proof.
  intros Hph. destruct ph as [|u|u| |]; simpl; try done.
  - apply enter_not_index_error.
  - by destruct (Qle_bool u now).
  - destruct (Qle_bool u now); [apply enter_not_index_error|done].
Qed.

Lemma ascending_app (l k : list Q) :
  ascending (l ++ k)
  ↔ ascending l ∧ ascending k ∧ Forall (fun a => Forall (fun b => (a <= b)%Q) k) l.
Proof.
  induction l as [|t l IH]; simpl.
  - split; [intros H; by repeat split|by intros (_ & H & _)].
  - rewrite Forall_app, IH, Forall_cons. tauto.
Qed.

Lemma ascending_evict (now : Q) (s : list Q) : ascending s → ascending (evict now s).
Proof.
  intros H. destruct (evict_split now s) as (old & Hs & _).
  rewrite Hs in H. by apply ascending_app in H as (_ & H & _).
Qed.

Lemma Forall_evict (P : Q → Prop) (now : Q) (s : list Q) :
  Forall P s → Forall P (evict now s).
Proof.
  intros H. destruct (evict_split now s) as (old & Hs & _).
  rewrite Hs in H. by apply Forall_app in H as [_ H].
Qed.

(** On a window in clock order the loop of lines 84-85 removes every
    stale entry. *)
Lemma evict_filter (now : Q) (s : list Q) :
  ascending s → evict now s = filter (fresh now) s.
Proof.
  induction s as [|t s IH]; [done|]. intros [Hle Hs]. simpl.
  rewrite filter_cons.
  destruct (Qle_bool 1 (now - t)) eqn:E.
  - case_decide as Hf; [unfold fresh in Hf; congruence|]. by apply IH.
  - case_decide as Hf; [|done]. f_equal. symmetry. apply filter_all.
    eapply Forall_impl; [exact Hle|]. simpl. intros t' Ht'. unfold fresh.
    destruct (Qle_bool 1 (now - t')) eqn:E'; [|done].
    apply Qle_bool_iff in E'. apply Qle_bool_false in E. lra.
Qed.

Section Window.
Variable jm : Q.

Lemma window_inv_step (e : event) (s : system) :
  window_inv s → window_inv (sys_step jm e s).
Proof.
  intros [Hasc Hpast Hadm Hnie]. unfold sys_step.
  destruct (callers s !! who e) as [ph|] eqn:Hi; [|done].
  pose proof (step_not_index_error jm (Qmax (clock s) (at_time e)) (rnd e) ph (pacer s))
    as Hne.
  destruct (step jm _ _ ph (pacer s)) as [p' ph'] eqn:Hstep.
  pose proof (Q.le_max_l (clock s) (at_time e)) as Hnow.
  set (now := Qmax (clock s) (at_time e)) in *.
  assert (ph ≠ IndexError) as Hph.
  { rewrite Forall_forall in Hnie. apply Hnie. by eapply list_elem_of_lookup_2. }
  assert (Forall (fun t => (t <= now)%Q) (starts (pacer s))) as Hpast'.
  { eapply Forall_impl; [exact Hpast|]. simpl. intros t Ht. lra. }
  pose proof (filter_insert_length admitted _ _ _ ph' Hi) as Hcount.
  assert (Forall (fun ph0 => ph0 ≠ IndexError) (<[who e := ph']> (callers s))) as Hnie'.
  { apply Forall_insert; [done|]. by apply Hne. }
  apply step_moved in Hstep.
  inversion Hstep as [? ? Hfrom Hpass|u ->|? -> _]; subst.
  - assert (admitted ph = false) as Hna by (by destruct Hfrom as [->|[u ->]]).
    rewrite Hna in Hcount. simpl in Hcount.
    inversion Hpass as [Hl ->|ph0 Hl Hlt Hrps Hst Htot Hto
                       |ph0 Hl Hge Hrps Hst Htot Hl' Hto]; subst; split; simpl;
      try done.
    + simpl in Hcount. lia.
    + rewrite Hst. apply ascending_app. split; [by apply ascending_evict|].
      split; [by split|].
      eapply Forall_impl; [by apply Forall_evict|]. simpl. intros t Ht.
      by constructor.
    + rewrite Hst. apply Forall_app. split; [by apply Forall_evict|].
      constructor; [lra|done].
    + rewrite Htot.
      assert (admitted ph' = true) as Ha by (by destruct Hto as [[-> _]|[[u ->] _]]).
      rewrite Ha in Hcount. simpl in Hcount. lia.
    + rewrite Hst. by apply ascending_evict.
    + rewrite Hst. by apply Forall_evict.
    + rewrite Htot.
      assert (admitted ph' = false) as Ha by (by destruct Hto as [[u ->]| ->]).
      rewrite Ha in Hcount. simpl in Hcount. lia.
  - simpl in Hcount. split; simpl; try done. lia.
  - split; simpl; try done. lia.
Qed.

Lemma window_inv_start (rps0 : Z) (n : nat) : window_inv (start rps0 n).
Proof.
  split; simpl; try done.
  - induction n as [|n IH]; [done|]. simpl. rewrite filter_cons. by case_decide.
  - apply Forall_replicate. done.
Qed.

Lemma window_inv_run (es : list event) (s : system) :
  window_inv s → window_inv (run jm es s).
Proof.
  revert s. induction es as [|e es IH]; intros s Hs; simpl; [done|].
  apply IH. by apply window_inv_step.
Qed.

End Window.


Lemma evict_head_fresh (now : Q) (s : list Q) (t0 : Q) (rest : list Q) :
  evict now s = t0 :: rest → Qle_bool 1 (now - t0) = false.
Proof.
  induction s as [|t s IH]; [done|]. simpl.
  destruct (Qle_bool 1 (now - t)) eqn:E; [done|]. by intros [= <- _].
Qed.

Lemma evict_length (now : Q) (s : list Q) : (length (evict now s) ≤ length s)%nat.
Proof.
  destruct (evict_split now s) as (old & Hs & _).
  rewrite Hs at 2. rewrite length_app. lia.
Qed.

(** The sleep of line 95. *)
Lemma enter_backoff (jm now rnd : Q) (p p' : FixedPacer) (u : Q) :
  Forall (fun t => (t <= now)%Q) (starts p) →
  enter jm now rnd p = (p', BackingOff u) →
  (now + (1 # 1000) <= u)%Q ∧ (u <= now + 1)%Q ∧
  Z.pos (rps p) <= Z.of_nat (length (starts p')) ∧
  ∃ t0 rest, starts p' = t0 :: rest ∧ (t0 + 1 <= u)%Q.
Proof.
  intros Hpast. unfold enter. destruct (lock p); [done|].
  destruct (Z.of_nat (length (evict now (starts p))) <? Z.pos (rps p)) eqn:Hlt.
  { by destruct (Qlt_bool 0 jm && Qlt_bool 0 ((rnd * 2 - 1) * jm)). }
  apply Z.ltb_ge in Hlt.
  destruct (evict now (starts p)) as [|t0 rest] eqn:Hev; [done|].
  intros [= <- <-]. simpl.
  pose proof (evict_head_fresh _ _ _ _ Hev) as Hfresh. apply Qle_bool_false in Hfresh.
  assert (t0 <= now)%Q as Ht0.
  { pose proof (Forall_evict _ now _ Hpast) as H. rewrite Hev in H.
    by apply Forall_cons in H as [H _]. }
  destruct (Q.max_spec (1 # 1000) (1 - (now - t0))) as [[H1 H2]|[H1 H2]];
    (split; [lra|]); (split; [lra|]); (split; [done|]);
    exists t0, rest; (split; [done|lra]).
Qed.

(** The sleep of line 92. *)
Lemma enter_jitter (jm now rnd : Q) (p p' : FixedPacer) (u : Q) :
  enter jm now rnd p = (p', Jittering u) →
  (0 < jm)%Q ∧ (1 # 2 < rnd)%Q ∧ (now < u)%Q ∧ ((rnd < 1)%Q → (u < now + jm)%Q).
Proof.
  unfold enter. destruct (lock p); [done|].
  destruct (Z.of_nat (length (evict now (starts p))) <? Z.pos (rps p)).
  - destruct (Qlt_bool 0 jm) eqn:E1; simpl; [|done].
    destruct (Qlt_bool 0 ((rnd * 2 - 1) * jm)) eqn:E2; [|done].
    intros [= _ <-]. unfold Qlt_bool in *.
    apply negb_true_iff in E1, E2. apply Qle_bool_false in E1, E2.
    split; [done|]. split; [nra|]. split; [lra|]. intros Hr. nra.
  - by destruct (evict now (starts p)).
Qed.

Lemma callers_length_run (jm : Q) (es : list event) (s : system) :
  length (callers (run jm es s)) = length (callers s).
Proof.
  revert s. induction es as [|e es IH]; intros s; simpl; [done|].
  rewrite IH. unfold sys_step. destruct (callers s !! who e); [|done].
  destruct (step jm _ _ _ _). simpl. by rewrite length_insert.
Qed.

End PacerMoreFacts.

(** X2. [acquire] never indexes an empty window: a pass of its loop never
    ends in [IndexError], because the capacity is at least one, so no
    caller is ever there, and a call of [_get] raises nothing but
    [CancelledError] before its request. *)
Theorem acquire_never_raises (jm : Q) (rps0 : Z) (n : nat) (es : list Pacer.event)
    (cfg : config) :
  (∀ now rnd p, (Pacer.enter jm now rnd p).2 ≠ Pacer.IndexError) ∧
  (∀ i, Pacer.callers (Pacer.run jm es (Pacer.start rps0 n)) !! i
        ≠ Some Pacer.IndexError) ∧
  (∀ u rnd w x, (get_call cfg u rnd w).2 ≠ Raises (Exc x)).
Proof.
  split; [apply PacerMoreFacts.enter_not_index_error|]. split.
  - intros i Hi.
    destruct (PacerMoreFacts.window_inv_run jm es _
                (PacerMoreFacts.window_inv_start rps0 n)) as [_ _ _ H].
    rewrite Forall_forall in H. by apply (H _ (list_elem_of_lookup_2 _ _ _ Hi)).
  - intros u rnd w x. unfold get_call, get_acquire.
    destruct (stop_evt w); [done|].
    pose proof (PacerMoreFacts.enter_not_index_error (JITTER_MAX_S cfg) (clock w) rnd
                  (pacer w)) as H.
    simpl. destruct (Pacer.enter _ _ _ _) as [p' a']. simpl in H. by destruct a'.
Qed.

(** X3. A caller backs off only from a full window, sleeps at least one
    millisecond and at most one second, and is not due before the oldest
    start it has seen is one second old. *)
Theorem backoff_sleep_bounded (jm : Q) (rps0 : Z) (n : nat) (es : list Pacer.event)
    (now rnd : Q) (p' : Pacer.FixedPacer) (u : Q) :
  (Pacer.clock (Pacer.run jm es (Pacer.start rps0 n)) <= now)%Q →
  Pacer.enter jm now rnd (Pacer.pacer (Pacer.run jm es (Pacer.start rps0 n)))
  = (p', Pacer.BackingOff u) →
  (now + (1 # 1000) <= u)%Q ∧ (u <= now + 1)%Q ∧
  Z.of_nat (length (Pacer.starts p')) = Z.max 1 rps0 ∧
  ∃ t0 rest, Pacer.starts p' = t0 :: rest ∧ (t0 + 1 <= u)%Q.
Proof.
  intros Hnow He.
  set (s := Pacer.run jm es (Pacer.start rps0 n)) in *.
  destruct (PacerMoreFacts.window_inv_run jm es _
              (PacerMoreFacts.window_inv_start rps0 n)) as [_ Hpast _ _].
  fold s in Hpast.
  assert (Forall (fun t => (t <= now)%Q) (Pacer.starts (Pacer.pacer s))) as Hpast'.
  { eapply Forall_impl; [exact Hpast|]. simpl. intros t Ht. lra. }
  destruct (PacerMoreFacts.enter_backoff _ _ _ _ _ _ Hpast' He) as (H1 & H2 & H3 & H4).
  split; [done|]. split; [done|]. split; [|done].
  pose proof (PacerFacts.enter_pass _ _ _ _ _ _ He) as Hpass.
  pose proof (PacerFacts.rate_inv_run jm es _ (PacerFacts.rate_inv_start rps0 n))
    as [_ Hlen _ _].
  fold s in Hlen.
  assert (Z.pos (Pacer.rps (Pacer.pacer s)) = Z.max 1 rps0) as Hrps.
  { unfold s. rewrite PacerFacts.rps_run. simpl. lia. }
  inversion Hpass as [|ph0 _ _ _ _ _ Hto|ph0 _ Hge _ Hst _ _ _]; subst.
  - by destruct Hto as [[? _]|[[? ?] _]].
  - rewrite Hst. pose proof (PacerMoreFacts.evict_length now
                               (Pacer.starts (Pacer.pacer s))). lia.
Qed.

Lemma backoff_sleep_bounded_witness :
  ((1 # 2) + (1 # 1000) <= (1 # 2) + Qmax (1 # 1000) (1 - ((1 # 2) - 0)))%Q.
Proof.
  refine (proj1 (backoff_sleep_bounded 0 1 2
                   [ {| Pacer.who := 0; Pacer.at_time := 0; Pacer.rnd := 0 |} ]
                   (1 # 2) 0
                   {| Pacer.rps := 1; Pacer.starts := [0%Q]; Pacer.lock := false;
                      Pacer.total_started := 1 |}
                   ((1 # 2) + Qmax (1 # 1000) (1 - ((1 # 2) - 0)))%Q _ _)).
  - vm_compute. discriminate.
  - vm_compute. reflexivity.
Defined.

(** X4. The jitter sleep: a caller sleeps inside the lock only when
    [JITTER_MAX_S] is positive and the draw is above one half, and then for
    a positive time, which is below [JITTER_MAX_S] for a draw below 1. *)
Theorem jitter_sleep_bounded (jm now rnd : Q) (p p' : Pacer.FixedPacer) (u : Q) :
  Pacer.enter jm now rnd p = (p', Pacer.Jittering u) →
  (0 < jm)%Q ∧ (1 # 2 < rnd)%Q ∧ (now < u)%Q ∧ ((rnd < 1)%Q → (u < now + jm)%Q).
Proof. apply PacerMoreFacts.enter_jitter. Qed.

Lemma jitter_sleep_bounded_witness :
  (0 < 0 + ((3 # 4) * 2 - 1) * (5 # 1000))%Q.
Proof.
  refine (proj1 (proj2 (proj2 (jitter_sleep_bounded (5 # 1000) 0 (3 # 4)
                                 (Pacer.init 360) _ _ _)))).
  vm_compute. reflexivity.
Defined.

(** X5. Each caller is admitted at most once: the admissions made are as
    many as the callers that sleep their jitter or have returned, which is
    the value of [total_started], and never more than the callers. *)
Theorem each_caller_admitted_once (jm : Q) (rps0 : Z) (n : nat)
    (es : list Pacer.event) :
  Z.of_nat (length (filter (fun ph => PacerMore.admitted ph = true)
                      (Pacer.callers (Pacer.run jm es (Pacer.start rps0 n)))))
  = Pacer.total_started (Pacer.pacer (Pacer.run jm es (Pacer.start rps0 n))) ∧
  length (Pacer.admissions (Pacer.run jm es (Pacer.start rps0 n)))
  = length (filter (fun ph => PacerMore.admitted ph = true)
              (Pacer.callers (Pacer.run jm es (Pacer.start rps0 n)))) ∧
  (length (Pacer.admissions (Pacer.run jm es (Pacer.start rps0 n))) ≤ n)%nat.
Proof.
  destruct (PacerMoreFacts.window_inv_run jm es _
              (PacerMoreFacts.window_inv_start rps0 n)) as [_ _ Hadm _].
  pose proof (PacerFacts.rate_inv_run jm es _ (PacerFacts.rate_inv_start rps0 n))
    as [_ _ Hcount _].
  pose proof (PacerMoreFacts.callers_length_run jm es (Pacer.start rps0 n)) as Hlen.
  simpl in Hlen. rewrite length_replicate in Hlen.
  pose proof (length_filter (fun ph => PacerMore.admitted ph = true)
                (Pacer.callers (Pacer.run jm es (Pacer.start rps0 n)))) as Hle.
  split; [done|]. split; lia.
Qed.

(** X6. The window is kept in clock order and holds no reading of the
    future, hence the loop of lines 84-85, which pops from the left only,
    leaves exactly the starts that are less than one second old. *)
Theorem eviction_removes_every_stale_start (jm : Q) (rps0 : Z) (n : nat)
    (es : list Pacer.event) (now : Q) :
  PacerMore.ascending (Pacer.starts (Pacer.pacer (Pacer.run jm es (Pacer.start rps0 n)))) ∧
  Forall (fun t => (t <= Pacer.clock (Pacer.run jm es (Pacer.start rps0 n)))%Q)
    (Pacer.starts (Pacer.pacer (Pacer.run jm es (Pacer.start rps0 n)))) ∧
  Pacer.evict now (Pacer.starts (Pacer.pacer (Pacer.run jm es (Pacer.start rps0 n))))
  = filter (PacerMore.fresh now)
      (Pacer.starts (Pacer.pacer (Pacer.run jm es (Pacer.start rps0 n)))).
Proof.
  destruct (PacerMoreFacts.window_inv_run jm es _
              (PacerMoreFacts.window_inv_start rps0 n)) as [Hasc Hpast _ _].
  split; [done|]. split; [done|]. by apply PacerMoreFacts.evict_filter.
Qed.


(** ** The stages *)

Lemma map_fst_spawn_list (urls : list string) : (spawn urls).*1 = urls.
Proof. unfold spawn. induction urls as [|u urls IH]; simpl; [done|]. by f_equal. Qed.

Section PipelineMore.
Variable cfg : config.
Variable lib : urllib.
Variable prs : parsers.
Variable card : string.

Local Abbreviation step := (step cfg lib prs card).
Local Abbreviation exec := (exec cfg lib prs card).
Local Abbreviation init := (init cfg).
Local Abbreviation stepped := (stepped cfg lib prs card).

Lemma count_phase_app (f : task_phase → bool) (l k : list task) :
  count_phase f (l ++ k) = (count_phase f l + count_phase f k)%nat.
Proof. unfold count_phase. by rewrite filter_app, length_app. Qed.

Lemma count_phase_cons (f : task_phase → bool) (u : string) (ph : task_phase)
    (l : list task) :
  count_phase f ((u, ph) :: l) = (b2n (f ph) + count_phase f l)%nat.
Proof.
  unfold count_phase. rewrite filter_cons. simpl.
  destruct (f ph); case_decide; simpl; try done.
Qed.

Lemma count_phase_insert (f : task_phase → bool) (l : list task) (i : nat)
    (u : string) (ph ph' : task_phase) :
  l !! i = Some (u, ph) →
  (count_phase f (<[i := (u, ph')]> l) + b2n (f ph) = count_phase f l + b2n (f ph'))%nat.
Proof.
  revert i. induction l as [|[u0 ph0] l IH]; intros i Hi; [done|].
  destruct i as [|i].
  - injection Hi as -> ->.
    change (<[0%nat := (u, ph')]> ((u, ph) :: l)) with ((u, ph') :: l).
    rewrite !count_phase_cons. lia.
  - change (<[S i := (u, ph')]> ((u0, ph0) :: l)) with ((u0, ph0) :: <[i := (u, ph')]> l).
    rewrite !count_phase_cons. specialize (IH _ Hi). lia.
Qed.

Lemma count_phase_spawn (f : task_phase → bool) (urls : list string) :
  f Created = false → count_phase f (spawn urls) = 0%nat.
Proof.
  intros Hf. unfold spawn. induction urls as [|u urls IH]; [done|]. simpl.
  by rewrite count_phase_cons, Hf, IH.
Qed.

Lemma count_phase_le (f : task_phase → bool) (l : list task) :
  (count_phase f l ≤ length l)%nat.
Proof. apply length_filter. Qed.

Lemma task_step_more st u rnd r ph w sem w' sem' ph' :
  task_step cfg prs card st u rnd r ph w sem = (w', sem', ph') →
  task_more st ph ph' sem sem' w w'.
Proof.
  unfold task_step, settle, get_call, get_resume, get_acquire, get_reply, on_error, on_html.
  intros H.
  repeat (case_match; simplify_eq/=);
    split; simpl; rewrite ?length_app; simpl; auto; try lia; try (left; lia);
    try (intros Hne; by destruct Hne).
Qed.

(** What the resumption of [run] does before the stages. *)
Lemma first_step_more (e : resumption) (s : run_state) :
  who e = Main → (ctl s = Start ∨ ∃ g, ctl s = FirstGet g) →
  (length (requests (shared (step e s))) + b2n (main_requested (ctl s))
   ≤ length (requests (shared s)) + b2n (main_requested (ctl (step e s))))%nat ∧
  error_count (shared (step e s)) = error_count (shared s) ∧
  (stop_evt (shared (step e s)) = stop_evt (shared s)
   ∨ ∃ x, ctl (step e s) = Raised (Exc x)) ∧
  ((∀ st, ctl (step e s) ≠ Gathering st) →
   tasks (step e s) = tasks s ∧ earlier (step e s) = earlier s) ∧
  (∀ st, ctl (step e s) = Gathering st →
         st = Listing ∧ sem (step e s) = CONCURRENCY_PAGES cfg
         ∧ earlier (step e s) = earlier s
         ∧ ∃ urls, tasks (step e s) = spawn urls).
Proof.
  intros Hw Hc. unfold step. rewrite Hw.
  destruct Hc as [->|[g ->]];
    unfold after_first, get_call, get_resume, get_acquire, get_reply;
    repeat (case_match; simplify_eq/=);
    rewrite ?length_app; simpl;
    (split; [lia|]); (split; [done|]); (split; [eauto|]);
    (split; [intros Hst; try done; by destruct (Hst Listing)
            |intros st Hst; try done; simplify_eq; eauto 10]).
  do 3 (split; [done|]). by exists (pages lib (_max_page text)).
Qed.

(** The cases of a resumption, with the state after it named. *)
Ltac step_cases e s s' Es :=
  remember (step e s) as s' eqn:Es;
  let Hst := fresh "Hst" in
  pose proof (step_stepped cfg lib prs card e s) as Hst;
  rewrite <- Es in Hst;
  destruct Hst as [|?w ?res ?Hw ?Hc ?Hg|?st ?Hw ?Hc
                  |?st ?i ?u ?ph ?w' ?sem' ?ph' ?Hw ?Hc ?Hi ?Hts ?Hte].

Lemma sem_conserved_step (e : resumption) (s : run_state) :
  sem_conserved cfg s → sem_conserved cfg (step e s).
Proof.
  intros H. step_cases e s s' Es.
  - done.
  - rewrite Es. destruct (first_step_more e s Hw Hc) as (_ & _ & _ & _ & Hnew).
    intros st Hst. destruct (Hnew _ Hst) as (-> & -> & _ & urls & ->).
    by rewrite count_phase_spawn.
  - intros st' Hst'. specialize (H _ Hc).
    revert Hst'. unfold join. simpl.
    repeat case_match; simpl; intros; simplify_eq; try done; try congruence;
      by rewrite count_phase_spawn.
  - intros st' Hst'. simpl in *. rewrite Hc in Hst'. simplify_eq.
    specialize (H _ Hc). apply task_step_more in Hts as [Hsem _ _ _ _].
    pose proof (count_phase_insert holding _ _ _ _ ph' Hi). lia.
Qed.

Lemma urls_of_app (f : task_phase → bool) (l k : list task) :
  urls_of f (l ++ k) = urls_of f l ++ urls_of f k.
Proof. unfold urls_of. by rewrite filter_app, fmap_app. Qed.

Lemma urls_of_spawn (f : task_phase → bool) (urls : list string) :
  f Created = false → urls_of f (spawn urls) = [].
Proof.
  intros Hf. unfold urls_of, spawn. induction urls as [|u urls IH]; [done|]. simpl.
  rewrite filter_cons. simpl. rewrite Hf. by case_decide.
Qed.

Lemma urls_of_cons (f : task_phase → bool) (u : string) (ph : task_phase)
    (l : list task) :
  urls_of f ((u, ph) :: l) = (if f ph then [u] else []) ++ urls_of f l.
Proof.
  unfold urls_of. rewrite filter_cons. simpl.
  destruct (f ph); case_decide; simpl; done.
Qed.

Lemma urls_of_insert (f : task_phase → bool) (l : list task) (i : nat) (u : string)
    (ph ph' : task_phase) :
  l !! i = Some (u, ph) →
  (f ph' = f ph → urls_of f (<[i := (u, ph')]> l) = urls_of f l) ∧
  (f ph = false → f ph' = true →
   urls_of f (<[i := (u, ph')]> l) ≡ₚ urls_of f l ++ [u]).
Proof.
  revert i. induction l as [|[v q] l IH]; intros [|i] Hi; simplify_eq/=.
  - rewrite !urls_of_cons. split.
    + by intros ->.
    + intros -> ->. simpl. apply Permutation_cons_append.
  - destruct (IH i Hi) as [IH1 IH2]. rewrite !urls_of_cons. split.
    + intros Hq. f_equal. by apply IH1.
    + intros H1 H2. rewrite <- (assoc app). apply Permutation_app_head. by apply IH2.
Qed.

Lemma urls_of_sublist (f : task_phase → bool) (l : list task) :
  urls_of f l `sublist_of` l.*1.
Proof. unfold urls_of. apply fmap_sublist, sublist_filter. Qed.

Lemma fst_insert (l : list task) (i : nat) (u : string) (ph ph' : task_phase) :
  l !! i = Some (u, ph) → (<[i := (u, ph')]> l).*1 = l.*1.
Proof.
  intros Hi. rewrite list_fmap_insert. apply list_insert_id.
  rewrite list_lookup_fmap. unfold task in *. by rewrite Hi.
Qed.

Lemma join_owner (st : stage) (s : run_state) :
  ctl s = Gathering st →
  main_requested (ctl (join cfg st s)) = true ∧
  owner_urls (earlier (join cfg st s) ++ tasks (join cfg st s))
  = owner_urls (earlier s ++ tasks s).
Proof.
  intros Hc. unfold join.
  repeat case_match; simpl; rewrite ?Hc; (split; [done|]); try done;
    by unfold owner_urls; rewrite !urls_of_app, urls_of_spawn, (right_id [] app).
Qed.

Lemma requests_owned_step (e : resumption) (s : run_state) :
  counted s → requests_owned s → requests_owned (step e s).
Proof.
  unfold requests_owned. intros [_ Hnone] H. step_cases e s s' Es.
  - done.
  - rewrite Es.
    destruct (first_step_more e s Hw Hc) as (Hreq & _ & _ & Hsame & Hnew).
    destruct (Hnone Hc) as [Ht He]. rewrite Ht, He in H. simpl in H.
    rewrite (right_id [] app) in H.
    assert (owner_urls (earlier (step e s) ++ tasks (step e s)) = []) as ->.
    { destruct (ctl (step e s)) as [|g|st| |] eqn:Hc';
        try (destruct Hsame as [-> ->]; [done|by rewrite Ht, He]).
      destruct (Hnew _ eq_refl) as (_ & _ & -> & urls & ->).
      rewrite He. simpl. by apply urls_of_spawn. }
    rewrite (right_id [] app).
    assert (requests (shared (step e s)) = requests (shared s)
            ∨ requests (shared (step e s)) = requests (shared s) ++ [LIST_URL])
      as [Hr|Hr].
    { rewrite <- Es, after_first_shared. by destruct Hg as [_ _ _ _ _ _ _ Hr]. }
    + rewrite Hr in *.
      destruct (main_requested (ctl s)), (main_requested (ctl (step e s)));
        simpl in *; try done; try lia.
      etrans; [exact H|apply submseteq_nil_l].
    + rewrite Hr in *. rewrite length_app in Hreq. simpl in Hreq.
      destruct (main_requested (ctl s)), (main_requested (ctl (step e s)));
        simpl in *; try lia.
      apply submseteq_nil_r in H. by rewrite H.
  - rewrite join_shared. simpl. rewrite Hc in H. simpl in H.
    destruct (join_owner st (set_shared
      (set_clock (Qmax (clock (shared s)) (at_time e)) (shared s)) s) Hc) as [-> ->].
    done.
  - simpl. rewrite Hc in *. simpl in *.
    apply task_step_more in Hts as [_ Hreq _ _ _].
    destruct Hte as [_ _ _ Hr _ _ _ _]. simpl in Hreq, Hr.
    unfold owner_urls in *. rewrite urls_of_app in *.
    destruct (urls_of_insert requested _ _ _ _ ph' Hi) as [Hsame Hnew].
    destruct (requested ph) eqn:Eph, (requested ph') eqn:Eph'; simpl in *;
      destruct Hr as [Hr|Hr]; rewrite Hr in *; rewrite ?length_app in Hreq;
      simpl in Hreq; try (destruct Hreq as [?|[? ?]]; [lia|done]);
      try (destruct Hreq as [?|[? ?]]; [lia|]);
      rewrite ?(Hsame eq_refl), ?(Hnew eq_refl eq_refl); try done.
    + etrans; [exact H|].
      by apply submseteq_skip, submseteq_skips_l, submseteq_inserts_r.
    + replace (LIST_URL :: urls_of requested (earlier s)
                        ++ urls_of requested (tasks s) ++ [u])
        with ((LIST_URL :: urls_of requested (earlier s)
                          ++ urls_of requested (tasks s)) ++ [u])
        by (simpl; by rewrite <- (assoc app)).
      by apply submseteq_app.
    + apply (f_equal length) in H0. rewrite length_app in H0. simpl in H0. lia.
Qed.

Lemma lists_kept_step (e : resumption) (s : run_state) :
  no_match_yet s → lists_kept s → lists_kept (step e s).
Proof.
  unfold lists_kept, no_match_yet. intros Hm H. step_cases e s s' Es.
  - done.
  - unfold after_first. by destruct res.
  - rewrite Hc in H, Hm. unfold join. simpl.
    repeat case_match; simpl in *; simplify_eq; try done; try tauto; try congruence;
      rewrite ?map_fst_spawn_list; try tauto.
    + destruct H as [H5 H6]. split; [done|]. right. by rewrite H5.
    + destruct H as (H5 & H6 & H7). split; [done|]. right. by rewrite H5, H6.
  - simpl. rewrite Hc in *. apply task_step_more in Hts as [_ _ Ht Hd _].
    simpl in Ht, Hd.
    pose proof (fst_insert _ _ _ _ ph' Hi) as Hn.
    destruct st; try done.
    + by rewrite Ht, Hn.
    + by rewrite Ht, Hd, Hn.
Qed.

Lemma signal_is_count_step (e : resumption) (s : run_state) :
  counted s → signal_is_count s → signal_is_count (step e s).
Proof.
  unfold signal_is_count. intros [Hcnt _] H. step_cases e s s' Es.
  - done.
  - rewrite Es.
    destruct (first_step_more e s Hw Hc) as (_ & Hec & Hstop & _ & _).
    assert (stop_evt (shared s) = true → 1 <= error_count (shared s)) as Himp.
    { by destruct Hc as [Hc|[g Hc]]; rewrite Hc in H. }
    destruct Hstop as [Hstop|[x Hx]]; [|by rewrite Hx].
    rewrite Hstop, Hec. by destruct (ctl (step e s)) as [| | | |[|x]].
  - rewrite Hc in H. rewrite join_shared. simpl.
    destruct (join_ctl cfg st (set_shared
      (set_clock (Qmax (clock (shared s)) (at_time e)) (shared s)) s) Hc)
      as [->|[->|[(t & d & r & ->)|(_ & [[_ ->]|[_ ->]])]]]; simpl; try done.
    by rewrite Hc.
  - simpl. rewrite Hc in *.
    apply task_step_more in Hts as [_ _ _ _ Hsig]. simpl in Hsig.
    destruct Hte as [_ _ _ _ Hec _ _ _]. simpl in *.
    assert (0 <= error_count (shared s)) as Hpos.
    { rewrite Hcnt. unfold ncaught. lia. }
    destruct (caught_phase ph' && negb (caught_phase ph)); [lia|].
    rewrite Z.add_0_r in Hec. destruct Hsig as [Hsig|?]; [|lia].
    by rewrite Hsig, Hec.
Qed.

Lemma stop_kept_step (e : resumption) (s : run_state) :
  stop_evt (shared s) = true → stop_evt (shared (step e s)) = true.
Proof.
  intros H. step_cases e s s' Es.
  - done.
  - rewrite after_first_shared. destruct Hg as [_ _ _ _ _ Hs _ _]. by apply Hs.
  - by rewrite join_shared.
  - simpl. destruct Hte as [_ Hs _ _ _ _ _ _]. by apply Hs.
Qed.

(** A task appends a record at most once, as it ends without a failure. *)
Lemma task_step_records (st : stage) (u : string) (rnd : Q) (r : response)
    (ph : task_phase) (w : world) (sm : nat) (w' : world) (sm' : nat)
    (ph' : task_phase) :
  task_step cfg prs card st u rnd r ph w sm = (w', sm', ph') →
  (matches w' = matches w ∧ (succeeded ph = true → succeeded ph' = true))
  ∨ (∃ rcd, matches w' = matches w ++ [rcd] ∧ url rcd = u
            ∧ succeeded ph = false ∧ succeeded ph' = true).
Proof.
  unfold task_step, settle, get_call, get_resume, get_acquire, get_reply, on_error,
    on_html.
  intros H. repeat (case_match; simplify_eq/=); try (by left).
  right. eexists. split; [done|]. split; [|done].
  by eapply make_record_fields.
Qed.

Lemma records_owned_step (e : resumption) (s : run_state) :
  no_match_yet s → lists_kept (step e s) → records_owned s → records_owned (step e s).
Proof.
  unfold records_owned, no_match_yet. intros Hm Hl [H1 H2]. step_cases e s s' Es.
  - done.
  - rewrite after_first_shared. destruct Hg as [_ Hmat _ _ _ _ _ _].
    rewrite Hmat. simpl.
    assert (matches (shared s) = []) as ->.
    { by destruct Hc as [Hc|[g Hc]]; rewrite Hc in Hm. }
    split; [apply submseteq_nil_l|by left].
  - rewrite join_shared. simpl. rewrite Hc in Hm. destruct st.
    + rewrite Hm. split; [apply submseteq_nil_l|by left].
    + rewrite Hm. split; [apply submseteq_nil_l|by left].
    + unfold join. simpl. by repeat case_match.
  - unfold lists_kept in Hl. simpl in *. rewrite Hc in *.
    destruct (urls_of_insert succeeded _ _ _ _ ph' Hi) as [Hsame Hnew].
    destruct (task_step_records _ _ _ _ _ _ _ _ _ _ Hts) as [[Hmat Hph]|Hadd];
      simpl in *.
    + rewrite Hmat. split.
      * destruct (succeeded ph) eqn:Eph.
        { by rewrite (Hsame (eq_trans (Hph eq_refl) eq_refl)). }
        destruct (succeeded ph') eqn:Eph'.
        { rewrite (Hnew eq_refl eq_refl). etrans; [exact H1|].
          by apply submseteq_inserts_r. }
        by rewrite (Hsame eq_refl).
      * destruct st; [by left; rewrite Hm| by left; rewrite Hm|].
        right. by destruct Hl as (_ & ? & ?).
    + destruct Hadd as (rcd & Hmat & Hu & Eph & Eph'). rewrite Hmat. split.
      * rewrite fmap_app. simpl. rewrite Hu, (Hnew Eph Eph').
        by apply submseteq_app.
      * destruct st.
        { destruct Hte as [_ _ _ _ _ _ [Hte|[? _]] _]; [|done].
          simpl in Hte. rewrite Hmat, Hm in Hte. symmetry in Hte.
          by apply app_cons_not_nil in Hte. }
        { destruct Hte as [_ _ _ _ _ _ [Hte|[? _]] _]; [|done].
          simpl in Hte. rewrite Hmat, Hm in Hte. symmetry in Hte.
          by apply app_cons_not_nil in Hte. }
        right. by destruct Hl as (_ & ? & ?).
Qed.

(** The admissions of the pacer and the requests. *)
Lemma get_acquire_account u rnd a w w' res :
  waiting a = true → get_acquire cfg u rnd a w = (w', res) →
  Pacer.total_started (pacer w') + Z.of_nat (length (requests w))
  + Z.of_nat (b2n (asleep_get (Acquiring a)))
  = Pacer.total_started (pacer w) + Z.of_nat (length (requests w'))
    + Z.of_nat (b2n (result_asleep res)) ∧
  result_valid res = true.
Proof.
  intros Ha. unfold get_acquire.
  destruct (Pacer.step (JITTER_MAX_S cfg) (clock w) rnd a (pacer w)) as [p' a'] eqn:E.
  apply PacerFacts.step_moved in E.
  inversion E as [ph ph' Hfrom Hpass|t Hp|ph Hp Hph]; subst.
  - assert (asleep_get (Acquiring a) = false) as -> by (by destruct Hfrom as [->|[t ->]]).
    inversion Hpass as [Hl ->|ph0 Hl Hlt Hrps Hst Htot Hto
                       |ph0 Hl Hge Hrps Hst Htot Hl' Hto]; subst.
    + intros [= <- <-]. simpl. split; [lia|done].
    + destruct Hto as [[-> _]|[[t ->] _]]; intros [= <- <-]; simpl;
        rewrite ?length_app; simpl; split; try done; lia.
    + destruct Hto as [[t ->]| ->]; intros [= <- <-]; simpl; split; try done; lia.
  - intros [= <- <-]. simpl. rewrite length_app. simpl. split; [lia|done].
  - destruct a'; try done; intros [= <- <-]; simpl; split; try done; lia.
Qed.

Lemma get_call_account u rnd w w' res :
  get_call cfg u rnd w = (w', res) →
  Pacer.total_started (pacer w') + Z.of_nat (length (requests w))
  = Pacer.total_started (pacer w) + Z.of_nat (length (requests w'))
    + Z.of_nat (b2n (result_asleep res)) ∧
  result_valid res = true.
Proof.
  unfold get_call. destruct (stop_evt w).
  - intros [= <- <-]. simpl. split; [lia|done].
  - intros H. apply get_acquire_account in H as [H1 H2]; [|done].
    simpl in H1. split; [lia|done].
Qed.

Lemma get_resume_account u rnd r g w w' res :
  valid_get g = true → get_resume cfg u rnd r g w = (w', res) →
  Pacer.total_started (pacer w') + Z.of_nat (length (requests w))
  + Z.of_nat (b2n (asleep_get g))
  = Pacer.total_started (pacer w) + Z.of_nat (length (requests w'))
    + Z.of_nat (b2n (result_asleep res)) ∧
  result_valid res = true.
Proof.
  destruct g as [a|]; simpl; intros Hv.
  - by apply get_acquire_account.
  - unfold get_reply. destruct r as [text|x]; intros [= <- <-]; simpl.
    + split; [lia|done].
    + destruct (stop_evt w); simpl; split; try done; lia.
Qed.

Lemma settle_account st u sm w res w' sm' ph' :
  settle cfg prs card st u sm (w, res) = (w', sm', ph') →
  pacer w' = pacer w ∧ requests w' = requests w ∧
  asleep ph' = result_asleep res ∧ valid_phase ph' = result_valid res.
Proof.
  unfold settle. destruct res as [g|html|[|x]].
  - by intros [= <- <- <-].
  - destruct (on_html prs card st u html w) as [w1|x] eqn:E.
    + intros [= <- <- <-]. unfold on_html in E.
      repeat (case_match; simplify_eq/=); done.
    + intros [= <- <- <-]. unfold on_error. by repeat (case_match; simpl).
  - by intros [= <- <- <-].
  - intros [= <- <- <-]. unfold on_error. by repeat (case_match; simpl).
Qed.

Lemma task_step_account st u rnd r ph w sm w' sm' ph' :
  valid_phase ph = true →
  task_step cfg prs card st u rnd r ph w sm = (w', sm', ph') →
  Pacer.total_started (pacer w') + Z.of_nat (length (requests w))
  + Z.of_nat (b2n (asleep ph))
  = Pacer.total_started (pacer w) + Z.of_nat (length (requests w'))
    + Z.of_nat (b2n (asleep ph')) ∧
  valid_phase ph' = true.
Proof.
  intros Hv. unfold task_step.
  assert (∀ sm0, settle cfg prs card st u sm0 (get_call cfg u rnd w) = (w', sm', ph') →
                 Pacer.total_started (pacer w') + Z.of_nat (length (requests w))
                 = Pacer.total_started (pacer w) + Z.of_nat (length (requests w'))
                   + Z.of_nat (b2n (asleep ph')) ∧
                 valid_phase ph' = true) as Hcall.
  { intros sm0 H. destruct (get_call cfg u rnd w) as [w1 res] eqn:E.
    apply get_call_account in E as [E1 E2].
    apply settle_account in H as (-> & -> & -> & ->). done. }
  destruct ph as [| |g|o]; simpl.
  - destruct (stop_evt w); [intros [= <- <- <-]; simpl; split; [lia|done]|].
    destruct sm as [|sm0]; [intros [= <- <- <-]; simpl; split; [lia|done]|].
    intros H. destruct (Hcall _ H). split; [lia|done].
  - destruct sm as [|sm0]; [intros [= <- <- <-]; simpl; split; [lia|done]|].
    intros H. destruct (Hcall _ H). split; [lia|done].
  - intros H. destruct (get_resume cfg u rnd r g w) as [w1 res] eqn:E.
    apply get_resume_account in E as [E1 E2]; [|done].
    apply settle_account in H as (-> & -> & -> & ->). done.
  - intros [= <- <- <-]. simpl. split; [lia|done].
Qed.

Lemma admissions_accounted_step (e : resumption) (s : run_state) :
  counted s → admissions_accounted s → admissions_accounted (step e s).
Proof.
  unfold admissions_accounted. intros [_ Hnone] (Htot & Hmv & Hall).
  step_cases e s s' Es.
  - done.
  - destruct (Hnone Hc) as [Ht He]. rewrite Ht, He in Htot. simpl in Htot.
    unfold count_phase in Htot. simpl in Htot.
    assert (∃ w0 res0 a0,
              Pacer.total_started (pacer w0) + Z.of_nat (length (requests (shared s)))
              + Z.of_nat (b2n a0)
              = Pacer.total_started (pacer (shared s)) + Z.of_nat (length (requests w0))
                + Z.of_nat (b2n (result_asleep res0))
              ∧ result_valid res0 = true ∧ a0 = main_asleep (ctl s)
              ∧ step e s = after_first cfg lib s (w0, res0))
      as (w0 & res0 & a0 & Ha & Hv & -> & Hstep).
    { unfold step. rewrite Hw. destruct Hc as [Hc|[g Hc]]; rewrite Hc in *.
      - destruct (get_call cfg LIST_URL (rnd e) _) as [w0 res0] eqn:E.
        apply get_call_account in E as [E1 E2]. exists w0, res0, false.
        simpl in *. repeat split; try done. lia.
      - destruct (get_resume cfg LIST_URL (rnd e) (reply e) g _) as [w0 res0] eqn:E.
        apply get_resume_account in E as [E1 E2]; [|done]. exists w0, res0, (asleep_get g).
        simpl in *. repeat split; try done. }
    rewrite Es, Hstep. clear Es Hstep Hg.
    unfold after_first. destruct res0 as [g|first|x]; simpl in *.
    + rewrite Ht, He. unfold count_phase. simpl. split; [lia|]. split; done.
    + rewrite He. simpl. rewrite count_phase_cons, count_phase_spawn by done.
      simpl. split; [lia|]. split; [done|]. constructor; [done|].
      unfold spawn. apply Forall_fmap. by apply Forall_true.
    + rewrite Ht, He. unfold count_phase. simpl. split; [lia|]. split; done.
  - rewrite Hc in *. simpl in Htot.
    set (s0 := set_shared (set_clock (Qmax (clock (shared s)) (at_time e)) (shared s)) s).
    assert (main_asleep (ctl (join cfg st s0)) = false
            ∧ main_valid (ctl (join cfg st s0)) = true
            ∧ count_phase asleep (earlier (join cfg st s0) ++ tasks (join cfg st s0))
              = count_phase asleep (earlier s ++ tasks s)
            ∧ Forall (fun t => valid_phase t.2 = true) (tasks (join cfg st s0)))
      as (-> & -> & -> & Hall').
    { unfold join, s0. simpl.
      repeat case_match; simpl; rewrite ?Hc; repeat split; try done;
        rewrite ?count_phase_app, ?count_phase_spawn by done; try lia;
        unfold spawn; apply Forall_fmap; by apply Forall_true. }
    rewrite join_shared. simpl. done.
  - simpl. rewrite Hc in *. simpl in *.
    assert (valid_phase ph = true) as Hv.
    { rewrite Forall_forall in Hall. apply (Hall (u, ph)).
      by eapply list_elem_of_lookup_2. }
    apply task_step_account in Hts as [Ha Hv']; [|done]. simpl in Ha.
    rewrite !count_phase_app in *.
    pose proof (count_phase_insert asleep _ _ _ _ ph' Hi) as Hins.
    split; [|split; [done|]].
    + destruct (asleep ph), (asleep ph'); simpl in *; lia.
    + by apply Forall_insert.
Qed.

(** The invariants of this part, in every state a run reaches. *)
Lemma more_inv_exec (es : list resumption) :
  sem_conserved cfg (exec es init) ∧
  requests_owned (exec es init) ∧
  lists_kept (exec es init) ∧
  signal_is_count (exec es init) ∧
  records_owned (exec es init) ∧
  admissions_accounted (exec es init).
Proof.
  pose proof (exec_invariant cfg lib prs card
    (fun s => reachable_inv cfg s ∧ sem_conserved cfg s ∧ requests_owned s
              ∧ lists_kept s ∧ signal_is_count s ∧ records_owned s
              ∧ admissions_accounted s)) as Hind.
  refine (proj2 (Hind _ es init _)).
  - intros e s ([Hm Ha Hc Ht Hr] & H1 & H2 & H3 & H4 & H5 & H6).
    pose proof (step_stepped cfg lib prs card e s) as Hst.
    split; [|split; [|split; [|split; [|split; [|split]]]]].
    + split.
      * by eapply no_match_yet_stepped.
      * by eapply announced_once_stepped.
      * by eapply counted_stepped.
      * by eapply threshold_kept_stepped.
      * by eapply records_guarded_stepped.
    + by apply sem_conserved_step.
    + by apply requests_owned_step.
    + by apply lists_kept_step.
    + by apply signal_is_count_step.
    + apply records_owned_step; [done| |done]. by apply lists_kept_step.
    + by apply admissions_accounted_step.
  - split; [apply reachable_inv_init|].
    split; [by intros st|]. split; [by unfold requests_owned|]. split; [done|].
    split; [done|]. split; [by split; [|left]|]. by split.
Qed.

End PipelineMore.

(** X7. While a stage runs, the free units of its semaphore and the tasks
    inside their [async with sem] block add up to the value the semaphore
    was created with: at most [CONCURRENCY_PAGES] tasks of the listing and
    expanding stages, and at most [CONCURRENCY_DECKS] tasks of the
    collecting stage, are inside [_get] at any moment. *)
Theorem stage_semaphore_conserved
    (cfg : config) (lib : urllib) (prs : parsers) (card : string)
    (es : list resumption) (st : stage) :
  ctl (exec cfg lib prs card es (init cfg)) = Gathering st →
  (sem (exec cfg lib prs card es (init cfg))
   + count_phase holding (tasks (exec cfg lib prs card es (init cfg))) = cap cfg st)%nat ∧
  (count_phase holding (tasks (exec cfg lib prs card es (init cfg))) ≤ cap cfg st)%nat.
Proof.
  intros Hc. destruct (more_inv_exec cfg lib prs card es) as (Hsem & _).
  specialize (Hsem st Hc). split; [done|lia].
Qed.

Lemma stage_semaphore_conserved_witness :
  (count_phase holding
     (tasks (exec source_config Example.lib Example.prs "pikachu"
               (take 15 Example.late_task) (init source_config)))
   ≤ cap source_config Listing)%nat.
Proof.
  refine (proj2 (stage_semaphore_conserved source_config Example.lib Example.prs
                   "pikachu" (take 15 Example.late_task) Listing _)).
  vm_compute; reflexivity.
Defined.

(** X8. The requests a run has started are, counted with repetition, among
    the first request and one request per task for the URL of the task:
    no task requests twice and nothing is retried, so there are at most
    one more requests than tasks. *)
Theorem one_request_per_task
    (cfg : config) (lib : urllib) (prs : parsers) (card : string)
    (es : list resumption) :
  requests (shared (exec cfg lib prs card es (init cfg)))
  ⊆+ LIST_URL :: (earlier (exec cfg lib prs card es (init cfg))
                  ++ tasks (exec cfg lib prs card es (init cfg))).*1 ∧
  (length (requests (shared (exec cfg lib prs card es (init cfg))))
   ≤ 1 + length (earlier (exec cfg lib prs card es (init cfg))
                 ++ tasks (exec cfg lib prs card es (init cfg))))%nat.
Proof.
  destruct (more_inv_exec cfg lib prs card es) as (_ & Hreq & _).
  unfold requests_owned, owner_urls in Hreq.
  set (s := exec cfg lib prs card es (init cfg)) in *.
  assert (requests (shared s) ⊆+ LIST_URL :: (earlier s ++ tasks s).*1) as H.
  { etrans; [exact Hreq|].
    change (LIST_URL :: (earlier s ++ tasks s).*1)
      with ([LIST_URL] ++ (earlier s ++ tasks s).*1).
    apply submseteq_app.
    - destruct (main_requested (ctl s)); [done|apply submseteq_nil_l].
    - apply sublist_submseteq, urls_of_sublist. }
  split; [done|]. apply submseteq_length in H. simpl in H.
  by rewrite length_fmap in H.
Qed.

(** X9. The signal is never cleared: once set it stays set, whatever is
    resumed afterwards. *)
Theorem signal_never_cleared
    (cfg : config) (lib : urllib) (prs : parsers) (card : string)
    (es rest : list resumption) :
  stop_evt (shared (exec cfg lib prs card es (init cfg))) = true →
  stop_evt (shared (exec cfg lib prs card (es ++ rest) (init cfg))) = true.
Proof.
  intros H. rewrite exec_app.
  revert H. generalize (exec cfg lib prs card es (init cfg)).
  induction rest as [|e rest IH]; intros s H; simpl; [done|].
  apply IH. by apply stop_kept_step.
Qed.

Lemma signal_never_cleared_witness :
  stop_evt (shared (exec source_config Example.lib Example.prs "pikachu"
                      (Example.listing_fails ++ [Example.main 4 (Body "")])
                      (init source_config))) = true.
Proof.
  apply (signal_never_cleared source_config Example.lib Example.prs "pikachu"
           Example.listing_fails [Example.main 4 (Body "")]).
  vm_compute; reflexivity.
Defined.

(** X10. What [run] returns: the records are the list [matches], and the
    two counts are the numbers of distinct tournaments and of distinct
    decks collected, or 0 and 0 with no record and the signal set (the
    return of line 244). *)
Theorem run_returns_distinct_counts
    (cfg : config) (lib : urllib) (prs : parsers) (card : string)
    (es : list resumption) (t d : nat) (r : list deck_record) :
  ctl (exec cfg lib prs card es (init cfg)) = Return t d r →
  r = matches (shared (exec cfg lib prs card es (init cfg))) ∧
  (t = 0%nat ∧ d = 0%nat ∧ r = []
   ∧ stop_evt (shared (exec cfg lib prs card es (init cfg))) = true
   ∨ t = length (_dedupe_keep_order
                   (tourneys (shared (exec cfg lib prs card es (init cfg))))) ∧
     d = length (_dedupe_keep_order
                   (deck_urls (shared (exec cfg lib prs card es (init cfg)))))).
Proof.
  intros Hc. destruct (more_inv_exec cfg lib prs card es) as (_ & _ & Hl & _).
  unfold lists_kept in Hl. by rewrite Hc in Hl.
Qed.

Lemma run_returns_distinct_counts_witness :
  2%nat = length (_dedupe_keep_order
                    (deck_urls (shared (exec source_config Example.lib Example.prs
                                          "pikachu" Example.full_run
                                          (init source_config))))).
Proof.
  destruct (run_returns_distinct_counts source_config Example.lib Example.prs
              "pikachu" Example.full_run 1 2
              [ {| url := "d1"; player := ""; archetype := "Other"; points := 9;
                   wins := 3; losses := 1; ties := 0; dropped := false;
                   win_rate := 3 # 4; played := 4 |} ])
    as [_ [(_ & H & _)|[_ H]]].
  - vm_compute; reflexivity.
  - discriminate H.
  - exact H.
Defined.

(** X11. The tasks of the expanding stage are the distinct tournaments and
    those of the collecting stage the distinct decks, one task each, in the
    order of first occurrence: no URL has two tasks in a stage. *)
Theorem stage_tasks_are_distinct
    (cfg : config) (lib : urllib) (prs : parsers) (card : string)
    (es : list resumption) (st : stage) :
  ctl (exec cfg lib prs card es (init cfg)) = Gathering st → st ≠ Listing →
  (tasks (exec cfg lib prs card es (init cfg))).*1
  = _dedupe_keep_order
      (match st with
       | Expanding => tourneys (shared (exec cfg lib prs card es (init cfg)))
       | _ => deck_urls (shared (exec cfg lib prs card es (init cfg)))
       end) ∧
  NoDup (tasks (exec cfg lib prs card es (init cfg))).*1.
Proof.
  intros Hc Hst. destruct (more_inv_exec cfg lib prs card es) as (_ & _ & Hl & _).
  unfold lists_kept in Hl. rewrite Hc in Hl. destruct st; [done| |].
  - destruct Hl as [H1 H2]. rewrite H2, H1. split; [done|apply dedupe_NoDup].
  - destruct Hl as (H1 & H2 & H3). rewrite H3, H2. split; [done|apply dedupe_NoDup].
Qed.

Lemma stage_tasks_are_distinct_witness :
  NoDup (tasks (exec source_config Example.lib Example.prs "pikachu"
                  Example.to_collecting (init source_config))).*1.
Proof.
  refine (proj2 (stage_tasks_are_distinct source_config Example.lib Example.prs
                   "pikachu" Example.to_collecting Collecting _ _)).
  - vm_compute; reflexivity.
  - discriminate.
Defined.

(** X12. The signal is set by a failure only: when it is set, either the
    first request has failed, which [run] raises, or a handler has counted
    a failure. *)
Theorem signal_set_by_failure_only
    (cfg : config) (lib : urllib) (prs : parsers) (card : string)
    (es : list resumption) :
  stop_evt (shared (exec cfg lib prs card es (init cfg))) = true →
  1 <= error_count (shared (exec cfg lib prs card es (init cfg)))
  ∨ ∃ x, ctl (exec cfg lib prs card es (init cfg)) = Raised (Exc x).
Proof.
  intros H. destruct (more_inv_exec cfg lib prs card es) as (_ & _ & _ & Hs & _).
  unfold signal_is_count in Hs.
  destruct (ctl (exec cfg lib prs card es (init cfg))) as [| | | |[|x]];
    try (left; by apply Hs).
  right. by exists x.
Qed.

Lemma signal_set_by_failure_only_witness :
  1 <= error_count (shared (exec source_config Example.lib Example.prs "pikachu"
                              Example.listing_fails (init source_config)))
  ∨ ∃ x, ctl (exec source_config Example.lib Example.prs "pikachu"
                Example.listing_fails (init source_config)) = Raised (Exc x).
Proof.
  apply (signal_set_by_failure_only source_config Example.lib Example.prs "pikachu"
           Example.listing_fails).
  vm_compute; reflexivity.
Defined.

Lemma records_among_decks
    (cfg : config) (lib : urllib) (prs : parsers) (card : string)
    (es : list resumption) :
  url <$> matches (shared (exec cfg lib prs card es (init cfg)))
  ⊆+ urls_of succeeded (tasks (exec cfg lib prs card es (init cfg))) ∧
  NoDup (url <$> matches (shared (exec cfg lib prs card es (init cfg)))) ∧
  (∀ r, r ∈ matches (shared (exec cfg lib prs card es (init cfg))) →
        url r ∈ _dedupe_keep_order
                  (deck_urls (shared (exec cfg lib prs card es (init cfg))))).
Proof.
  destruct (more_inv_exec cfg lib prs card es) as (_ & _ & _ & _ & [Hsub Hd] & _).
  set (s := exec cfg lib prs card es (init cfg)) in *.
  split; [done|]. destruct Hd as [Hd|[Hn Hu]].
  - rewrite Hd. split; [constructor|]. intros r Hr. by apply elem_of_nil in Hr.
  - assert (url <$> matches (shared s) ⊆+ _dedupe_keep_order (deck_urls (shared s)))
      as Hall.
    { etrans; [exact Hsub|]. rewrite <- Hu, <- Hn.
      apply sublist_submseteq, urls_of_sublist. }
    split.
    + apply submseteq_sublist_r in Hall as (l2 & Hp & Hl2). rewrite Hp.
      eapply sublist_NoDup; [apply dedupe_NoDup|exact Hl2].
    + intros r Hr. eapply elem_of_submseteq; [|exact Hall].
      apply list_elem_of_fmap. by exists r.
Qed.

(** X13. No deck is reported twice: the URLs of the records are, counted
    with repetition, among the URLs of the tasks that ended without a
    failure, so they are pairwise distinct and each is one of the distinct
    decks. *)
Theorem one_record_per_deck
    (cfg : config) (lib : urllib) (prs : parsers) (card : string)
    (es : list resumption) :
  url <$> matches (shared (exec cfg lib prs card es (init cfg)))
  ⊆+ urls_of succeeded (tasks (exec cfg lib prs card es (init cfg))) ∧
  NoDup (url <$> matches (shared (exec cfg lib prs card es (init cfg)))) ∧
  (∀ r, r ∈ matches (shared (exec cfg lib prs card es (init cfg))) →
        url r ∈ _dedupe_keep_order
                  (deck_urls (shared (exec cfg lib prs card es (init cfg))))).
Proof. apply records_among_decks. Qed.

(** X14. No request without an admission: the count [total_started] of the
    pacer of a run is the number of requests started plus the number of
    callers asleep in the jitter of line 92, which have been admitted and
    have yet to start their request; so the requests started are never
    more than the admissions. *)
Theorem every_request_is_admitted
    (cfg : config) (lib : urllib) (prs : parsers) (card : string)
    (es : list resumption) :
  Pacer.total_started (pacer (shared (exec cfg lib prs card es (init cfg))))
  = Z.of_nat (length (requests (shared (exec cfg lib prs card es (init cfg)))))
    + Z.of_nat (b2n (main_asleep (ctl (exec cfg lib prs card es (init cfg))))
                + count_phase asleep (earlier (exec cfg lib prs card es (init cfg))
                                      ++ tasks (exec cfg lib prs card es (init cfg)))) ∧
  Z.of_nat (length (requests (shared (exec cfg lib prs card es (init cfg)))))
  <= Pacer.total_started (pacer (shared (exec cfg lib prs card es (init cfg)))).
Proof.
  destruct (more_inv_exec cfg lib prs card es) as (_ & _ & _ & _ & _ & Hacc & _).
  split; lia.
Qed.

(** ** File names *)

Lemma safe_char_not_space (c : ascii) : safe_char c = true → PyStr.isspace c = false.
Proof. destruct c as [[] [] [] [] [] [] [] []]; vm_compute; congruence. Qed.

Lemma safe_char_lower (c : ascii) : safe_char c = true → PyStr.lower_char c = c.
Proof. destruct c as [[] [] [] [] [] [] [] []]; vm_compute; congruence. Qed.

Lemma sub_unsafe_safe (b : bool) (s : list ascii) :
  Forall (fun c => safe_char c = true) (sub_unsafe b s).
Proof.
  revert b. induction s as [|c s IH]; intros b; simpl; [constructor|].
  destruct (safe_char c) eqn:E; [by constructor|].
  destruct b; [done|]. by constructor.
Qed.

Lemma sub_unsafe_id (b : bool) (s : list ascii) :
  Forall (fun c => safe_char c = true) s → sub_unsafe b s = s.
Proof.
  intros H. revert b. induction H as [|c s Hc _ IH]; intros b; simpl; [done|].
  by rewrite Hc, IH.
Qed.

Lemma sub_unsafe_length (b : bool) (s : list ascii) :
  (length (sub_unsafe b s) ≤ length s)%nat.
Proof.
  revert b. induction s as [|c s IH]; intros b; simpl; [done|].
  destruct (safe_char c); simpl; [specialize (IH false); lia|].
  destruct b; simpl; [specialize (IH true); lia|specialize (IH true); lia].
Qed.

Lemma lstrip_id (s : list ascii) :
  head s ≫= (fun c => Some (PyStr.isspace c)) ≠ Some true → PyStr.lstrip s = s.
Proof. destruct s as [|c s]; simpl; [done|]. by destruct (PyStr.isspace c). Qed.

Lemma lstrip_safe (s : list ascii) :
  Forall (fun c => safe_char c = true) s → PyStr.lstrip s = s.
Proof.
  intros H. destruct H as [|c s Hc _]; simpl; [done|].
  by rewrite (safe_char_not_space _ Hc).
Qed.

Lemma strip_safe (s : list ascii) :
  Forall (fun c => safe_char c = true) s → PyStr.strip s = s.
Proof.
  intros H. unfold PyStr.strip, PyStr.rstrip. rewrite (lstrip_safe _ H).
  rewrite lstrip_safe; [apply reverse_involutive|]. by apply Forall_reverse.
Qed.

Lemma lower_safe (s : list ascii) :
  Forall (fun c => safe_char c = true) s → PyStr.lower s = s.
Proof.
  induction 1 as [|c s Hc _ IH]; simpl; [done|].
  by rewrite (safe_char_lower _ Hc), IH.
Qed.

Lemma lstrip_length (s : list ascii) : (length (PyStr.lstrip s) ≤ length s)%nat.
Proof.
  induction s as [|c s IH]; simpl; [done|]. destruct (PyStr.isspace c); simpl; lia.
Qed.

Lemma strip_length (s : list ascii) : (length (PyStr.strip s) ≤ length s)%nat.
Proof.
  unfold PyStr.strip, PyStr.rstrip. rewrite length_reverse.
  etrans; [apply lstrip_length|]. rewrite length_reverse. apply lstrip_length.
Qed.

Lemma safe_filename_chars_safe (name : list ascii) :
  Forall (fun c => safe_char c = true) (safe_filename_chars name).
Proof.
  unfold safe_filename_chars.
  pose proof (sub_unsafe_safe false (PyStr.lower (PyStr.strip name))) as H.
  destruct (sub_unsafe false _); [|done].
  repeat constructor.
Qed.

Lemma safe_filename_chars_fixed (s : list ascii) :
  s ≠ [] → Forall (fun c => safe_char c = true) s → safe_filename_chars s = s.
Proof.
  intros Hne H. unfold safe_filename_chars.
  rewrite (strip_safe _ H), (lower_safe _ H), (sub_unsafe_id _ _ H).
  by destruct s.
Qed.

Lemma safe_filename_chars_nonempty (name : list ascii) : safe_filename_chars name ≠ [].
Proof. unfold safe_filename_chars. by destruct (sub_unsafe false _). Qed.

Lemma chars_length (s : string) : length (Re.chars s) = String.length s.
Proof. induction s as [|c s IH]; simpl; [done|]. by f_equal. Qed.

Lemma chars_of_list (l : list ascii) : Re.chars (string_of_list_ascii l) = l.
Proof. apply list_ascii_of_string_of_list_ascii. Qed.


(** ** The link scrapers *)

Module ScraperFacts.
Import Re Scraper.

Lemma consumed_app (a b : list ascii) : consumed (a ++ b) b = a.
Proof.
  unfold consumed. rewrite length_app.
  replace (length a + length b - length b)%nat with (length a) by lia.
  apply take_app_length.
Qed.

Lemma lower_dq (c : ascii) : Py.lower c = dq → c = dq.
Proof. destruct c as [[] [] [] [] [] [] [] []]; vm_compute; congruence. Qed.

Lemma lower_not_in (l pat : list ascii) :
  map Py.lower l = pat → dq ∉ pat → dq ∉ l.
Proof.
  intros <- Hn Hin. apply Hn. apply list_elem_of_fmap. by exists dq.
Qed.

Lemma class_not_in (g : list ascii) : forallb not_quote_slash g = true → dq ∉ g.
Proof.
  intros H Hin. rewrite forallb_forall in H.
  apply list_elem_of_In in Hin. specialize (H _ Hin). by vm_compute in H.
Qed.

Lemma first_quote (l1 r1 l2 r2 : list ascii) :
  dq ∉ l1 → dq ∉ l2 → l1 ++ dq :: r1 = l2 ++ dq :: r2 → l1 = l2 ∧ r1 = r2.
Proof.
  revert l2. induction l1 as [|c l1 IH]; intros [|c2 l2] H1 H2 H; simpl in H.
  - by injection H as ->.
  - injection H as <- _. by apply not_elem_of_cons in H2 as [? _].
  - injection H as -> _. by apply not_elem_of_cons in H1 as [? _].
  - injection H as -> H.
    apply not_elem_of_cons in H1 as [_ H1]. apply not_elem_of_cons in H2 as [_ H2].
    destruct (IH _ H1 H2 H) as [-> ->]. done.
Qed.

(** The opening of a link: five characters that read [href=] and the
    quote. *)
Lemma href_shape (h : list ascii) :
  map Py.lower h = href_eq →
  ∃ a, h = a ++ [dq] ∧ map Py.lower a = chars "href=" ∧ (dq ∉ a) ∧ a ≠ [].
Proof.
  intros H. do 7 (destruct h as [|? h]; try done).
  injection H as H1 H2 H3 H4 H5 H6. apply lower_dq in H6 as ->.
  eexists [_; _; _; _; _]. split; [done|]. split; [simpl; congruence|]. split; [|done].
  eapply lower_not_in; [simpl; by rewrite H1, H2, H3, H4, H5|]. vm_compute.
  intros Hin. repeat (apply elem_of_cons in Hin as [Hin|Hin]; [done|]).
  by apply elem_of_nil in Hin.
Qed.

Lemma href_last (a : list ascii) :
  map Py.lower a = chars "href=" → ∃ a0 c, a = a0 ++ [c] ∧ Py.lower c = "="%char.
Proof.
  intros H. do 6 (destruct a as [|? a]; try done).
  injection H as H1 H2 H3 H4 H5. by eexists [_; _; _; _], _.
Qed.

Lemma standings_link_path (p : list ascii) : standings_path p → link_path p.
Proof.
  intros (l1 & g & l2 & -> & H1 & _ & Hg & H2). split.
  - rewrite !not_elem_of_app. split; [|split].
    + eapply lower_not_in; [exact H1|]. vm_compute. intros Hin.
      repeat (apply elem_of_cons in Hin as [Hin|Hin]; [done|]).
      by apply elem_of_nil in Hin.
    + by apply class_not_in.
    + eapply lower_not_in; [exact H2|]. vm_compute. intros Hin.
      repeat (apply elem_of_cons in Hin as [Hin|Hin]; [done|]).
      by apply elem_of_nil in Hin.
  - do 11 (destruct l2 as [|? l2]; try done).
    injection H2 as _ _ _ _ _ _ _ _ _ H2.
    eexists (l1 ++ g ++ [_; _; _; _; _; _; _; _; _]), _. split.
    + by rewrite <- !app_assoc.
    + rewrite H2. done.
Qed.

Lemma decklist_link_path (p : list ascii) : decklist_path p → link_path p.
Proof.
  intros (l1 & g1 & l2 & g2 & l3 & -> & H1 & _ & Hg1 & H2 & _ & Hg2 & H3). split.
  - rewrite !not_elem_of_app.
    repeat split; try (by apply class_not_in);
      (eapply lower_not_in; [eassumption|]; vm_compute; intros Hin;
       repeat (apply elem_of_cons in Hin as [Hin|Hin]; [done|]);
       by apply elem_of_nil in Hin).
  - do 10 (destruct l3 as [|? l3]; try done).
    injection H3 as _ _ _ _ _ _ _ _ H3.
    eexists (l1 ++ g1 ++ l2 ++ g2 ++ [_; _; _; _; _; _; _; _]), _. split.
    + by rewrite <- !app_assoc.
    + rewrite H3. done.
Qed.

(** Two links do not overlap. *)
Lemma links_apart (a g rest x a' g' rest' : list ascii) :
  map Py.lower a = chars "href=" → map Py.lower a' = chars "href=" →
  dq ∉ a → dq ∉ a' → link_path g →
  a ++ dq :: g ++ dq :: rest = x ++ a' ++ dq :: g' ++ dq :: rest' →
  x ≠ [] → (length rest < length (a' ++ dq :: g' ++ dq :: rest'))%nat → False.
Proof.
  intros Ha Ha' Hna Hna' [Hng (g0 & c & Hg & Hc)] Heq Hx Hlen.
  assert (length a = length a') as Hla.
  { apply (f_equal length) in Ha, Ha'. rewrite length_map in Ha, Ha'. congruence. }
  set (t' := a' ++ dq :: g' ++ dq :: rest') in *.
  symmetry in Heq. apply app_eq_app in Heq as [k [[Hxa Hk]|[Hak Hk]]].
  - (* the second link starts at or after the first quote *)
    destruct k as [|q k].
    + simpl in Hk. subst t'.
      assert (a' = [] ∧ g' ++ dq :: rest' = g ++ dq :: rest) as [-> _].
      { apply (first_quote a' _ [] _); [done|apply not_elem_of_nil|]. by rewrite <- Hk. }
      done.
    + injection Hk as <- Hk.
      symmetry in Hk. apply app_eq_app in Hk as [j [[Hkj Hj]|[Hgk Hj]]].
      * (* at or after the second quote *)
        destruct j as [|q j].
        { simpl in Hj. subst t'.
          assert (a' = [] ∧ g' ++ dq :: rest' = rest) as [-> _].
          { apply (first_quote a' _ [] _); [done|apply not_elem_of_nil|].
            by rewrite <- Hj. }
          done. }
        injection Hj as <- Hj. rewrite Hj, length_app in Hlen. lia.
      * (* inside the group *)
        subst t'.
        assert (a' = j ∧ g' ++ dq :: rest' = rest) as [<- _].
        { apply first_quote; [done| |done].
          rewrite Hgk in Hng. by apply not_elem_of_app in Hng as [_ ?]. }
        destruct (href_last _ Ha') as (a0 & c' & -> & Hc').
        rewrite Hg in Hgk. rewrite app_assoc in Hgk.
        apply app_inj_tail in Hgk as [_ ->]. done.
  - (* the second link starts before the first quote *)
    subst t'.
    assert (a' = k ∧ g' ++ dq :: rest' = g ++ dq :: rest) as [-> _].
    { apply first_quote; [done| |done].
      rewrite Hak in Hna. by apply not_elem_of_app in Hna as [_ ?]. }
    rewrite Hak, length_app in Hla. destruct x; [done|simpl in Hla; lia].
Qed.

Section Finditer.
Variable at_pos : list ascii → option (list ascii * list ascii).
Variable path : list ascii → Prop.
Hypothesis at_sound : ∀ t g rest,
  at_pos t = Some (g, rest) →
  ∃ h, t = h ++ g ++ dq :: rest ∧ map Py.lower h = href_eq ∧ path g.
Hypothesis at_complete : ∀ h p post,
  map Py.lower h = href_eq → path p → is_Some (at_pos (h ++ p ++ dq :: post)).
Hypothesis path_link : ∀ p, path p → link_path p.

Lemma at_shorter (t g rest : list ascii) :
  at_pos t = Some (g, rest) → (length rest < length t)%nat.
Proof.
  intros H. destruct (at_sound _ _ _ H) as (h & -> & _ & _).
  rewrite !length_app. simpl. lia.
Qed.

Lemma at_apart (t g rest x t' : list ascii) :
  at_pos t = Some (g, rest) → t = x ++ t' → x ≠ [] →
  (length rest < length t')%nat → at_pos t' = None.
Proof.
  intros H Ht Hx Hlen. destruct (at_pos t') as [[g' rest']|] eqn:E; [|done].
  exfalso.
  destruct (at_sound _ _ _ H) as (h & Hh & Hh1 & Hp).
  destruct (at_sound _ _ _ E) as (h' & Hh' & Hh1' & Hp').
  destruct (href_shape _ Hh1) as (a & -> & Ha & Hna & _).
  destruct (href_shape _ Hh1') as (a' & -> & Ha' & Hna' & _).
  rewrite <- !app_assoc in Hh, Hh'. simpl in Hh, Hh'.
  eapply (links_apart a g rest x a' g' rest'); eauto.
  - by rewrite <- Hh, <- Hh'.
  - by rewrite <- Hh'.
Qed.

(** The group of a link is the text up to its closing quote. *)
Lemma at_group (h p post g rest : list ascii) :
  map Py.lower h = href_eq → path p →
  at_pos (h ++ p ++ dq :: post) = Some (g, rest) → g = p.
Proof.
  intros Hh Hp H. destruct (at_sound _ _ _ H) as (h' & Heq & Hh' & Hg).
  assert (length h = length h') as Hl.
  { apply (f_equal length) in Hh, Hh'. rewrite length_map in Hh, Hh'. congruence. }
  apply app_inj_1 in Heq as [_ Heq]; [|done].
  apply first_quote in Heq as [Heq _]; [done| |].
  - by destruct (path_link _ Hp).
  - by destruct (path_link _ Hg).
Qed.

Lemma finditer_from_sound (k : nat) (s g : list ascii) :
  g ∈ finditer_from at_pos k s →
  ∃ pre t rest, s = pre ++ t ∧ at_pos t = Some (g, rest).
Proof.
  revert k. induction s as [|c s IH]; intros k; simpl.
  { intros H. by apply elem_of_nil in H. }
  destruct k as [|k].
  - destruct (at_pos (c :: s)) as [[g0 rest0]|] eqn:E.
    + intros [->|H]%elem_of_cons.
      * by exists [], (c :: s), rest0.
      * destruct (IH _ H) as (pre & t & rest & -> & Ht). by exists (c :: pre), t, rest.
    + intros H. destruct (IH _ H) as (pre & t & rest & -> & Ht).
      by exists (c :: pre), t, rest.
  - intros H. destruct (IH _ H) as (pre & t & rest & -> & Ht).
    by exists (c :: pre), t, rest.
Qed.

Lemma finditer_from_complete (k : nat) (s pre t g rest : list ascii) :
  (∀ x t', s = x ++ t' → (length x < k)%nat → at_pos t' = None) →
  s = pre ++ t → at_pos t = Some (g, rest) → g ∈ finditer_from at_pos k s.
Proof.
  revert k pre. induction s as [|c s IH]; intros k pre Hk Hs Ht.
  { destruct pre; [|done]. simpl in Hs. subst t.
    apply at_shorter in Ht. simpl in Ht. lia. }
  simpl. destruct k as [|k].
  - destruct (at_pos (c :: s)) as [[g0 rest0]|] eqn:E.
    + destruct pre as [|c' pre].
      * simpl in Hs. subst t. rewrite E in Ht. injection Ht as -> ->. apply list_elem_of_here.
      * injection Hs as -> Hs. apply list_elem_of_further.
        apply (IH _ pre); [|done|done].
        intros x t' Hx Hlt. apply (at_apart _ _ _ (c' :: x) t' E); [by rewrite Hx|done|].
        apply (f_equal length) in Hx. rewrite length_app in Hx.
        apply at_shorter in E. simpl in *. lia.
    + destruct pre as [|c' pre].
      * simpl in Hs. subst t. congruence.
      * injection Hs as -> Hs. apply (IH _ pre); [|done|done].
        intros x t' _ Hlt. lia.
  - destruct pre as [|c' pre].
    + simpl in Hs. subst t. rewrite (Hk [] (c :: s)) in Ht; [done|done|simpl; lia].
    + injection Hs as -> Hs. apply (IH _ pre); [|done|done].
      intros x t' Hx Hlt. apply (Hk (c' :: x)); [by rewrite Hx|simpl; lia].
Qed.

(** The links a scraper returns are those of the page, each once. *)
Lemma extract_links (html : string) (u : string) :
  u ∈ dedupe_loop (map absolute (finditer at_pos html)) ∅ []
  ↔ ∃ p, u = absolute p ∧ path p ∧ linked html p.
Proof.
  change (dedupe_loop (map absolute (finditer at_pos html)) ∅ [])
    with (_dedupe_keep_order (map absolute (finditer at_pos html))).
  rewrite dedupe_elem_of, list_elem_of_fmap. unfold finditer. split.
  - intros (g & -> & Hg). exists g. split; [done|].
    apply finditer_from_sound in Hg as (pre & t & rest & Hs & Ht).
    destruct (at_sound _ _ _ Ht) as (h & -> & Hh & Hp).
    split; [done|]. by exists pre, h, rest.
  - intros (p & -> & Hp & pre & h & post & Hs & Hh). exists p. split; [done|].
    destruct (at_complete h p post Hh Hp) as [[g rest] Hat].
    pose proof (at_group _ _ _ _ _ Hh Hp Hat) as ->.
    eapply (finditer_from_complete 0 _ pre); [|exact Hs|exact Hat].
    intros x t' _ Hlt. lia.
Qed.

End Finditer.

Lemma RE_TOURNEY_STANDINGS_at_sound (t g rest : list ascii) :
  RE_TOURNEY_STANDINGS_at t = Some (g, rest) →
  ∃ h, t = h ++ g ++ dq :: rest ∧ map Py.lower h = href_eq ∧ standings_path g.
Proof.
  unfold RE_TOURNEY_STANDINGS_at. intros H.
  apply ReFacts.lit_sound in H as (h & s1 & -> & Hh & H).
  apply ReFacts.lit_sound in H as (l1 & s2 & -> & H1 & H).
  apply ReFacts.plus_sound in H as (m & s3 & -> & Hne & Hm & H).
  apply ReFacts.lit_sound in H as (l2 & s4 & -> & H2 & H).
  apply ReFacts.lit_sound in H as (q & s5 & -> & Hq & H).
  injection H as <- <-.
  destruct q as [|q [|? ?]]; try done. injection Hq as Hq. apply lower_dq in Hq as ->.
  replace (l1 ++ m ++ l2 ++ [dq] ++ s5) with ((l1 ++ m ++ l2) ++ [dq] ++ s5)
    by (by rewrite <- !app_assoc).
  rewrite consumed_app. exists h. split; [done|]. split; [done|].
  by exists l1, m, l2.
Qed.

Lemma RE_TOURNEY_STANDINGS_at_complete (h p post : list ascii) :
  map Py.lower h = href_eq → standings_path p →
  is_Some (RE_TOURNEY_STANDINGS_at (h ++ p ++ dq :: post)).
Proof.
  intros Hh (l1 & m & l2 & -> & H1 & Hne & Hm & H2).
  unfold RE_TOURNEY_STANDINGS_at.
  rewrite <- Hh, ReFacts.lit_complete. rewrite <- !app_assoc.
  rewrite <- H1, ReFacts.lit_complete.
  apply ReFacts.plus_complete; [done|done|].
  rewrite <- H2, ReFacts.lit_complete.
  change (dq :: post) with ([dq] ++ post).
  change [dq] with (map Py.lower [dq]) at 1.
  rewrite ReFacts.lit_complete. by eexists.
Qed.

Lemma RE_DECKLIST_at_sound (t g rest : list ascii) :
  RE_DECKLIST_at t = Some (g, rest) →
  ∃ h, t = h ++ g ++ dq :: rest ∧ map Py.lower h = href_eq ∧ decklist_path g.
Proof.
  unfold RE_DECKLIST_at. intros H.
  apply ReFacts.lit_sound in H as (h & s1 & -> & Hh & H).
  apply ReFacts.lit_sound in H as (l1 & s2 & -> & H1 & H).
  apply ReFacts.plus_sound in H as (m1 & s3 & -> & Hne1 & Hm1 & H).
  apply ReFacts.lit_sound in H as (l2 & s4 & -> & H2 & H).
  apply ReFacts.plus_sound in H as (m2 & s5 & -> & Hne2 & Hm2 & H).
  apply ReFacts.lit_sound in H as (l3 & s6 & -> & H3 & H).
  apply ReFacts.lit_sound in H as (q & s7 & -> & Hq & H).
  injection H as <- <-.
  destruct q as [|q [|? ?]]; try done. injection Hq as Hq. apply lower_dq in Hq as ->.
  replace (l1 ++ m1 ++ l2 ++ m2 ++ l3 ++ [dq] ++ s7)
    with ((l1 ++ m1 ++ l2 ++ m2 ++ l3) ++ [dq] ++ s7)
    by (by rewrite <- !app_assoc).
  rewrite consumed_app. exists h. split; [done|]. split; [done|].
  by exists l1, m1, l2, m2, l3.
Qed.

Lemma RE_DECKLIST_at_complete (h p post : list ascii) :
  map Py.lower h = href_eq → decklist_path p →
  is_Some (RE_DECKLIST_at (h ++ p ++ dq :: post)).
Proof.
  intros Hh (l1 & m1 & l2 & m2 & l3 & -> & H1 & Hne1 & Hm1 & H2 & Hne2 & Hm2 & H3).
  unfold RE_DECKLIST_at.
  rewrite <- Hh, ReFacts.lit_complete. rewrite <- !app_assoc.
  rewrite <- H1, ReFacts.lit_complete.
  apply ReFacts.plus_complete; [done|done|].
  rewrite <- H2, ReFacts.lit_complete.
  apply ReFacts.plus_complete; [done|done|].
  rewrite <- H3, ReFacts.lit_complete.
  change (dq :: post) with ([dq] ++ post).
  change [dq] with (map Py.lower [dq]) at 1.
  rewrite ReFacts.lit_complete. by eexists.
Qed.

End ScraperFacts.

Lemma extract_standings_in (html u : string) :
  u ∈ Scraper._extract_standings html
  ↔ ∃ p, u = Scraper.absolute p ∧ Scraper.standings_path p ∧ Scraper.linked html p.
Proof.
  apply ScraperFacts.extract_links.
  - apply ScraperFacts.RE_TOURNEY_STANDINGS_at_sound.
  - apply ScraperFacts.RE_TOURNEY_STANDINGS_at_complete.
  - apply ScraperFacts.standings_link_path.
Qed.

Lemma extract_decks_in (html u : string) :
  u ∈ Scraper._extract_decks html
  ↔ ∃ p, u = Scraper.absolute p ∧ Scraper.decklist_path p ∧ Scraper.linked html p.
Proof.
  apply ScraperFacts.extract_links.
  - apply ScraperFacts.RE_DECKLIST_at_sound.
  - apply ScraperFacts.RE_DECKLIST_at_complete.
  - apply ScraperFacts.decklist_link_path.
Qed.



Section ScrapedLinks.
Variable cfg : config.
Variable lib : urllib.
Variable prs : parsers.
Variable card : string.

Lemma task_step_links (st : stage) (u : string) (rnd : Q) (r : response)
    (ph : task_phase) (w : world) (sm : nat) (w' : world) (sm' : nat)
    (ph' : task_phase) :
  task_step cfg (with_scrapers prs) card st u rnd r ph w sm = (w', sm', ph') →
  (tourneys w' = tourneys w
   ∨ ∃ html, tourneys w' = tourneys w ++ Scraper._extract_standings html) ∧
  (deck_urls w' = deck_urls w
   ∨ ∃ html, deck_urls w' = deck_urls w ++ Scraper._extract_decks html).
Proof.
  unfold task_step, settle, get_call, get_resume, get_acquire, get_reply, on_error,
    on_html.
  intros H. repeat (case_match; simplify_eq/=); split; eauto.
Qed.

Lemma links_scraped_step (e : resumption) (s : run_state) :
  links_scraped s → links_scraped (step cfg lib (with_scrapers prs) card e s).
Proof.
  unfold links_scraped. intros [Ht Hd].
  pose proof (step_stepped cfg lib (with_scrapers prs) card e s) as Hst.
  remember (step cfg lib (with_scrapers prs) card e s) as s' eqn:Es.
  destruct Hst as [|w res Hw Hc Hg|st Hw Hc
                  |st i u ph w' sem' ph' Hw Hc Hi Hts Hte].
  - done.
  - rewrite after_first_shared. destruct Hg as [_ _ Ht' Hd' _ _ _ _].
    by rewrite Ht', Hd'.
  - by rewrite join_shared.
  - simpl. destruct (task_step_links _ _ _ _ _ _ _ _ _ _ Hts) as [H1 H2].
    simpl in H1, H2. split.
    + destruct H1 as [->|[html ->]]; [done|]. apply Forall_app. split; [done|].
      apply Forall_forall. intros x Hx.
      apply extract_standings_in in Hx as (p & -> & Hp & _). by exists p.
    + destruct H2 as [->|[html ->]]; [done|]. apply Forall_app. split; [done|].
      apply Forall_forall. intros x Hx.
      apply extract_decks_in in Hx as (p & -> & Hp & _). by exists p.
Qed.

Lemma links_scraped_exec (es : list resumption) :
  links_scraped (exec cfg lib (with_scrapers prs) card es (init cfg)).
Proof.
  apply (exec_invariant cfg lib (with_scrapers prs) card links_scraped).
  - apply links_scraped_step.
  - by split.
Qed.

End ScrapedLinks.


(** ** The elapsed time *)

Lemma inject_lt_le (x y : Z) : (inject_Z x < inject_Z y + 1)%Q → x <= y.
Proof.
  intros H. destruct (Z_le_gt_dec x y) as [Hc|Hc]; [done|]. exfalso.
  assert (y + 1 <= x) as Hc' by lia.
  rewrite Zle_Qle, inject_Z_plus in Hc'. change (inject_Z 1) with 1%Q in Hc'. lra.
Qed.

Lemma py_round_near (q : Q) :
  (inject_Z (py_round q) - (1 # 2) <= q)%Q ∧ (q <= inject_Z (py_round q) + (1 # 2))%Q.
Proof.
  unfold py_round. pose proof (Qfloor_le q) as H1. pose proof (Qlt_floor q) as H2.
  rewrite inject_Z_plus in H2. change (inject_Z 1) with 1%Q in H2.
  destruct (Qcompare_spec (q - inject_Z (Qfloor q)) (1 # 2)) as [E|E|E].
  - destruct (Z.even (Qfloor q)).
    + split; lra.
    + rewrite inject_Z_plus. change (inject_Z 1) with 1%Q. split; lra.
  - split; lra.
  - rewrite inject_Z_plus. change (inject_Z 1) with 1%Q. split; lra.
Qed.

(** Rounding stays between the integers around the number, and reaches
    an even upper one from half a unit below it. *)
Lemma py_round_between (q : Q) (a b : Z) :
  (inject_Z a <= q)%Q → (q < inject_Z b)%Q → Z.even b = true →
  a <= py_round q <= b ∧ (py_round q = b ↔ (inject_Z b - (1 # 2) <= q)%Q).
Proof.
  intros Ha Hb Heven.
  pose proof (Qfloor_le q) as H1. pose proof (Qlt_floor q) as H2.
  rewrite inject_Z_plus in H2. change (inject_Z 1) with 1%Q in H2.
  assert (a <= Qfloor q) as Hfa.
  { rewrite <- (Qfloor_Z a). by apply Qfloor_resp_le. }
  assert (Qfloor q < b) as Hfb.
  { rewrite Zlt_Qlt. lra. }
  assert ((inject_Z b - (1 # 2) <= q)%Q → b = Qfloor q + 1) as Htop.
  { intros Hq. assert (b <= Qfloor q + 1); [|lia].
    apply inject_lt_le. rewrite inject_Z_plus. change (inject_Z 1) with 1%Q. lra. }
  unfold py_round.
  destruct (Qcompare_spec (q - inject_Z (Qfloor q)) (1 # 2)) as [E|E|E].
  - destruct (Z.even (Qfloor q)) eqn:Ev.
    + split; [lia|]. split; [lia|]. intros Hq. specialize (Htop Hq).
      rewrite Htop, Z.even_add, Ev in Heven. done.
    + split; [lia|]. split.
      * intros <-. rewrite inject_Z_plus. change (inject_Z 1) with 1%Q. lra.
      * intros Hq. by rewrite (Htop Hq).
  - split; [lia|]. split; [lia|]. intros Hq. specialize (Htop Hq).
    rewrite Htop, inject_Z_plus in Hq. change (inject_Z 1) with 1%Q in Hq. lra.
  - split; [lia|]. split.
    + intros <-. rewrite inject_Z_plus. change (inject_Z 1) with 1%Q. lra.
    + intros Hq. by rewrite (Htop Hq).
Qed.

Lemma floor_div_60 (s : Q) :
  (inject_Z (Qfloor (s / 60) * 60) <= s)%Q ∧
  (s < inject_Z (Qfloor (s / 60) * 60) + 60)%Q.
Proof.
  pose proof (Qfloor_le (s / 60)) as H1. pose proof (Qlt_floor (s / 60)) as H2.
  rewrite inject_Z_plus in H2. change (inject_Z 1) with 1%Q in H2.
  rewrite inject_Z_mult. change (inject_Z 60) with 60%Q.
  assert (s == s / 60 * 60)%Q as E by field. split; nra.
Qed.

Lemma Qlt_bool_true (x y : Q) : Pacer.Qlt_bool x y = true ↔ (x < y)%Q.
Proof.
  unfold Pacer.Qlt_bool. rewrite negb_true_iff. split.
  - apply PacerFacts.Qle_bool_false.
  - intros H. destruct (Qle_bool y x) eqn:E; [|done]. apply Qle_bool_iff in E. lra.
Qed.

Lemma Qlt_bool_false (x y : Q) : Pacer.Qlt_bool x y = false ↔ (y <= x)%Q.
Proof.
  unfold Pacer.Qlt_bool. rewrite negb_false_iff. apply Qle_bool_iff.
Qed.

(** X19. From one minute on, [_format_elapsed] prints the whole minutes, a
    colon and the rest rounded to whole seconds on two digits.  The
    minutes are at least 1, the seconds printed are between 0 and 60 and
    within half a second of the rest; they are 60, not 0 of the next
    minute, exactly when the rest is 59.5 seconds or more. *)
Theorem format_elapsed_minutes (seconds : Q) :
  (60 <= seconds)%Q →
  _format_elapsed seconds
  = Py.str (elapsed_parts seconds).1 +:+ ":" +:+ pad2 (elapsed_parts seconds).2 ∧
  1 <= (elapsed_parts seconds).1 ∧
  (inject_Z ((elapsed_parts seconds).1 * 60) <= seconds)%Q ∧
  (seconds < inject_Z ((elapsed_parts seconds).1 * 60) + 60)%Q ∧
  0 <= (elapsed_parts seconds).2 <= 60 ∧
  (inject_Z ((elapsed_parts seconds).1 * 60 + (elapsed_parts seconds).2) - (1 # 2)
   <= seconds)%Q ∧
  (seconds
   <= inject_Z ((elapsed_parts seconds).1 * 60 + (elapsed_parts seconds).2) + (1 # 2))%Q ∧
  ((elapsed_parts seconds).2 = 60
   ↔ (inject_Z ((elapsed_parts seconds).1 * 60) + (119 # 2) <= seconds)%Q).
Proof.
  intros Hs. unfold _format_elapsed.
  assert (Pacer.Qlt_bool seconds 60 = false) as -> by (by apply Qlt_bool_false).
  split; [done|]. unfold elapsed_parts. cbn [fst snd].
  set (m := Qfloor (seconds / 60)).
  destruct (floor_div_60 seconds) as [H1 H2]. fold m in H1, H2.
  set (rest := (seconds - inject_Z (m * 60))%Q).
  assert (inject_Z 0 <= rest)%Q as Hr0 by (unfold rest; change (inject_Z 0) with 0%Q; lra).
  assert (rest < inject_Z 60)%Q as Hr1
    by (unfold rest; change (inject_Z 60) with 60%Q; lra).
  destruct (py_round_between rest 0 60 Hr0 Hr1 eq_refl) as [Hb Htop].
  destruct (py_round_near rest) as [N1 N2].
  split.
  { assert (1 <= m); [|done]. apply inject_lt_le.
    rewrite inject_Z_mult in H2. change (inject_Z 60) with 60%Q in H2.
    change (inject_Z 1) with 1%Q. lra. }
  split; [done|]. split; [done|]. split; [done|].
  rewrite inject_Z_plus. unfold rest in *. split; [lra|]. split; [lra|].
  rewrite Htop. change (inject_Z 60) with 60%Q. split; intros H; lra.
Qed.

Lemma format_elapsed_minutes_witness :
  _format_elapsed (239 # 2) = "1:60".
Proof.
  rewrite (proj1 (format_elapsed_minutes (239 # 2) ltac:(by vm_compute))).
  vm_compute. reflexivity.
Defined.

(** X20. Below one minute, and from 0 on, [_format_elapsed] prints the
    hundredths of a second nearest to the time, as seconds, a point, two
    digits and the letter s.  They reach 6000, which prints 60.00s,
    exactly from 59.995 seconds on. *)
Theorem format_elapsed_seconds (seconds : Q) :
  (0 <= seconds)%Q → (seconds < 60)%Q →
  _format_elapsed seconds
  = (Py.str (py_round (seconds * 100) / 100) +:+ "."
     +:+ pad2 (py_round (seconds * 100) mod 100)) +:+ "s" ∧
  0 <= py_round (seconds * 100) <= 6000 ∧
  (inject_Z (py_round (seconds * 100)) - (1 # 2) <= seconds * 100)%Q ∧
  (seconds * 100 <= inject_Z (py_round (seconds * 100)) + (1 # 2))%Q ∧
  (py_round (seconds * 100) = 6000 ↔ (11999 # 200 <= seconds)%Q).
Proof.
  intros H0 H60. unfold _format_elapsed, fixed2.
  assert (Pacer.Qlt_bool seconds 60 = true) as -> by (by apply Qlt_bool_true).
  assert (Pacer.Qlt_bool seconds 0 = false) as -> by (by apply Qlt_bool_false).
  split; [reflexivity|].
  assert (inject_Z 0 <= seconds * 100)%Q as Ha by (change (inject_Z 0) with 0%Q; lra).
  assert (seconds * 100 < inject_Z 6000)%Q as Hb
    by (change (inject_Z 6000) with 6000%Q; lra).
  destruct (py_round_between _ 0 6000 Ha Hb eq_refl) as [Hbound Htop].
  destruct (py_round_near (seconds * 100)) as [N1 N2].
  split; [done|]. split; [done|]. split; [done|].
  rewrite Htop. change (inject_Z 6000) with 6000%Q. split; intros H; lra.
Qed.

Lemma format_elapsed_seconds_witness :
  _format_elapsed (1 # 8) = "0.12s".
Proof.
  rewrite (proj1 (format_elapsed_seconds (1 # 8) ltac:(by vm_compute)
                    ltac:(by vm_compute))).
  vm_compute. reflexivity.
Defined.

(** ** The groups of the report *)

Lemma concat_Permutation {A : Type} (l k : list (list A)) :
  l ≡ₚ k → concat l ≡ₚ concat k.
Proof.
  induction 1 as [|x l k _ IH|x y l|l k m _ IH1 _ IH2]; simpl.
  - done.
  - by rewrite IH.
  - rewrite !(assoc app). f_equiv. apply Permutation_app_comm.
  - by rewrite IH1.
Qed.

Lemma setdefault_append_keys (k : string) (m : deck_record) (G : groups_t) :
  (setdefault_append k m G).*1
  = if decide (k ∈ G.*1) then G.*1 else G.*1 ++ [k].
Proof.
  induction G as [|[k' l] G IH]; [done|].
  cbn [setdefault_append]. destruct (decide (k' = k)) as [->|Hne].
  - rewrite !fmap_cons. cbn [fst]. by rewrite decide_True by apply list_elem_of_here.
  - rewrite !fmap_cons. cbn [fst]. rewrite IH. destruct (decide (k ∈ G.*1)).
    + by rewrite decide_True by (by apply list_elem_of_further).
    + rewrite decide_False; [done|]. intros [?|?]%elem_of_cons; congruence.
Qed.

Lemma setdefault_append_perm (k : string) (m : deck_record) (G : groups_t) :
  concat (setdefault_append k m G).*2 ≡ₚ concat G.*2 ++ [m].
Proof.
  induction G as [|[k' l] G IH]; simpl; [done|].
  destruct (decide (k' = k)) as [->|Hne]; simpl.
  - rewrite <- !(assoc app). f_equiv. apply Permutation_app_comm.
  - by rewrite IH, (assoc app).
Qed.

Lemma setdefault_append_ok (m : deck_record) (G : groups_t) :
  Forall group_ok G → Forall group_ok (setdefault_append (archetype m) m G).
Proof.
  induction G as [|[k' l] G IH]; simpl; intros H.
  - constructor; [|done]. split; [done|]. by constructor.
  - apply Forall_cons in H as [[H1 H2] H]. simpl in *.
    destruct (decide (k' = archetype m)) as [->|Hne].
    + constructor; [|done]. split; simpl.
      * by destruct l.
      * apply Forall_app. split; [done|]. by constructor.
    + constructor; [by split|]. by apply IH.
Qed.

Lemma setdefault_append_NoDup (k : string) (m : deck_record) (G : groups_t) :
  NoDup G.*1 → NoDup (setdefault_append k m G).*1.
Proof.
  intros H. rewrite setdefault_append_keys. case_decide as Hk; [done|].
  apply NoDup_app. split; [done|]. split; [|apply NoDup_singleton].
  intros x Hx Hx'. apply list_elem_of_singleton in Hx'. by subst.
Qed.

Lemma group_loop_spec (ms : list deck_record) (G : groups_t) :
  NoDup G.*1 → Forall group_ok G →
  NoDup (group_loop ms G).*1 ∧ Forall group_ok (group_loop ms G) ∧
  concat (group_loop ms G).*2 ≡ₚ concat G.*2 ++ ms.
Proof.
  revert G. induction ms as [|m ms IH]; intros G Hn Hok; simpl.
  - by rewrite (right_id [] app).
  - destruct (IH (setdefault_append (archetype m) m G)) as (H1 & H2 & H3).
    + by apply setdefault_append_NoDup.
    + by apply setdefault_append_ok.
    + split; [done|]. split; [done|].
      rewrite H3, setdefault_append_perm. by rewrite <- (assoc app).
Qed.

Lemma key_compare_antisym (a b : deck_record) :
  key_compare b a = CompOpp (key_compare a b).
Proof.
  unfold key_compare. rewrite <- (Qcompare_antisym (win_rate a) (win_rate b)).
  destruct (win_rate a ?= win_rate b)%Q; simpl; try done.
  rewrite (Z.compare_antisym (points a) (points b)).
  destruct (points a ?= points b); simpl; try done.
  apply Z.compare_antisym.
Qed.

Lemma key_ge_total (a b : deck_record) : key_ge a b = false → key_ge b a = true.
Proof.
  unfold key_ge. rewrite (key_compare_antisym a b).
  by destruct (key_compare a b).
Qed.

Lemma insert_desc_perm (x : deck_record) (l : list deck_record) :
  insert_desc x l ≡ₚ x :: l.
Proof.
  induction l as [|y l IH]; simpl; [done|].
  destruct (key_ge y x); [|done]. rewrite IH. apply Permutation_swap.
Qed.

Lemma insert_desc_chain (x : deck_record) (l : list deck_record) :
  chain (fun a b => key_ge a b = true) l →
  chain (fun a b => key_ge a b = true) (insert_desc x l).
Proof.
  induction l as [|y l IH]; simpl; [done|]. intros H.
  destruct (key_ge y x) eqn:E.
  - assert (chain (fun a b => key_ge a b = true) l) as Hl.
    { destruct l; [done|]. by destruct H. }
    specialize (IH Hl). destruct l as [|z l]; simpl in *.
    + done.
    + destruct H as [Hyz _]. destruct (key_ge z x); simpl; by split.
  - split; [by apply key_ge_total|done].
Qed.

Lemma sort_loop_spec (l acc : list deck_record) :
  chain (fun a b => key_ge a b = true) acc →
  sort_loop l acc ≡ₚ acc ++ l ∧ chain (fun a b => key_ge a b = true) (sort_loop l acc).
Proof.
  revert acc. induction l as [|x l IH]; intros acc H; simpl.
  - by rewrite (right_id [] app).
  - destruct (IH (insert_desc x acc) (insert_desc_chain _ _ H)) as [H1 H2].
    split; [|done]. rewrite H1, insert_desc_perm.
    by rewrite <- Permutation_middle.
Qed.

Lemma sort_reverse_spec (l : list deck_record) :
  sort_reverse l ≡ₚ l ∧ chain (fun a b => key_ge a b = true) (sort_reverse l).
Proof. by apply (sort_loop_spec l []). Qed.

Lemma insert_key_perm (k : string) (l : list string) : insert_key k l ≡ₚ k :: l.
Proof.
  induction l as [|y l IH]; simpl; [done|].
  destruct (String.leb k y); [done|]. rewrite IH. apply Permutation_swap.
Qed.

Lemma insert_key_chain (k : string) (l : list string) :
  chain (fun a b => String.leb a b = true) l →
  chain (fun a b => String.leb a b = true) (insert_key k l).
Proof.
  induction l as [|y l IH]; simpl; [done|]. intros H.
  destruct (String.leb k y) eqn:E; [by split|].
  assert (String.leb y k = true) as Hyk.
  { destruct (String.leb_total k y); congruence. }
  assert (chain (fun a b => String.leb a b = true) l) as Hl.
  { destruct l; [done|]. by destruct H. }
  specialize (IH Hl). destruct l as [|z l]; simpl in *.
  - done.
  - destruct H as [Hyz _]. destruct (String.leb k z); simpl; by split.
Qed.

Lemma sorted_keys_spec (l : list string) :
  sorted_keys l ≡ₚ l ∧ chain (fun a b => String.leb a b = true) (sorted_keys l).
Proof.
  induction l as [|k l [IH1 IH2]]; simpl; [done|]. split.
  - by rewrite insert_key_perm, IH1.
  - by apply insert_key_chain.
Qed.

Lemma chain_NoDup_strict (l : list string) :
  NoDup l → chain (fun a b => String.leb a b = true) l →
  chain (fun a b => String.leb a b = true ∧ a ≠ b) l.
Proof.
  induction l as [|x [|y l] IH]; simpl; try done.
  intros Hn [Hxy Hc]. apply NoDup_cons in Hn as [Hx Hn]. split.
  - split; [done|]. intros ->. apply Hx. apply list_elem_of_here.
  - by apply IH.
Qed.

Lemma groups_of_keys (matches : list deck_record) :
  (groups_of matches).*1 = (group_loop (shown matches) []).*1.
Proof.
  unfold groups_of. generalize (group_loop (shown matches) []). intros l.
  induction l as [|[k g] l IH]; simpl; [done|]. by f_equal.
Qed.

Lemma sorted_groups_spec (G : groups_t) :
  Forall group_ok G →
  Forall (fun g => group_ok g ∧ chain (fun a b => key_ge a b = true) g.2)
    (map (fun g => (g.1, sort_reverse g.2)) G) ∧
  concat (map (fun g => (g.1, sort_reverse g.2)) G).*2 ≡ₚ concat G.*2.
Proof.
  induction G as [|[k g] G IH]; intros Hok; simpl in *; [done|].
  apply Forall_cons in Hok as [[Hne Hall] Hok]. simpl in *.
  destruct (sort_reverse_spec g) as [Hs1 Hs2].
  destruct (IH Hok) as [IH1 IH2]. split.
  - constructor; [|done]. split; [|done]. split; simpl.
    + intros Hnil. rewrite Hnil in Hs1. apply Permutation_nil_l in Hs1. done.
    + by rewrite Hs1.
  - by rewrite Hs1, IH2.
Qed.

Lemma groups_of_spec (matches : list deck_record) :
  NoDup (groups_of matches).*1 ∧
  Forall (fun g => group_ok g ∧ chain (fun a b => key_ge a b = true) g.2)
    (groups_of matches) ∧
  concat (groups_of matches).*2 ≡ₚ shown matches.
Proof.
  destruct (group_loop_spec (shown matches) []) as (Hn & Hok & Hp);
    [constructor|constructor|].
  simpl in Hp. split; [by rewrite groups_of_keys|].
  destruct (sorted_groups_spec _ Hok) as [H1 H2]. split; [done|].
  unfold groups_of. by rewrite H2.
Qed.

Lemma getitem_keys (G : groups_t) :
  NoDup G.*1 → map (fun k => getitem k G) G.*1 = G.*2.
Proof.
  induction G as [|[k l] G IH]; simpl; [done|]. intros Hn.
  apply NoDup_cons in Hn as [Hk Hn]. rewrite decide_True by done. f_equal.
  etrans; [|exact (IH Hn)]. apply map_ext_in. intros k' Hk'.
  rewrite decide_False; [done|]. intros ->. apply Hk. by apply list_elem_of_In.
Qed.

Lemma getitem_elem_of (G : groups_t) (k : string) :
  k ∈ G.*1 → (k, getitem k G) ∈ G.
Proof.
  induction G as [|[k' l] G IH]; simpl.
  - intros H. by apply elem_of_nil in H.
  - intros H. destruct (decide (k' = k)) as [->|Hne]; [apply list_elem_of_here|].
    apply list_elem_of_further. apply IH.
    apply elem_of_cons in H as [?|?]; [congruence|done].
Qed.

Lemma sum_lengths {A : Type} (ls : list (list A)) :
  sum_list (map length ls) = length (concat ls).
Proof.
  induction ls as [|l ls IH]; simpl; [done|]. by rewrite length_app, IH.
Qed.

Lemma map_pair_fst {A B : Type} (f : A → B) (l : list A) :
  (map (fun a => (a, f a)) l).*1 = l.
Proof. induction l as [|a l IH]; simpl; [done|]. by f_equal. Qed.

Lemma map_pair_snd {A B : Type} (f : A → B) (l : list A) :
  (map (fun a => (a, f a)) l).*2 = map f l.
Proof. induction l as [|a l IH]; simpl; [done|]. by f_equal. Qed.

Lemma report_spec (matches : list deck_record) :
  total matches = length (shown matches) ∧
  concat (report matches).*2 ≡ₚ shown matches ∧
  Forall (fun g => group_ok g ∧ chain (fun a b => key_ge a b = true) g.2)
    (report matches) ∧
  NoDup (report matches).*1 ∧
  chain (fun a b => String.leb a b = true ∧ a ≠ b) (report matches).*1.
Proof.
  destruct (groups_of_spec matches) as (Hn & Hok & Hp).
  destruct (sorted_keys_spec (groups_of matches).*1) as [Hk1 Hk2].
  assert ((report matches).*1 = sorted_keys (groups_of matches).*1) as Hkeys.
  { unfold report. apply map_pair_fst. }
  assert ((report matches).*2
          = map (fun k => getitem k (groups_of matches))
              (sorted_keys (groups_of matches).*1)) as Hvals.
  { unfold report. apply map_pair_snd. }
  split.
  { unfold total. rewrite <- (Permutation_length Hp), <- sum_lengths.
    f_equal. generalize (groups_of matches). intros g.
    induction g as [|[k l] g IH]; simpl; [done|]. by f_equal. }
  split.
  { rewrite Hvals, <- Hp, <- (getitem_keys _ Hn). apply concat_Permutation.
    by apply Permutation_map. }
  split.
  { unfold report. apply Forall_forall. intros g Hg.
    apply list_elem_of_fmap in Hg as (k & -> & Hk).
    rewrite Hk1 in Hk. apply getitem_elem_of in Hk.
    rewrite Forall_forall in Hok. by apply Hok. }
  assert (NoDup (sorted_keys (groups_of matches).*1)) as Hn' by (by rewrite Hk1).
  split; [by rewrite Hkeys|]. rewrite Hkeys. by apply chain_NoDup_strict.
Qed.

(** X21. The report loses and invents nothing: its rows are, up to their
    order, the records with a win rate of at least 0.40, each once; their
    number is the total the report computes and the number [main] prints
    as matches.  A record without a decided game has the win rate 0 and is
    never shown. *)
Theorem report_rows_are_shown_records (matches : list deck_record) :
  concat (report matches).*2 ≡ₚ shown matches ∧
  total matches = length (shown matches) ∧
  (∀ m, m ∈ concat (report matches).*2
        ↔ m ∈ matches ∧ (2 # 5 <= win_rate m)%Q) ∧
  (∀ m, (win_rate m == 0)%Q → m ∉ concat (report matches).*2).
Proof.
  destruct (report_spec matches) as (Ht & Hp & _).
  assert (∀ m, m ∈ concat (report matches).*2
               ↔ m ∈ matches ∧ (2 # 5 <= win_rate m)%Q) as Hin.
  { intros m. rewrite Hp. unfold shown. rewrite list_elem_of_filter.
    rewrite Qle_bool_iff. tauto. }
  split; [done|]. split; [done|]. split; [done|].
  intros m H0 Hm. apply Hin in Hm as [_ Hm]. rewrite H0 in Hm.
  by vm_compute in Hm.
Qed.

(** X22. The order of the report: the groups are listed by archetype in
    ascending order of the names, each name once; a group is not empty and
    holds records of its archetype only; its rows are in descending order
    of (win rate, points, games played). *)
Theorem report_is_grouped_and_sorted (matches : list deck_record) :
  NoDup (report matches).*1 ∧
  chain (fun a b => String.leb a b = true ∧ a ≠ b) (report matches).*1 ∧
  Forall (fun g => g.2 ≠ [] ∧ Forall (fun m => archetype m = g.1) g.2
                   ∧ chain (fun a b => key_ge a b = true) g.2)
    (report matches).
Proof.
  destruct (report_spec matches) as (_ & _ & Hok & Hn & Hc).
  split; [done|]. split; [done|].
  eapply Forall_impl; [exact Hok|]. intros g [[H1 H2] H3]. done.
Qed.

(** ** The order of rows with equal keys *)

Lemma key_ge_le (a b : deck_record) : key_ge a b = true ↔ key_le b a.
Proof.
  unfold key_ge, key_compare, key_le.
  destruct (Qcompare_spec (win_rate a) (win_rate b)) as [E|E|E].
  - destruct (Z.compare_spec (points a) (points b)) as [E1|E1|E1].
    + destruct (Z.compare_spec (played a) (played b)) as [E2|E2|E2].
      * split; [intros _|done]. right. split; [by symmetry|]. right. lia.
      * split; [done|]. intros [H|[_ [H|[_ H]]]]; [lra|lia|lia].
      * split; [intros _|done]. right. split; [by symmetry|]. right. lia.
    + split; [done|]. intros [H|[_ [H|[H _]]]]; [lra|lia|lia].
    + split; [intros _|done]. right. split; [by symmetry|]. by left.
  - split; [done|]. intros [H|[H _]]; lra.
  - split; [intros _|done]. by left.
Qed.

Lemma key_le_trans (a b c : deck_record) : key_le a b → key_le b c → key_le a c.
Proof.
  unfold key_le. intros [H1|[H1 H1']] [H2|[H2 H2']].
  - left. lra.
  - left. lra.
  - left. lra.
  - right. split; [lra|]. lia.
Qed.

Lemma same_key_le (x m : deck_record) : same_key x m ↔ key_le m x ∧ key_le x m.
Proof.
  unfold same_key, key_compare, key_le.
  destruct (Qcompare_spec (win_rate m) (win_rate x)) as [E|E|E].
  - destruct (Z.compare_spec (points m) (points x)) as [E1|E1|E1].
    + destruct (Z.compare_spec (played m) (played x)) as [E2|E2|E2].
      * split; [intros _|done]. split; right; (split; [lra|]); right; lia.
      * split; [done|]. intros [_ [H|[_ [H|[_ H]]]]]; [lra|lia|lia].
      * split; [done|]. intros [[H|[_ [H|[_ H]]]] _]; [lra|lia|lia].
    + split; [done|]. intros [_ [H|[_ [H|[H _]]]]]; [lra|lia|lia].
    + split; [done|]. intros [[H|[_ [H|[H _]]]] _]; [lra|lia|lia].
  - split; [done|]. intros [_ [H|[H _]]]; lra.
  - split; [done|]. intros [[H|[H _]] _]; lra.
Qed.

Lemma chain_below (z : deck_record) (l : list deck_record) :
  chain (fun a b => key_ge a b = true) (z :: l) → Forall (fun m => key_le m z) l.
Proof.
  revert z. induction l as [|y l IH]; intros z H; [constructor|].
  destruct H as [Hzy H]. apply key_ge_le in Hzy. constructor; [done|].
  eapply Forall_impl; [by apply IH|]. simpl. intros m Hm. by eapply key_le_trans.
Qed.

Lemma insert_desc_stable (x y : deck_record) (l : list deck_record) :
  chain (fun a b => key_ge a b = true) l →
  filter (same_key x) (insert_desc y l)
  = filter (same_key x) l ++ filter (same_key x) [y].
Proof.
  induction l as [|z l IH]; intros H; [done|]. simpl.
  destruct (key_ge z y) eqn:E.
  - rewrite !filter_cons. rewrite IH; [by case_decide|].
    destruct l; [done|]. by destruct H.
  - rewrite (filter_cons _ y). rewrite (filter_cons _ y []).
    case_decide as Hy; [|by rewrite filter_nil, (right_id [] app)].
    assert (filter (same_key x) (z :: l) = []) as ->; [|done].
    assert (¬ key_le y z) as Hnot.
    { intros Hle. apply key_ge_le in Hle. congruence. }
    apply same_key_le in Hy as [Hy1 Hy2].
    pose proof (chain_below _ _ H) as Hbelow.
    assert (∀ m, key_le m z → ¬ same_key x m) as Hno.
    { intros m Hm Hs. apply same_key_le in Hs as [Hs1 Hs2]. apply Hnot.
      eapply key_le_trans; [exact Hy1|]. eapply key_le_trans; [exact Hs2|done]. }
    rewrite filter_cons. case_decide as Hz.
    + exfalso. apply same_key_le in Hz as [Hz1 Hz2]. apply Hnot.
      by eapply key_le_trans.
    + clear -Hbelow Hno. induction Hbelow as [|m l Hm _ IHl]; [done|].
      rewrite filter_cons, IHl. case_decide; [|done]. by destruct (Hno m).
Qed.

Lemma sort_loop_stable (x : deck_record) (l acc : list deck_record) :
  chain (fun a b => key_ge a b = true) acc →
  filter (same_key x) (sort_loop l acc)
  = filter (same_key x) acc ++ filter (same_key x) l.
Proof.
  revert acc. induction l as [|y l IH]; intros acc H; simpl.
  - by rewrite filter_nil, (right_id [] app).
  - rewrite IH by (by apply insert_desc_chain).
    rewrite insert_desc_stable by done.
    rewrite (filter_cons _ y l), (filter_cons _ y []).
    case_decide; by rewrite <- ?(assoc app), ?filter_nil, ?(right_id [] app).
Qed.

Lemma getitem_setdefault_append (k k' : string) (m : deck_record) (G : groups_t) :
  getitem k (setdefault_append k' m G)
  = getitem k G ++ (if decide (k' = k) then [m] else []).
Proof.
  induction G as [|[k0 l] G IH]; simpl.
  - by repeat case_decide.
  - destruct (decide (k0 = k')) as [->|Hne]; simpl.
    + repeat case_decide; try done; by rewrite (right_id [] app).
    + rewrite IH. repeat case_decide; try done; try congruence.
      by rewrite (right_id [] app).
Qed.

Lemma getitem_group_loop (k : string) (ms : list deck_record) (G : groups_t) :
  getitem k (group_loop ms G)
  = getitem k G ++ filter (fun m => archetype m = k) ms.
Proof.
  revert G. induction ms as [|m ms IH]; intros G; simpl.
  - by rewrite filter_nil, (right_id [] app).
  - rewrite IH, getitem_setdefault_append, filter_cons.
    case_decide; by rewrite <- ?(assoc app), ?(right_id [] app).
Qed.

Lemma getitem_sorted (k : string) (G : groups_t) :
  getitem k (map (fun g => (g.1, sort_reverse g.2)) G) = sort_reverse (getitem k G).
Proof.
  induction G as [|[k0 l] G IH]; simpl; [done|]. by case_decide.
Qed.

Lemma report_rows (matches : list deck_record) (g : string * list deck_record) :
  g ∈ report matches →
  g.2 = sort_reverse (filter (fun m => archetype m = g.1) (shown matches)).
Proof.
  unfold report. intros Hg. apply list_elem_of_fmap in Hg as (k & -> & _). simpl.
  unfold groups_of. by rewrite getitem_sorted, getitem_group_loop.
Qed.



(** ** The card test *)

Module CardFacts.
Import Card.

Lemma contains_nil (hay : list ascii) : contains [] hay = true.
Proof. by destruct hay. Qed.

Lemma startswith_chars (p s : list ascii) (c : ascii) :
  startswith p s = true → c ∈ p → c ∈ s.
Proof.
  revert s. induction p as [|a p IH]; intros s H Hc.
  - by apply elem_of_nil in Hc.
  - destruct s as [|b s]; [done|]. simpl in H.
    apply andb_true_iff in H as [Hab H]. apply Ascii.eqb_eq in Hab as ->.
    apply elem_of_cons in Hc as [->|Hc]; [apply list_elem_of_here|].
    apply list_elem_of_further. by apply IH.
Qed.

Lemma contains_chars (needle hay : list ascii) (c : ascii) :
  contains needle hay = true → c ∈ needle → c ∈ hay.
Proof.
  intros H Hc. induction hay as [|b hay IH]; simpl in H.
  - rewrite orb_false_r in H. by eapply startswith_chars.
  - apply orb_true_iff in H as [H|H]; [by eapply startswith_chars|].
    apply list_elem_of_further. by apply IH.
Qed.

Lemma lower_char_twice (c : ascii) :
  PyStr.lower_char (PyStr.lower_char c) = PyStr.lower_char c.
Proof. destruct c as [[] [] [] [] [] [] [] []]; vm_compute; reflexivity. Qed.

Lemma lower_chars (l : list ascii) (c : ascii) :
  c ∈ PyStr.lower l → PyStr.lower_char c = c.
Proof.
  unfold PyStr.lower. intros H. apply list_elem_of_fmap in H as (x & -> & _).
  apply lower_char_twice.
Qed.

(** A needle that holds a capital letter is in no lower-case text. *)
Lemma contains_lower (needle text : list ascii) (c : ascii) :
  c ∈ needle → PyStr.lower_char c ≠ c → contains needle (PyStr.lower text) = false.
Proof.
  intros Hc Hne. destruct (contains needle (PyStr.lower text)) eqn:E; [|done].
  exfalso. apply Hne. eapply lower_chars. by eapply contains_chars.
Qed.

Lemma existsb_false {A : Type} (f : A → bool) (l : list A) :
  (∀ x, f x = false) → existsb f l = false.
Proof. intros H. induction l as [|x l IH]; simpl; [done|]. by rewrite H, IH. Qed.

End CardFacts.

(** X23. The card test compares the needle with lower-case text only and
    by inclusion.  So the empty needle is found in every page, whatever
    the page holds, and a needle with a capital letter is found in none:
    the test relies on its caller to pass the name in lower case. *)
Theorem deck_has_card_needle_edges (lib : Card.html_lib) (html : list ascii) :
  Card._deck_has_card lib html [] = true ∧
  (∀ needle c, c ∈ needle → PyStr.lower_char c ≠ c →
               Card._deck_has_card lib html needle = false) ∧
  (∀ needle, Card._has_card_from_js_block html needle = true →
             Card._deck_has_card lib html needle = true).
Proof.
  split; [|split].
  - unfold Card._deck_has_card, Card._has_card_from_anchor_texts.
    rewrite CardFacts.contains_nil.
    destruct (Card._has_card_from_hidden_json lib html []); [done|].
    destruct (Card._has_card_from_js_block html []); [done|].
    by destruct (existsb _ _).
  - intros needle c Hc Hne.
    unfold Card._deck_has_card, Card._has_card_from_hidden_json,
      Card._has_card_from_js_block, Card._has_card_from_anchor_texts.
    assert (∀ text, Card.contains needle (PyStr.lower text) = false) as H
      by (intros text; by eapply CardFacts.contains_lower).
    rewrite H.
    rewrite (CardFacts.existsb_false
               (fun txt => Card.contains needle (PyStr.lower (Card.unescape lib txt))))
      by (intros x; apply H).
    destruct (Card.RE_INPUT_VALUE_search lib html) as [g|].
    + rewrite (CardFacts.existsb_false
                 (fun name => Card.contains needle (PyStr.lower name)))
        by (intros x; apply H).
      destruct (Re.search Card.RE_JS_DECKBLOCK_at html); [by rewrite H|done].
    + destruct (Re.search Card.RE_JS_DECKBLOCK_at html); [by rewrite H|done].
  - intros needle H. unfold Card._deck_has_card. rewrite H.
    by destruct (Card._has_card_from_hidden_json lib html needle).
Qed.

(** ** The record of a deck page *)

Module DetailsFacts.
Import Re Card Details.

Lemma int_nonneg_from (g : list ascii) (acc : Z) :
  digits g → 0 <= acc → 0 <= fold_left (fun a c => 10 * a + Py.digit_value c) g acc.
Proof.
  unfold digits. revert acc. induction g as [|c g IH]; intros acc Hg Hacc; simpl; [done|].
  simpl in Hg. apply andb_true_iff in Hg as [Hc Hg]. apply IH; [done|].
  unfold Py.is_digit in Hc. unfold Py.digit_value. lia.
Qed.

Lemma int_nonneg (g : list ascii) : digits g → 0 <= Py.int g.
Proof. intros H. by apply int_nonneg_from. Qed.

Section Pass.
Context {R : Type}.
Implicit Types (s : list ascii) (r : R).

Lemma lit_pass pat s (k : list ascii → option R) r :
  lit pat s k = Some r → ∃ rest, k rest = Some r.
Proof. intros H. apply ReFacts.lit_sound in H as (_ & rest & _ & _ & H). eauto. Qed.

Lemma lit_exact_pass pat s (k : list ascii → option R) r :
  lit_exact pat s k = Some r → ∃ rest, k rest = Some r.
Proof.
  revert s. induction pat as [|p pat IH]; intros s; simpl; [eauto|].
  destruct s as [|c s]; [done|]. destruct (Ascii.eqb c p); [|done]. apply IH.
Qed.

Lemma star_pass cls s (k : list ascii → option R) r :
  star cls s k = Some r → ∃ rest, k rest = Some r.
Proof. intros H. apply ReFacts.star_sound in H as (_ & rest & _ & _ & H). eauto. Qed.

Lemma plus_pass cls s (k : list ascii → list ascii → option R) r :
  plus_group cls [] s k = Some r →
  ∃ g rest, forallb cls g = true ∧ k g rest = Some r.
Proof.
  intros H. apply ReFacts.plus_sound in H as (g & rest & _ & _ & Hg & H). eauto.
Qed.

Lemma one_pass cls s (k : list ascii → option R) r :
  one cls s k = Some r → ∃ rest, k rest = Some r.
Proof.
  unfold one. destruct s as [|c s]; [done|]. destruct (cls c); [eauto|done].
Qed.

Lemma lazy_group_pass acc s (k : list ascii → list ascii → option R) r :
  lazy_group acc s k = Some r → ∃ g rest, k g rest = Some r.
Proof.
  revert acc. induction s as [|c s IH]; intros acc; simpl.
  - destruct (k acc []) eqn:E; [|done]. intros [= <-]. eauto.
  - destruct (k acc (c :: s)) eqn:E; [intros [= <-]; eauto|]. apply IH.
Qed.

Lemma search_pass (f : list ascii → option R) s r :
  search f s = Some r → ∃ t, f t = Some r.
Proof. intros H. apply ReFacts.search_sound in H as (_ & t & _ & H). eauto. Qed.

Lemma details_open_pass s (k : list ascii → option R) r :
  details_open s k = Some r → ∃ rest, k rest = Some r.
Proof.
  unfold details_open. intros H.
  apply lit_pass in H as (s1 & H). apply star_pass in H as (s2 & H).
  apply lit_pass in H as (s3 & H). apply one_pass in H as (s4 & H).
  apply lit_pass in H as (s5 & H). apply one_pass in H as (s6 & H).
  apply star_pass in H as (s7 & H). by apply lit_pass in H.
Qed.

Lemma record_groups_pass
    (lt : list ascii → list ascii → (list ascii → option R) → option R) s
    (k : list ascii → list ascii → list ascii → list ascii → option R) r :
  (∀ pat s' k' r', lt pat s' k' = Some r' → ∃ rest, k' rest = Some r') →
  record_groups lt s k = Some r →
  ∃ g2 g3 g4 rest, digits g2 ∧ digits g3 ∧ digits g4 ∧ k g2 g3 g4 rest = Some r.
Proof.
  intros Hlt H. unfold record_groups in H.
  apply Hlt in H as (s1 & H). apply plus_pass in H as (g2 & s2 & Hg2 & H).
  apply Hlt in H as (s3 & H). apply plus_pass in H as (g3 & s4 & Hg3 & H).
  apply Hlt in H as (s5 & H). apply plus_pass in H as (g4 & s6 & Hg4 & H).
  apply Hlt in H as (s7 & H). by exists g2, g3, g4, s7.
Qed.
End Pass.

Lemma RE_DETAILS_at_digits (s g1 g2 g3 g4 g0 : list ascii) :
  RE_DETAILS_at s = Some (g1, g2, g3, g4, g0) →
  digits g1 ∧ digits g2 ∧ digits g3 ∧ digits g4.
Proof.
  unfold RE_DETAILS_at. intros H.
  apply details_open_pass in H as (s1 & H). apply star_pass in H as (s2 & H).
  apply plus_pass in H as (h1 & s3 & Hg1 & H).
  apply plus_pass in H as (_ & s4 & _ & H).
  apply lit_pass in H as (s5 & H). apply star_pass in H as (s6 & H).
  apply record_groups_pass in H as (h2 & h3 & h4 & s7 & Hg2 & Hg3 & Hg4 & H);
    [|intros; by eapply lit_pass].
  apply star_pass in H as (s8 & H).
  assert (∃ s10, lit (chars "</div>") s10
                   (fun s11 => Some (h1, h2, h3, h4, Scraper.consumed s s11))
                 = Some (g1, g2, g3, g4, g0)) as (s10 & H10).
  { unfold opt in H.
    destruct (drop_mark s8 _) as [r|] eqn:E.
    - injection H as ->. unfold drop_mark in E.
      apply lit_pass in E as (t1 & E). apply star_pass in E as (t2 & E).
      apply lit_pass in E as (t3 & E). apply star_pass in E as (t4 & E).
      apply lit_pass in E as (t5 & E). by apply star_pass in E.
    - by apply star_pass in H. }
  apply lit_pass in H10 as (s11 & H10). by injection H10 as <- <- <- <- _.
Qed.

Lemma points_at_digits (s g : list ascii) : points_at s = Some g → digits g.
Proof.
  unfold points_at. intros H. apply plus_pass in H as (h & s1 & Hg & H).
  apply star_pass in H as (s2 & H). apply lit_exact_pass in H as (s3 & H).
  by injection H as <-.
Qed.

Lemma record_at_digits (s g2 g3 g4 : list ascii) :
  record_at s = Some (g2, g3, g4) → digits g2 ∧ digits g3 ∧ digits g4.
Proof.
  unfold record_at. intros H.
  apply record_groups_pass in H as (h2 & h3 & h4 & s7 & Hg2 & Hg3 & Hg4 & H);
    [|intros; by eapply lit_exact_pass].
  by injection H as <- <- <-.
Qed.

(** What [int] gives for a run of digits. *)
Lemma int_of_cases (limit : option nat) (g : list ascii) :
  digits g →
  (∃ n, int_of limit g = Py.Ok n ∧ 0 <= n)
  ∨ (∃ n, limit = Some n ∧ (n < length g)%nat
          ∧ int_of limit g = Py.Raise (ValueError n (length g))).
Proof.
  intros Hg. unfold int_of. destruct limit as [n|].
  - destruct (n <? length g)%nat eqn:E.
    + right. exists n. apply Nat.ltb_lt in E. done.
    + left. eexists. split; [done|]. by apply int_nonneg.
  - left. eexists. split; [done|]. by apply int_nonneg.
Qed.

Lemma int_of_Ok (limit : option nat) (g : list ascii) (n : Z) :
  digits g → int_of limit g = Py.Ok n → 0 <= n.
Proof.
  intros Hg H. destruct (int_of_cases limit g Hg) as [(m & Hm & Hpos)|(m & _ & _ & Hm)];
    congruence.
Qed.

Lemma int_of_Raise (limit : option nat) (g : list ascii) (e : exception) :
  int_of limit g = Py.Raise e →
  ∃ n len, limit = Some n ∧ (n < len)%nat ∧ e = ValueError n len.
Proof.
  unfold int_of. destruct limit as [n|]; [|done].
  destruct (n <? length g)%nat eqn:E; [|done]. intros [= <-].
  apply Nat.ltb_lt in E. eauto.
Qed.

Lemma int_of_no_limit (g : list ascii) : int_of None g = Py.Ok (Py.int g).
Proof. done. Qed.

Lemma extract_details_spec (limit : option nat) (unescape : list ascii → list ascii)
    (html : list ascii) :
  match _extract_details limit unescape html with
  | Py.Ok (points, wins, losses, ties, _) =>
      0 <= points ∧ 0 <= wins ∧ 0 <= losses ∧ 0 <= ties
  | Py.Raise e => ∃ n len, limit = Some n ∧ (n < len)%nat ∧ e = ValueError n len
  end.
Proof.
  unfold _extract_details.
  destruct (search RE_DETAILS_at html) as [[[[[g1 g2] g3] g4] g0]|] eqn:E.
  - apply search_pass in E as (t & E).
    apply RE_DETAILS_at_digits in E as (H1 & H2 & H3 & H4).
    unfold bind.
    destruct (int_of limit g1) as [n1|e] eqn:E1; [|by eapply int_of_Raise].
    destruct (int_of limit g2) as [n2|e] eqn:E2; [|by eapply int_of_Raise].
    destruct (int_of limit g3) as [n3|e] eqn:E3; [|by eapply int_of_Raise].
    destruct (int_of limit g4) as [n4|e] eqn:E4; [|by eapply int_of_Raise].
    split; [by apply (int_of_Ok limit g1)|]. split; [by apply (int_of_Ok limit g2)|].
    split; [by apply (int_of_Ok limit g3)|by apply (int_of_Ok limit g4)].
  - destruct (search details_div_at html) as [inner|]; [|done].
    set (text := PyStr.lower (unescape (sub_tags inner))).
    unfold bind.
    assert (match (match search points_at text with
                   | Some g => int_of limit g
                   | None => Py.Ok 0
                   end) with
            | Py.Ok n => 0 <= n
            | Py.Raise e => ∃ n len, limit = Some n ∧ (n < len)%nat
                                     ∧ e = ValueError n len
            end) as Hp.
    { destruct (search points_at text) as [g|] eqn:Ep; [|done].
      apply search_pass in Ep as (t & Ep). apply points_at_digits in Ep.
      destruct (int_of limit g) eqn:Ei; [by eapply int_of_Ok|by eapply int_of_Raise]. }
    destruct (match search points_at text with
              | Some g => int_of limit g
              | None => Py.Ok 0
              end) as [n1|e]; [|done].
    destruct (search record_at text) as [[[g2 g3] g4]|] eqn:Er; [|done].
    apply search_pass in Er as (t & Er).
    apply record_at_digits in Er as (H2 & H3 & H4).
    destruct (int_of limit g2) as [n2|e] eqn:E2; [|by eapply int_of_Raise].
    destruct (int_of limit g3) as [n3|e] eqn:E3; [|by eapply int_of_Raise].
    destruct (int_of limit g4) as [n4|e] eqn:E4; [|by eapply int_of_Raise].
    split; [done|]. split; [by apply (int_of_Ok limit g2)|].
    split; [by apply (int_of_Ok limit g3)|by apply (int_of_Ok limit g4)].
Qed.

End DetailsFacts.

(** X24. [_extract_details] returns counts: the points, wins, losses and
    ties it gives are never negative.  It raises nothing but the
    [ValueError] of a conversion beyond the digit limit of the interpreter,
    so without such a limit it returns for every page. *)
Theorem extract_details_counts (limit : option nat)
    (unescape : list ascii → list ascii) (html : list ascii) :
  (∀ points wins losses ties dropped,
     Details._extract_details limit unescape html
     = Py.Ok (points, wins, losses, ties, dropped) →
     0 <= points ∧ 0 <= wins ∧ 0 <= losses ∧ 0 <= ties) ∧
  (∀ e, Details._extract_details limit unescape html = Py.Raise e →
        ∃ n len, limit = Some n ∧ (n < len)%nat ∧ e = Details.ValueError n len) ∧
  (∃ v, Details._extract_details None unescape html = Py.Ok v).
Proof.
  pose proof (DetailsFacts.extract_details_spec limit unescape html) as H.
  pose proof (DetailsFacts.extract_details_spec None unescape html) as H0.
  split; [|split].
  - intros p w l t d E. by rewrite E in H.
  - intros e E. by rewrite E in H.
  - destruct (Details._extract_details None unescape html) as [v|e]; [by exists v|].
    by destruct H0 as (n & len & ? & _).
Qed.

Lemma share_bounds (w l : Z) (q : Q) :
  0 <= w → 0 <= l → win_rate_of w l = Py.Ok q →
  (0 <= q)%Q ∧ (q <= 1)%Q ∧ ((q == 0)%Q ↔ w = 0).
Proof.
  intros Hw Hl H. apply win_rate_of_value in H as [H1 H2].
  destruct (Z_lt_le_dec 0 (w + l)) as [Hd|Hd].
  - specialize (H1 Hd). clear H2.
    assert (0 < inject_Z (w + l))%Q as Hd'.
    { change 0%Q with (inject_Z 0). by rewrite <- Zlt_Qlt. }
    assert (0 <= inject_Z w)%Q as Hw'.
    { change 0%Q with (inject_Z 0). by rewrite <- Zle_Qle. }
    assert (inject_Z w <= inject_Z (w + l))%Q as Hwl.
    { rewrite <- Zle_Qle. lia. }
    rewrite H1. split; [|split].
    + apply Qle_shift_div_l; [done|]. lra.
    + apply Qle_shift_div_r; [done|]. lra.
    + split.
      * intros Hq. destruct (Z_le_lt_eq_dec 0 w Hw) as [Hpos|Hz]; [|done].
        exfalso.
        assert (0 < inject_Z w / inject_Z (w + l))%Q as Hgt.
        { apply Qlt_shift_div_l; [done|].
          assert (0 < inject_Z w)%Q.
          { change 0%Q with (inject_Z 0). by rewrite <- Zlt_Qlt. }
          lra. }
        lra.
      * intros ->. unfold Qdiv. change (inject_Z 0) with 0%Q. lra.
  - assert (w + l = 0) as Hz by lia. specialize (H2 Hz). rewrite H2.
    split; [lra|]. split; [lra|]. split; [lia|reflexivity].
Qed.

Lemma make_record_sane (limit : option nat) (unescape : list ascii → list ascii)
    (prs : parsers) (u html : string) (r : deck_record) :
  make_record (with_details limit unescape prs) u html = Py.Ok r → sane_record r.
Proof.
  intros H. pose proof (make_record_fields _ _ _ _ H) as (Hq & _ & _).
  unfold make_record in H. simpl in H.
  pose proof (DetailsFacts.extract_details_spec limit unescape (Re.chars html)) as Hd.
  destruct (Details._extract_details limit unescape (Re.chars html))
    as [[[[[pts w] l] t] d]|]; [|done].
  destruct Hd as (Hp & Hw & Hl & Ht).
  destruct (win_rate_of w l) as [q|] eqn:Eq; [|done].
  destruct (_player_from_url prs u); [|done].
  destruct (_extract_archetype prs html); [|done].
  injection H as <-. simpl in *.
  destruct (share_bounds w l q Hw Hl Eq) as (H1 & H2 & H3).
  unfold sane_record. simpl. done.
Qed.

Lemma records_sane_exec (limit : option nat) (unescape : list ascii → list ascii)
    (cfg : config) (lib : urllib) (prs : parsers) (card : string)
    (es : list resumption) :
  Forall sane_record
    (matches (shared (exec cfg lib (with_details limit unescape prs) card es
                        (init cfg)))).
Proof.
  apply (exec_stepped_invariant cfg lib (with_details limit unescape prs) card
           (fun s => Forall sane_record (matches (shared s)))).
  - intros e s s' H Hst.
    destruct Hst as [|w res Hw Hc Hg|st Hw Hc|st i u ph w' sem' ph' Hw Hc Hi _ Hte].
    + done.
    + destruct Hg as [_ Hm _ _ _ _ _ _]. simpl in Hm. by rewrite after_first_shared, Hm.
    + by rewrite join_shared.
    + simpl. destruct Hte as [_ _ _ _ _ _ Hm _]. simpl in Hm.
      destruct Hm as [->|(_ & html & rcd & Hr & ->)]; [done|].
      apply Forall_app. split; [done|]. apply Forall_singleton.
      by eapply make_record_sane.
  - constructor.
Qed.



(** ** The archetype of a deck page *)

Module ArchetypeFacts.
Import Re Card Details Archetype.

Lemma lstrip_split (s : list ascii) :
  ∃ sp, s = sp ++ PyStr.lstrip s.
Proof.
  induction s as [|c s [sp IH]]; simpl; [by exists []|].
  destruct (PyStr.isspace c); [|by exists []].
  exists (c :: sp). simpl. by f_equal.
Qed.

Lemma lstrip_fixed (s : list ascii) :
  (∀ c t, s = c :: t → PyStr.isspace c = false) → PyStr.lstrip s = s.
Proof.
  destruct s as [|c s]; [done|]. intros H. simpl. by rewrite (H c s eq_refl).
Qed.

Lemma lstrip_head (s : list ascii) (c : ascii) (t : list ascii) :
  PyStr.lstrip s = c :: t → PyStr.isspace c = false.
Proof.
  induction s as [|d s IH]; simpl; [done|].
  destruct (PyStr.isspace d) eqn:E; [done|]. by intros [= <- _].
Qed.

Lemma lstrip_twice (s : list ascii) : PyStr.lstrip (PyStr.lstrip s) = PyStr.lstrip s.
Proof. apply lstrip_fixed. intros c t H. by eapply lstrip_head. Qed.

Lemma rstrip_split (s : list ascii) : ∃ sp, s = PyStr.rstrip s ++ sp.
Proof.
  unfold PyStr.rstrip. destruct (lstrip_split (reverse s)) as [sp H].
  exists (reverse sp). rewrite <- reverse_app, <- H. by rewrite reverse_involutive.
Qed.

Lemma strip_twice (s : list ascii) : PyStr.strip (PyStr.strip s) = PyStr.strip s.
Proof.
  unfold PyStr.strip.
  assert (PyStr.lstrip (PyStr.rstrip (PyStr.lstrip s)) = PyStr.rstrip (PyStr.lstrip s))
    as ->.
  { apply lstrip_fixed. intros c t H.
    destruct (rstrip_split (PyStr.lstrip s)) as [sp Hsp].
    rewrite H in Hsp. simpl in Hsp. by eapply lstrip_head. }
  unfold PyStr.rstrip. by rewrite reverse_involutive, lstrip_twice.
Qed.

Lemma strip_infix (s : list ascii) : ∃ a b, s = a ++ PyStr.strip s ++ b.
Proof.
  unfold PyStr.strip. destruct (lstrip_split s) as [a Ha].
  destruct (rstrip_split (PyStr.lstrip s)) as [b Hb].
  exists a, b. by rewrite <- Hb.
Qed.

Lemma strip_Forall (P : ascii → Prop) (s : list ascii) :
  Forall P s → Forall P (PyStr.strip s).
Proof.
  intros H. destruct (strip_infix s) as (a & b & Hs). rewrite Hs in H.
  apply Forall_app in H as [_ H]. by apply Forall_app in H as [H _].
Qed.

Section Sound.
Context {R : Type}.

Lemma one_sound (cls : ascii → bool) (s : list ascii) (k : list ascii → option R)
    (r : R) :
  one cls s k = Some r → ∃ c rest, s = c :: rest ∧ k rest = Some r.
Proof.
  unfold one. destruct s as [|c s]; [done|]. destruct (cls c); [eauto|done].
Qed.

Lemma one_kept_sound (cls : ascii → bool) (s : list ascii)
    (k : ascii → list ascii → option R) (r : R) :
  one_kept cls s k = Some r → ∃ c rest, s = c :: rest ∧ k c rest = Some r.
Proof.
  unfold one_kept. destruct s as [|c s]; [done|]. destruct (cls c); [eauto|done].
Qed.

Lemma star_prev_sound (cls : ascii → bool) (prev : ascii) (s : list ascii)
    (k : ascii → list ascii → option R) (r : R) :
  star_prev cls prev s k = Some r →
  ∃ a p rest, s = a ++ rest ∧ k p rest = Some r.
Proof.
  revert prev. induction s as [|c s IH]; intros prev; simpl.
  - intros H. by exists [], prev, [].
  - destruct (cls c); [|intros H; by exists [], prev, (c :: s)].
    destruct (star_prev cls c s k) as [r'|] eqn:E.
    + intros [= ->]. destruct (IH _ E) as (a & p & rest & -> & H).
      by exists (c :: a), p, rest.
    + intros H. by exists [], prev, (c :: s).
Qed.
End Sound.

Lemma RE_ARCHETYPE_at_sound (s g : list ascii) :
  RE_ARCHETYPE_at s = Some g →
  (∃ pre post, s = pre ++ g ++ post) ∧ g ≠ [] ∧ forallb not_quote g = true.
Proof.
  unfold RE_ARCHETYPE_at. intros H.
  apply ReFacts.lit_sound in H as (a1 & s1 & -> & _ & H).
  apply ReFacts.star_sound in H as (a2 & s2 & -> & _ & H).
  apply ReFacts.lit_sound in H as (a3 & s3 & -> & _ & H).
  apply one_sound in H as (c4 & s4 & -> & H).
  apply ReFacts.lit_sound in H as (a5 & s5 & -> & _ & H).
  apply one_kept_sound in H as (c6 & s6 & -> & H).
  apply star_prev_sound in H as (a7 & p & s7 & -> & H).
  destruct (is_word p); [done|].
  apply ReFacts.lit_sound in H as (a8 & s8 & -> & _ & H).
  apply one_sound in H as (c9 & s9 & -> & H).
  apply ReFacts.plus_sound in H as (h & s10 & -> & Hne & Hh & H).
  apply one_sound in H as (c11 & s11 & -> & H).
  injection H as <-. split; [|done].
  exists (a1 ++ a2 ++ a3 ++ c4 :: a5 ++ c6 :: a7 ++ a8 ++ [c9]), (c11 :: s11).
  rewrite <- !app_assoc. simpl. rewrite <- !app_assoc. simpl.
  by rewrite <- !app_assoc.
Qed.

End ArchetypeFacts.

(** X26. [_extract_archetype] gives either [Other] or a piece of the page,
    stripped: the name has no white space at its ends and holds no quote
    of either kind. *)
Theorem extract_archetype_is_stripped (html : list ascii) :
  PyStr.strip (Archetype._extract_archetype html) = Archetype._extract_archetype html ∧
  Forall (fun c => Details.is_quote c = false) (Archetype._extract_archetype html) ∧
  (Archetype._extract_archetype html = Re.chars "Other"
   ∨ ∃ pre g post, html = pre ++ g ++ post ∧ g ≠ [] ∧
                   Archetype._extract_archetype html = PyStr.strip g).
Proof.
  unfold Archetype._extract_archetype.
  destruct (Re.search Archetype.RE_ARCHETYPE_at html) as [g|] eqn:E.
  - apply ReFacts.search_sound in E as (pre & t & -> & E).
    apply ArchetypeFacts.RE_ARCHETYPE_at_sound in E as ((p & post & ->) & Hne & Hg).
    split; [apply ArchetypeFacts.strip_twice|]. split.
    + apply ArchetypeFacts.strip_Forall. apply Forall_forall. intros c Hc.
      rewrite forallb_forall in Hg. apply list_elem_of_In in Hc.
      specialize (Hg _ Hc). unfold Archetype.not_quote in Hg.
      by apply negb_true_iff in Hg.
    + right. exists (pre ++ p), g, post. by rewrite <- !app_assoc.
  - split; [by vm_compute|]. split; [|by left].
    repeat constructor.
Qed.

